(** * Potion-Trader: the rank-augmented AVL tree and the rank source

    A shallow embedding of [avl.py] (class [AVLTree]) and of
    [random_gen.py] (class [RandomGen]).

    Python objects are mutated in place; the tree owns its nodes
    exclusively (no node is shared), so a subtree is modelled as a value and
    every mutation as the construction of the updated value.  The one place
    where in-place mutation is observable is an exception: what was mutated
    before the [raise] stays mutated.  [insert_aux] and [delete_aux]
    therefore return an [outcome] that carries the state of the object graph
    in both cases.

    Python's [None] plays two roles in [avl.py]: the absent child and the
    value a function returns when it falls off its end.  Both are [Nil]. *)

From Stdlib Require Import ZArith Znumtheory List Lia Sorted Permutation Ascii String.
Import ListNotations.
Open Scope Z_scope.

Set Implicit Arguments.

(** ** Exceptions and results *)

Inductive exn : Type :=
| ValueError       (* raised by the code itself *)
| AttributeError.  (* an attribute read on [None] *)

Inductive res (A : Type) : Type :=
| Ok (a : A)
| Err (e : exn).
Arguments Ok {A} a.
Arguments Err {A} e.

Definition bind {A B : Type} (m : res A) (f : A -> res B) : res B :=
  match m with
  | Ok a => f a
  | Err e => Err e
  end.

Notation "x <- m ;; f" := (bind m (fun x => f))
  (at level 61, m at next level, right associativity).

Section AVLTree.

(** The payload stored next to a key ([I] in [avl.py]). *)
Variable I : Type.

(** Keys are totally ordered; the game uses prices.  They are integers here. *)
Definition K : Type := Z.

(** ** Nodes *)

(** [AVLTreeNode]: children, key, item, height and the two subtree counters.
    [Nil] is Python's [None]. *)
Inductive tree : Type :=
| Nil
| Node (left : tree) (key : K) (item : I)
       (height left_counter right_counter : Z) (right : tree).

(** Modelled from the spec: the constructor [AVLTreeNode(key, item)] of
    [node.py], which is not among the sources: a new leaf has height 1 and
    both counters 0. *)
Definition AVLTreeNode (key : K) (item : I) : tree :=
  Node Nil key item 1 0 0 Nil.

Definition is_none (t : tree) : bool :=
  match t with
  | Nil => true
  | Node _ _ _ _ _ _ _ => false
  end.

(** Attribute reads; on [None] they raise. *)
Definition attr_left (t : tree) : res tree :=
  match t with
  | Nil => Err AttributeError
  | Node l _ _ _ _ _ _ => Ok l
  end.

Definition attr_right (t : tree) : res tree :=
  match t with
  | Nil => Err AttributeError
  | Node _ _ _ _ _ _ r => Ok r
  end.

(** [current.right = r'] *)
Definition set_right (t r' : tree) : res tree :=
  match t with
  | Nil => Err AttributeError
  | Node l k v h lc rc _ => Ok (Node l k v h lc rc r')
  end.

(** [current.left = l'] *)
Definition set_left (t l' : tree) : res tree :=
  match t with
  | Nil => Err AttributeError
  | Node _ k v h lc rc r => Ok (Node l' k v h lc rc r)
  end.

(** ** Getters *)

Definition get_height (current : tree) : Z :=
  match current with
  | Node _ _ _ h _ _ _ => h
  | Nil => 0
  end.

Definition get_left_counter (current : tree) : Z :=
  match current with
  | Node (Node _ _ _ _ _ _ _) _ _ _ lc _ _ => lc
  | _ => 0
  end.

Definition get_right_counter (current : tree) : Z :=
  match current with
  | Node _ _ _ _ _ rc (Node _ _ _ _ _ _ _) => rc
  | _ => 0
  end.

Definition get_total_counter (current : tree) : Z :=
  match current with
  | Node _ _ _ _ _ _ _ => get_left_counter current + get_right_counter current
  | Nil => 0
  end.

Definition get_balance (current : tree) : Z :=
  match current with
  | Nil => 0
  | Node l _ _ _ _ _ r => get_height r - get_height l
  end.

(** ** Maintenance of the augmentation *)

Definition update_height (current : tree) : tree :=
  match current with
  | Nil => Nil
  | Node l k v _ lc rc r =>
      Node l k v (Z.max (get_height l) (get_height r) + 1) lc rc r
  end.

(** A counter is rewritten only when the child on that side is present. *)
Definition update_counter (current : tree) : tree :=
  match current with
  | Nil => Nil
  | Node l k v h lc rc r =>
      let rc' := if is_none r then rc else get_total_counter r + 1 in
      let lc' := if is_none l then lc else get_total_counter l + 1 in
      Node l k v h lc' rc' r
  end.

(** ** Rotations *)

(** [left_rotate]: when the right child is absent the function falls off
    its end and returns [None]. *)
Definition left_rotate (current : tree) : res tree :=
  match current with
  | Nil => Err AttributeError
  | Node _ _ _ _ _ _ Nil => Ok Nil
  | Node l k v h lc rc (Node cl ck cv ch clc crc cr) =>
      (* current.right, child.left = child.left, current *)
      let current := Node l k v h lc rc cl in
      let current := update_height current in
      let current := update_counter current in
      let child := Node current ck cv ch clc crc cr in
      let child := update_height child in
      let child := update_counter child in
      Ok child
  end.

Definition right_rotate (current : tree) : res tree :=
  match current with
  | Nil => Err AttributeError
  | Node Nil _ _ _ _ _ _ => Ok Nil
  | Node (Node cl ck cv ch clc crc cr) k v h lc rc r =>
      (* current.left, child.right = child.right, current *)
      let current := Node cr k v h lc rc r in
      let current := update_height current in
      let current := update_counter current in
      let child := Node cl ck cv ch clc crc current in
      let child := update_height child in
      let child := update_counter child in
      Ok child
  end.

(** ** Rebalancing *)

(** No object is mutated before the only reads that can raise
    ([child.left] on an absent child), so an error leaves [current] as it
    was. *)
Definition rebalance (current : tree) : res tree :=
  if 2 <=? get_balance current then
    child <- attr_right current ;;
    cl <- attr_left child ;;
    cr <- attr_right child ;;
    if get_height cr <? get_height cl then
      child' <- right_rotate child ;;
      current' <- set_right current child' ;;
      left_rotate current'
    else
      left_rotate current
  else if get_balance current <=? -2 then
    child <- attr_left current ;;
    cr <- attr_right child ;;
    cl <- attr_left child ;;
    if get_height cl <? get_height cr then
      child' <- left_rotate child ;;
      current' <- set_left current child' ;;
      right_rotate current'
    else
      right_rotate current
  else
    Ok current.

(** ** Insertion and deletion *)

(** What a call of [insert_aux] or [delete_aux] leaves behind: the subtree
    it returns, or the exception it raises together with the state in which
    the objects reachable from its argument are left; in both cases with the
    value of [self.length]. *)
Inductive outcome : Type :=
| Returned (t : tree) (length : Z)
| Raised (e : exn) (t : tree) (length : Z).

(** The common tail of [insert_aux] and [delete_aux]:
    [update_height], [update_counter], [return self.rebalance(current)]. *)
Definition finish (current : tree) (length : Z) : outcome :=
  let current := update_height current in
  let current := update_counter current in
  match rebalance current with
  | Ok t => Returned t length
  | Err e => Raised e current length
  end.

Fixpoint insert_aux (current : tree) (key : K) (item : I) (length : Z)
  : outcome :=
  match current with
  | Nil => finish (AVLTreeNode key item) (length + 1)
  | Node l k v h lc rc r =>
      if key <? k then
        match insert_aux l key item length with
        | Returned l' n => finish (Node l' k v h lc rc r) n
        | Raised e l' n => Raised e (Node l' k v h lc rc r) n
        end
      else if k <? key then
        match insert_aux r key item length with
        | Returned r' n => finish (Node l k v h lc rc r') n
        | Raised e r' n => Raised e (Node l k v h lc rc r') n
        end
      else
        Raised ValueError current length
  end.

(** Modelled from the spec: [is_leaf], [get_minimal] and [get_successor] of
    [bst.py], which is not among the sources.  A leaf has no child; the
    in-order successor is the leftmost node of the right subtree. *)
Definition is_leaf (current : tree) : bool :=
  match current with
  | Node Nil _ _ _ _ _ Nil => true
  | _ => false
  end.

Fixpoint get_minimal (current : tree) : tree :=
  match current with
  | Nil => Nil
  | Node Nil _ _ _ _ _ _ => current
  | Node l _ _ _ _ _ _ => get_minimal l
  end.

Definition get_successor (current : tree) : tree :=
  match current with
  | Nil => Nil
  | Node _ _ _ _ _ _ r => get_minimal r
  end.

(** The counter on the side of the descent is decremented before the
    recursive call, hence also when that call raises. *)
Fixpoint delete_aux (current : tree) (key : K) (length : Z) : outcome :=
  match current with
  | Nil => Raised ValueError Nil length
  | Node l k v h lc rc r =>
      if key <? k then
        match delete_aux l key length with
        | Returned l' n => finish (Node l' k v h (lc - 1) rc r) n
        | Raised e l' n => Raised e (Node l' k v h (lc - 1) rc r) n
        end
      else if k <? key then
        match delete_aux r key length with
        | Returned r' n => finish (Node l k v h lc (rc - 1) r') n
        | Raised e r' n => Raised e (Node l k v h lc (rc - 1) r') n
        end
      else if is_leaf current then Returned Nil (length - 1)
      else if is_none l then Returned r (length - 1)
      else if is_none r then Returned l (length - 1)
      else
        match get_successor current with
        | Nil => Raised AttributeError current length
        | Node _ sk sv _ _ _ _ =>
            (* current.key = succ.key; current.item = succ.item *)
            match delete_aux r sk length with
            | Returned r' n => finish (Node l sk sv h lc rc r') n
            | Raised e r' n => Raised e (Node l sk sv h lc rc r') n
            end
        end
  end.

(** ** The order-statistic query *)

(** On [None] the first comparison reads no attribute; the other two
    branches read [root.right] or [root.left] and raise.  The rank passed to
    the left child is computed from the stored field [root.right_counter],
    not from [get_right_counter]. *)
Fixpoint kth_largest_helper (root : tree) (k : Z) : res tree :=
  match root with
  | Nil => if k =? get_right_counter root + 1 then Ok root
           else Err AttributeError
  | Node l _ _ _ _ rc r =>
      if k =? get_right_counter root + 1 then Ok root
      else if k <? get_right_counter root + 1 then
        match r with
        | Nil => Ok root
        | Node _ _ _ _ _ _ _ => kth_largest_helper r k
        end
      else
        match l with
        | Nil => Ok root
        | Node _ _ _ _ _ _ _ => kth_largest_helper l (k - rc - 1)
        end
  end.

(** ** The tree object *)

(** [AVLTree]: the root and the running [length]. *)
Record AVLTree : Type := mkTree { root : tree; length : Z }.

(** Modelled from the spec: the constructor and the public operations of
    [bst.py], which is not among the sources.  The empty tree has no root
    and size 0; [insert] and [delete] run the recursive worker on the root
    and store what it returns as the new root. *)
Definition empty : AVLTree := mkTree Nil 0.

Definition state_of (o : outcome) : AVLTree :=
  match o with
  | Returned t n => mkTree t n
  | Raised _ t n => mkTree t n
  end.

Definition error_of (o : outcome) : option exn :=
  match o with
  | Returned _ _ => None
  | Raised e _ _ => Some e
  end.

Definition insert (T : AVLTree) (key : K) (item : I) : outcome :=
  insert_aux (root T) key item (length T).

Definition delete (T : AVLTree) (key : K) : outcome :=
  delete_aux (root T) key (length T).

Definition kth_largest (T : AVLTree) (k : Z) : res tree :=
  kth_largest_helper (root T) k.

(** ** What the tree holds, and its invariants *)

(** In-order traversal of the keys. *)
Fixpoint inorder (t : tree) : list K :=
  match t with
  | Nil => []
  | Node l k _ _ _ _ r => inorder l ++ k :: inorder r
  end.

(** The true number of nodes of a subtree. *)
Fixpoint count (t : tree) : Z :=
  match t with
  | Nil => 0
  | Node l _ _ _ _ _ r => count l + count r + 1
  end.

(** The true height of a subtree, 0 when it is absent. *)
Fixpoint height_of (t : tree) : Z :=
  match t with
  | Nil => 0
  | Node l _ _ _ _ _ r => 1 + Z.max (height_of l) (height_of r)
  end.

Definition key_of (t : tree) : option K :=
  match t with
  | Nil => None
  | Node _ k _ _ _ _ _ => Some k
  end.

(** Strictly increasing keys. *)
Definition increasing (ks : list K) : Prop := StronglySorted Z.lt ks.

(** Every stored height is 1 + the larger height of the two subtrees, and
    the two subtrees of every node differ in height by at most one. *)
Fixpoint balanced (t : tree) : Prop :=
  match t with
  | Nil => True
  | Node l _ _ h _ _ r =>
      balanced l /\ balanced r /\
      h = 1 + Z.max (height_of l) (height_of r) /\
      Z.abs (height_of r - height_of l) <= 1
  end.

(** Every stored counter is the size of the subtree on its side. *)
Fixpoint counters_stored (t : tree) : Prop :=
  match t with
  | Nil => True
  | Node l _ _ _ lc rc r =>
      counters_stored l /\ counters_stored r /\ lc = count l /\ rc = count r
  end.

(** Every counter, as the getters read it, is the size of the subtree on its
    side; the stored field agrees whenever that subtree is present. *)
Fixpoint counters_read (t : tree) : Prop :=
  match t with
  | Nil => True
  | Node l _ _ _ lc rc r =>
      counters_read l /\ counters_read r /\
      get_left_counter t = count l /\ get_right_counter t = count r /\
      (is_none l = false -> lc = count l) /\
      (is_none r = false -> rc = count r)
  end.

(** The invariant the proofs carry, stated on the stored heights: heights
    and balance at every node and, when [counted] is set, the counters of the
    children that are present. *)
Fixpoint avl_at (counted : bool) (t : tree) : Prop :=
  match t with
  | Nil => True
  | Node l _ _ h lc rc r =>
      avl_at counted l /\ avl_at counted r /\
      h = Z.max (get_height l) (get_height r) + 1 /\
      -1 <= get_height r - get_height l <= 1 /\
      (counted = true -> is_none l = false -> lc = count l) /\
      (counted = true -> is_none r = false -> rc = count r)
  end.

(** [update_height] followed by [update_counter], as every caller does. *)
Definition refresh (t : tree) : tree := update_counter (update_height t).

(** What holds of a whole tree object: the invariant at the root, keys in
    search-tree order, and [length] the number of nodes. *)
Definition state_inv (c : bool) (T : AVLTree) : Prop :=
  avl_at c (root T) /\ increasing (inorder (root T)) /\
  length T = count (root T).

(** States reached from the empty tree by operations that return. *)
Inductive reachable : AVLTree -> Prop :=
| reach_empty : reachable empty
| reach_insert T key item t n :
    reachable T -> insert T key item = Returned t n ->
    reachable (mkTree t n)
| reach_delete T key t n :
    reachable T -> delete T key = Returned t n ->
    reachable (mkTree t n).

(** States reached from the empty tree by any operations, failed ones
    included: a failed call leaves the state its exception left behind. *)
Inductive reachable_any : AVLTree -> Prop :=
| any_empty : reachable_any empty
| any_insert T key item :
    reachable_any T -> reachable_any (state_of (insert T key item))
| any_delete T key :
    reachable_any T -> reachable_any (state_of (delete T key)).

(** [x] is the [k]-th largest of [ks]: it occurs in [ks] and exactly
    [k - 1] elements of [ks] are larger. *)
Definition is_kth_largest (ks : list K) (k : Z) (x : K) : Prop :=
  In x ks /\ Z.of_nat (List.length (filter (fun y => x <? y) ks)) = k - 1.

(** Insertion sort into decreasing order: the full sort of the key set. *)
Fixpoint insert_desc (x : K) (ks : list K) : list K :=
  match ks with
  | [] => [x]
  | y :: ks' => if y <=? x then x :: ks else y :: insert_desc x ks'
  end.

Fixpoint sort_desc (ks : list K) : list K :=
  match ks with
  | [] => []
  | x :: ks' => insert_desc x (sort_desc ks')
  end.

(** [s] is [t] or a subtree below it. *)
Fixpoint subtree (s t : tree) : Prop :=
  s = t \/
  match t with
  | Nil => False
  | Node l _ _ _ _ _ r => subtree s l \/ subtree s r
  end.

(** Every stored height is 1 + the larger of the true heights below it. *)
Fixpoint heights_correct (t : tree) : Prop :=
  match t with
  | Nil => True
  | Node l _ _ h _ _ r =>
      heights_correct l /\ heights_correct r /\
      h = 1 + Z.max (height_of l) (height_of r)
  end.

(** The rank rule in the words of the specification, one step of the
    descent at a node: with [r = right_count(current) + 1], the right count
    being 0 for an absent right child, answer [current] when [k = r],
    continue in the right child with [k] when [k < r], in the left child
    with [k - r] when [k > r], and answer [current] when that child is
    absent. *)
Definition rank_rule (current : tree) (k : Z) : res tree :=
  match current with
  | Nil => Err AttributeError
  | Node l _ _ _ _ _ r =>
      let rank := get_right_counter current + 1 in
      if k =? rank then Ok current
      else if k <? rank then
        if is_none r then Ok current else kth_largest_helper r k
      else
        if is_none l then Ok current else kth_largest_helper l (k - rank)
  end.

(** One step of the descent: the node answered, or the child and the rank
    of the recursive call. *)
Inductive descent : Type :=
| Answer (node : tree)
| Descend (child : tree) (k : Z).

(** The body of [kth_largest_helper] with its recursive calls left open.
    The rank of the call on the left child is
    [k - root.right_counter - 1], from the stored field. *)
Definition helper_step (root : tree) (k : Z) : res descent :=
  match root with
  | Nil => if k =? get_right_counter root + 1 then Ok (Answer root)
           else Err AttributeError
  | Node l _ _ _ _ rc r =>
      if k =? get_right_counter root + 1 then Ok (Answer root)
      else if k <? get_right_counter root + 1 then
        match r with
        | Nil => Ok (Answer root)
        | Node _ _ _ _ _ _ _ => Ok (Descend r k)
        end
      else
        match l with
        | Nil => Ok (Answer root)
        | Node _ _ _ _ _ _ _ => Ok (Descend l (k - rc - 1))
        end
  end.

(** The same step in the words of the specification: the rank of the call
    on the left child is [k - r], with [r = right_count(current) + 1]. *)
Definition rank_rule_step (current : tree) (k : Z) : res descent :=
  match current with
  | Nil => Err AttributeError
  | Node l _ _ _ _ _ r =>
      let rank := get_right_counter current + 1 in
      if k =? rank then Ok (Answer current)
      else if k <? rank then
        if is_none r then Ok (Answer current) else Ok (Descend r k)
      else
        if is_none l then Ok (Answer current) else Ok (Descend l (k - rank))
  end.

(** Carrying a step out: the node answered, or the query in the child. *)
Definition resume (s : res descent) : res tree :=
  match s with
  | Ok (Answer node) => Ok node
  | Ok (Descend child k) => kth_largest_helper child k
  | Err e => Err e
  end.

End AVLTree.

Arguments Nil {I}.
Arguments empty {I}.

(** ** Example states *)

Module Examples.

(** Items are irrelevant to the structure; the examples store numbers. *)
Definition insert_all (T : AVLTree Z) (ks : list K) : AVLTree Z :=
  fold_left (fun T k => state_of (insert T k (10 * k))) ks T.

(** Keys 2, 1, 3 inserted in that order. *)
Definition T213 : AVLTree Z := insert_all empty [2; 1; 3].

(** ... then key 2 deleted: the root has two children, its successor 3 is
    moved up and the right subtree becomes empty. *)
Definition T13 : AVLTree Z := state_of (delete T213 2).

(** ... or the absent key 4 deleted from [T213]. *)
Definition T213_failed : AVLTree Z := state_of (delete T213 4).

(** Keys 1, 2, 3 inserted in that order: the third insert left-rotates the
    root. *)
Definition T123 : AVLTree Z := insert_all empty [1; 2; 3].

(** The scenario of the specification: 10, 5, 20, 1, 25. *)
Definition Tspec : AVLTree Z := insert_all empty [10; 5; 20; 1; 25].

(** A single node without children. *)
Definition leaf1 : tree Z := AVLTreeNode 1 10.

End Examples.

(** * The rank source: [random_gen.py] *)

Module RandomGen.

(** One [next] of [lcg(modulus, a, c, seed)]: the new seed, which is also
    the value yielded. *)
Definition lcg (modulus a c seed : Z) : Z := (a * seed + c) mod modulus.

(** The state of a [RandomGen] is the seed held by its generator
    [lcg(pow(2, 32), 134775813, 1, seed)]. *)
Definition next (seed : Z) : Z := lcg (2 ^ 32) 134775813 1 seed.

(** [[next(g) for _ in range(5)]]: the five numbers and the seed left. *)
Definition next5 (seed : Z) : list Z * Z :=
  let n1 := next seed in
  let n2 := next n1 in
  let n3 := next n2 in
  let n4 := next n3 in
  let n5 := next n4 in
  ([n1; n2; n3; n4; n5], n5).

Definition bit_char (b : bool) : ascii := if b then "1"%char else "0"%char.

(** ['{0:032b}'.format(num)] for [0 <= num < 2^32], the only numbers the
    generator yields: the 32 binary digits, most significant first. *)
Definition format_032b (num : Z) : list ascii :=
  map (fun i => bit_char (Z.testbit num (31 - Z.of_nat i))) (seq 0 32).

Definition is_one (c : ascii) : bool := Ascii.eqb c "1"%char.

(** [int(res, 2)] *)
Definition int2 (res : list ascii) : Z :=
  fold_left (fun acc c => 2 * acc + (if is_one c then 1 else 0)) res 0.

(** The majority digit at position [bit] over the five strings. *)
Definition majority (binary : list (list ascii)) (bit : nat) : ascii :=
  let count :=
    fold_left
      (fun count n => if is_one (nth bit n "0"%char) then count + 1 else count)
      binary 0 in
  if 3 <=? count then "1"%char else "0"%char.

(** [randint(k)] from the state [seed]: the result and the state left. *)
Definition randint (k : Z) (seed : Z) : res Z * Z :=
  if k =? 0 then (Err ValueError, seed)
  else
    let (random_num, seed') := next5 seed in
    let binary := map (fun num => firstn 16 (format_032b num)) random_num in
    let res := map (majority binary) (seq 0 16) in
    (Ok (int2 res mod k + 1), seed').

End RandomGen.

(** * The tree with its items *)

Section AVLTreeEntries.

Variable I : Type.

(** In-order traversal of the (key, item) pairs. *)
Fixpoint entries (t : tree I) : list (K * I) :=
  match t with
  | Nil => []
  | Node l k v _ _ _ r => entries l ++ (k, v) :: entries r
  end.

End AVLTreeEntries.

(** * Potions and the potion table: [potion.py], [hash_table.py] *)

(** A Python string, as the list of the code points that [ord] gives. *)
Definition str : Type := list Z.

Definition str_eqb (a b : str) : bool :=
  if list_eq_dec Z.eq_dec a b then true else false.

(** The exceptions met outside the tree. *)
Inductive error : Type :=
| Exn (e : exn)
| KeyError
| TypeError
| IndexError
| ZeroDivisionError
| RecursionError.

Inductive result (A : Type) : Type :=
| Done (a : A)
| Fail (e : error).
Arguments Done {A} a.
Arguments Fail {A} e.

(** [a % m] *)
Definition py_mod (a m : Z) : result Z :=
  if m =? 0 then Fail ZeroDivisionError else Done (a mod m).

(** [l[i]] on a list: a negative index counts from the end. *)
Definition py_index {A : Type} (l : list A) (i : Z) : result A :=
  let j := if i <? 0 then i + Z.of_nat (List.length l) else i in
  if j <? 0 then Fail IndexError
  else match nth_error l (Z.to_nat j) with
       | Some a => Done a
       | None => Fail IndexError
       end.

Fixpoint list_set {A : Type} (l : list A) (n : nat) (a : A) : list A :=
  match l, n with
  | [], _ => []
  | _ :: l', O => a :: l'
  | b :: l', S n' => b :: list_set l' n' a
  end.

(** [l[i] = a] *)
Definition py_store {A : Type} (l : list A) (i : Z) (a : A)
  : result (list A) :=
  let j := if i <? 0 then i + Z.of_nat (List.length l) else i in
  if orb (j <? 0) (Z.of_nat (List.length l) <=? j) then Fail IndexError
  else Done (list_set l (Z.to_nat j) a).

Module Potion.

Definition HASH_BASE : Z := 27183.

(** The loop of [good_hash] from the value reached so far. *)
Fixpoint good_hash_from (value : Z) (potion_name : str) (tablesize : Z)
  : result Z :=
  match potion_name with
  | [] => Done value
  | char :: rest =>
      match py_mod (value * HASH_BASE + char) tablesize with
      | Done value' => good_hash_from value' rest tablesize
      | Fail e => Fail e
      end
  end.

Definition good_hash (potion_name : str) (tablesize : Z) : result Z :=
  good_hash_from 0 potion_name tablesize.

(** [ord(potion_name[0]) % tablesize] *)
Definition bad_hash (potion_name : str) (tablesize : Z) : result Z :=
  match potion_name with
  | [] => Fail IndexError
  | char :: _ => py_mod char tablesize
  end.

Section WithNumbers.

(** The numbers of a potion, with the number 0 and the comparison [<=]. *)
Variable F : Type.
Variable zero : F.
Variable fle : F -> F -> bool.

(** A [Potion] object. *)
Record Potion : Type := mkPotion {
  potion_type : str;
  name : str;
  buy_price : F;
  quantity : F
}.

(** [__init__]: a price of 0 or less is refused. *)
Definition init (potion_type name : str) (buy_price quantity : F)
  : result Potion :=
  if fle buy_price zero then Fail (Exn ValueError)
  else Done (mkPotion potion_type name buy_price quantity).

(** [create_empty] *)
Definition create_empty (potion_type name : str) (buy_price : F)
  : result Potion :=
  init potion_type name buy_price zero.

End WithNumbers.

End Potion.

Module HashTable.

Section WithData.

Variable T : Type.

(** [LinearProbePotionTable]: the statistics, the count, the choice of hash,
    the table size and the table. *)
Record LinearProbePotionTable : Type := mkTable {
  conflict_count : Z;
  probe_max : Z;
  probe_total : Z;
  count : Z;
  hash_key : bool;
  table_size : Z;
  table : list (option (str * T))
}.

Definition set_conflict_count (s : LinearProbePotionTable) (v : Z) :=
  mkTable v (probe_max s) (probe_total s) (count s) (hash_key s)
          (table_size s) (table s).

Definition set_probe_max (s : LinearProbePotionTable) (v : Z) :=
  mkTable (conflict_count s) v (probe_total s) (count s) (hash_key s)
          (table_size s) (table s).

Definition set_probe_total (s : LinearProbePotionTable) (v : Z) :=
  mkTable (conflict_count s) (probe_max s) v (count s) (hash_key s)
          (table_size s) (table s).

Definition set_count (s : LinearProbePotionTable) (v : Z) :=
  mkTable (conflict_count s) (probe_max s) (probe_total s) v (hash_key s)
          (table_size s) (table s).

Definition set_table (s : LinearProbePotionTable)
           (v : list (option (str * T))) :=
  mkTable (conflict_count s) (probe_max s) (probe_total s) (count s)
          (hash_key s) (table_size s) v.

(** [len(self.table)] *)
Definition len_table (s : LinearProbePotionTable) : Z :=
  Z.of_nat (List.length (table s)).

(** [__init__]: [range] of a negative size is empty. *)
Definition init (max_potions : Z) (good_hash : bool) (tablesize_override : Z)
  : LinearProbePotionTable :=
  let table_size :=
    if negb (tablesize_override =? -1) then tablesize_override
    else max_potions in
  mkTable 0 0 0 0 good_hash table_size (repeat None (Z.to_nat table_size)).

Definition hash (s : LinearProbePotionTable) (potion_name : str)
  : result Z :=
  if hash_key s then Potion.good_hash potion_name (table_size s)
  else Potion.bad_hash potion_name (table_size s).

Definition is_full (s : LinearProbePotionTable) : bool :=
  count s =? len_table s.

Definition is_empty (s : LinearProbePotionTable) : bool :=
  count s =? 0.

(** The [for] loop of [__linear_probe] with [fuel] rounds left; [Done None]
    is the [None] returned when the loop runs out.  Inside the loop
    [len(self.table)] is positive. *)
Fixpoint probe_loop (fuel : nat) (s : LinearProbePotionTable) (key : str)
         (is_insert : bool) (position : Z) (conflict : bool)
         (probe_counter : Z)
  : LinearProbePotionTable * result (option Z) :=
  match fuel with
  | O => (s, Done None)
  | S fuel' =>
      let s := if andb conflict (probe_counter =? 1)
               then set_conflict_count s (conflict_count s + 1) else s in
      let s := if probe_max s <? probe_counter
               then set_probe_max s probe_counter else s in
      match py_index (table s) position with
      | Fail e => (s, Fail e)
      | Done None =>
          if is_insert then (s, Done (Some position))
          else (s, Fail KeyError)
      | Done (Some (k, _)) =>
          if str_eqb k key then (s, Done (Some position))
          else
            let position := (position + 1) mod len_table s in
            let s := set_probe_total s (probe_total s + 1) in
            probe_loop fuel' s key is_insert position true (probe_counter + 1)
      end
  end.

(** [__linear_probe] *)
Definition linear_probe (s : LinearProbePotionTable) (key : str)
           (is_insert : bool)
  : LinearProbePotionTable * result (option Z) :=
  match hash s key with
  | Fail e => (s, Fail e)
  | Done position =>
      if andb is_insert (is_full s) then (s, Fail KeyError)
      else probe_loop (List.length (table s)) s key is_insert position false 0
  end.

(** [__getitem__]: indexing the table with [None], or a slot that is
    [None], is a [TypeError]. *)
Definition getitem (s : LinearProbePotionTable) (key : str)
  : LinearProbePotionTable * result T :=
  match linear_probe s key false with
  | (s, Fail e) => (s, Fail e)
  | (s, Done None) => (s, Fail TypeError)
  | (s, Done (Some position)) =>
      match py_index (table s) position with
      | Fail e => (s, Fail e)
      | Done None => (s, Fail TypeError)
      | Done (Some (_, data)) => (s, Done data)
      end
  end.

(** [__contains__]: only [KeyError] is caught. *)
Definition contains (s : LinearProbePotionTable) (key : str)
  : LinearProbePotionTable * result bool :=
  match getitem s key with
  | (s, Done _) => (s, Done true)
  | (s, Fail KeyError) => (s, Done false)
  | (s, Fail e) => (s, Fail e)
  end.

(** [__setitem__] *)
Definition setitem (s : LinearProbePotionTable) (key : str) (data : T)
  : LinearProbePotionTable * result unit :=
  let guard :=
    if count s =? len_table s then
      match contains s key with
      | (s, Done b) => (s, Done (negb b))
      | (s, Fail e) => (s, Fail e)
      end
    else (s, Done false) in
  match guard with
  | (s, Fail e) => (s, Fail e)
  | (s, Done true) => (s, Fail (Exn ValueError))
  | (s, Done false) =>
      match linear_probe s key true with
      | (s, Fail e) => (s, Fail e)
      | (s, Done None) => (s, Fail TypeError)
      | (s, Done (Some position)) =>
          match py_index (table s) position with
          | Fail e => (s, Fail e)
          | Done slot =>
              let s := match slot with
                       | None => set_count s (count s + 1)
                       | Some _ => s
                       end in
              match py_store (table s) position (Some (key, data)) with
              | Fail e => (s, Fail e)
              | Done table' => (set_table s table', Done tt)
              end
          end
      end
  end.

(** [insert] *)
Definition insert (s : LinearProbePotionTable) (key : str) (data : T) :=
  setitem s key data.

(** A run of assignments [table[key] = data], one for each pair in turn,
    that the first exception stops. *)
Fixpoint store_all (s : LinearProbePotionTable) (pairs : list (str * T))
  : LinearProbePotionTable * result unit :=
  match pairs with
  | [] => (s, Done tt)
  | (potion_name, potion) :: rest =>
      match setitem s potion_name potion with
      | (s, Done _) => store_all s rest
      | (s, Fail e) => (s, Fail e)
      end
  end.

(** ** What the proofs say about a table *)

(** The slot at an index within the table. *)
Definition slot (tbl : list (option (str * T))) (p : Z)
  : option (str * T) :=
  nth (Z.to_nat p) tbl None.

(** The number of occupied slots. *)
Fixpoint occupied (tbl : list (option (str * T))) : Z :=
  match tbl with
  | [] => 0
  | None :: tbl' => occupied tbl'
  | Some _ :: tbl' => occupied tbl' + 1
  end.

(** [key] is stored with [data]. *)
Definition stored (tbl : list (option (str * T))) (key : str) (data : T)
  : Prop :=
  In (Some (key, data)) tbl.

(** The slots probed from [pos], [j] of them, all hold other keys. *)
Definition passed (tbl : list (option (str * T))) (key : str) (pos j : Z)
  : Prop :=
  forall i, 0 <= i < j ->
    exists k d,
      slot tbl ((pos + i) mod Z.of_nat (List.length tbl)) = Some (k, d) /\
      k <> key.

(** [key] sits at [p], where the probe from its hash finds it first. *)
Definition placed (s : LinearProbePotionTable) (key : str) (p : Z) : Prop :=
  exists h j d,
    hash s key = Done h /\ 0 <= j < len_table s /\
    p = (h + j) mod len_table s /\
    passed (table s) key h j /\ slot (table s) p = Some (key, d).

(** A table as the constructor and [__setitem__] leave it: the size is the
    length of the table and positive, [count] is the number of occupied
    slots, and every key stored sits where the probe finds it. *)
Definition well_formed (s : LinearProbePotionTable) : Prop :=
  table_size s = len_table s /\ 0 < table_size s /\
  count s = occupied (table s) /\
  forall p k d, 0 <= p < len_table s ->
    slot (table s) p = Some (k, d) -> placed s k p.

(** The state the probe loop works on after the two statistics of a
    round. *)
Definition round_stats (s : LinearProbePotionTable) (conflict : bool)
           (probe_counter : Z) : LinearProbePotionTable :=
  let s := if andb conflict (probe_counter =? 1)
           then set_conflict_count s (conflict_count s + 1) else s in
  if probe_max s <? probe_counter then set_probe_max s probe_counter else s.

(** The two states differ in the statistics only. *)
Definition same_contents (s s' : LinearProbePotionTable) : Prop :=
  count s' = count s /\ hash_key s' = hash_key s /\
  table_size s' = table_size s /\ table s' = table s.

(** The tables a program can hold: made by the constructor, with any
    arguments, and passed through any calls of [__getitem__],
    [__contains__] and [__setitem__], whether they return or raise. *)
Inductive built : LinearProbePotionTable -> Prop :=
| built_init (max_potions : Z) (good_hash : bool) (tablesize_override : Z) :
    built (init max_potions good_hash tablesize_override)
| built_getitem (s : LinearProbePotionTable) (key : str) :
    built s -> built (fst (getitem s key))
| built_contains (s : LinearProbePotionTable) (key : str) :
    built s -> built (fst (contains s key))
| built_setitem (s : LinearProbePotionTable) (key : str) (data : T) :
    built s -> built (fst (setitem s key data)).

End WithData.

End HashTable.

(** ** Example tables *)

Module TableExamples.

(** The code points of an ASCII string. *)
Definition str_of (s : string) : str :=
  map (fun c => Z.of_nat (nat_of_ascii c)) (list_ascii_of_string s).

(** The six potions of the docstring of [Game.set_total_potion_data], each
    with its price as the data. *)
Definition six : list (str * Z) :=
  [ (str_of "Potion of Health Regeneration", 20);
    (str_of "Potion of Extreme Speed", 10);
    (str_of "Potion of Deadly Poison", 45);
    (str_of "Potion of Instant Health", 5);
    (str_of "Potion of Increased Stamina", 25);
    (str_of "Potion of Untenable Odour", 1) ].

Definition T0 : HashTable.LinearProbePotionTable Z :=
  HashTable.init Z 6 true (-1).

Definition T6 : HashTable.LinearProbePotionTable Z :=
  fst (HashTable.store_all T0 six).

(** The same six potions as [set_total_potion_data] takes them: the name,
    the type and the price. *)
Definition potion_data : list (str * str * Z) :=
  [ (str_of "Potion of Health Regeneration", str_of "Health", 20);
    (str_of "Potion of Extreme Speed", str_of "Buff", 10);
    (str_of "Potion of Deadly Poison", str_of "Damage", 45);
    (str_of "Potion of Instant Health", str_of "Health", 5);
    (str_of "Potion of Increased Stamina", str_of "Buff", 25);
    (str_of "Potion of Untenable Odour", str_of "Damage", 1) ].

End TableExamples.

(** * The potion data: [game.py] *)

Module GameData.

Section WithNumbers.

Variable F : Type.
Variable zero : F.
Variable fle : F -> F -> bool.

#[local] Abbreviation Potion := (Potion.Potion F).
#[local] Abbreviation table := (HashTable.LinearProbePotionTable Potion).

(** The loop [for potion in potion_data] on [self.potion_data_table]; an
    entry of [potion_data] is the list of the name, the type and the price.
    The potion is made first, then stored under its name. *)
Fixpoint fill (s : table) (potion_data : list (str * str * F))
  : table * result unit :=
  match potion_data with
  | [] => (s, Done tt)
  | (potion_name, potion_type, buy_price) :: rest =>
      match Potion.create_empty zero fle potion_type potion_name buy_price
      with
      | Fail e => (s, Fail e)
      | Done potion =>
          match HashTable.setitem s potion_name potion with
          | (s, Done _) => fill s rest
          | (s, Fail e) => (s, Fail e)
          end
      end
  end.

(** [set_total_potion_data]: the table it leaves in
    [self.potion_data_table]. *)
Definition set_total_potion_data (potion_data : list (str * str * F))
  : table * result unit :=
  fill (HashTable.init Potion (Z.of_nat (List.length potion_data)) true (-1))
       potion_data.

(** The name of an entry and the potion made for it. *)
Definition potion_of (entry : str * str * F) : str * Potion :=
  let '(potion_name, potion_type, buy_price) := entry in
  (potion_name, Potion.mkPotion potion_type potion_name buy_price zero).

End WithNumbers.

End GameData.

(** * The vendors' choice: [game.py] *)

Module Game.

Section WithPotion.

(** The potion objects held by the inventory tree, and their price, under
    which [add_potions_to_inventory] files them. *)
Variable Potion : Type.
Variable buy_price : Potion -> K.

(** The part of a [Game] that [choose_potions_for_vendors] works on: the
    seed of [self.rand] and [self.inventory_tree]. *)
Record Game : Type := mkGame { rand : Z; inventory_tree : AVLTree Potion }.

(** One round of the loop of [choose_potions_for_vendors]: a rank from
    [randint(len(tree))], the potion of the node [kth_largest] returns
    ([.item] of [None] is an [AttributeError]), and the deletion of its
    price from the tree.  The potion stands for the pair of its name and
    quantity that the code appends. *)
Definition choose_round (g : Game) : res Potion * Game :=
  match RandomGen.randint (length (inventory_tree g)) (rand g) with
  | (Err e, seed) => (Err e, mkGame seed (inventory_tree g))
  | (Ok random_num, seed) =>
      match kth_largest (inventory_tree g) random_num with
      | Err e => (Err e, mkGame seed (inventory_tree g))
      | Ok Nil => (Err AttributeError, mkGame seed (inventory_tree g))
      | Ok (Node _ _ current_potion _ _ _ _) =>
          let o := delete (inventory_tree g) (buy_price current_potion) in
          match error_of o with
          | Some e => (Err e, mkGame seed (state_of o))
          | None => (Ok current_potion, mkGame seed (state_of o))
          end
      end
  end.

(** [for _ in range(num_vendors)] *)
Fixpoint choose_rounds (rounds : nat) (g : Game)
         (potions_for_vendors : list Potion) : res (list Potion) * Game :=
  match rounds with
  | O => (Ok potions_for_vendors, g)
  | S rounds' =>
      match choose_round g with
      | (Ok potion, g') =>
          choose_rounds rounds' g' (potions_for_vendors ++ [potion])
      | (Err e, g') => (Err e, g')
      end
  end.

(** [choose_potions_for_vendors] up to the end of its loop; the refilling
    of the tree that follows the loop is not part of this. *)
Definition choose_potions_for_vendors (num_vendors : Z) (g : Game)
  : res (list Potion) * Game :=
  if num_vendors <? 0 then (Err ValueError, g)
  else choose_rounds (Z.to_nat num_vendors) g [].

(** Every potion of the tree sits under its price. *)
Definition priced (T : AVLTree Potion) : Prop :=
  forall k potion, In (k, potion) (entries (root T)) -> buy_price potion = k.

End WithPotion.

End Game.

(** * The sieve: [primes.py] *)

Module Primes.

Section WithSqrt.

(** [p <= sqrt(k)], the comparison of an integer with the float that
    [math.sqrt] returns; it is a parameter here, and the properties below
    assume that it agrees with [p * p <= k], as it does on the documented
    range of [k]. *)
Variable le_sqrt : Z -> Z -> bool.

(** [range(start, stop, step)] for a positive step. *)
Definition range_list (start stop step : Z) : list Z :=
  map (fun n => start + Z.of_nat n * step)
      (seq 0 (Z.to_nat ((stop - start + step - 1) / step))).

(** [lst[i]] for an index within the list. *)
Definition flag (lst : list bool) (i : Z) : bool :=
  nth (Z.to_nat i) lst false.

(** [for i in range(p * p, k + 1, p): lst[i] = False]; the indices stay
    below [len(lst) = k + 1]. *)
Definition cross_out (lst : list bool) (p k : Z) : list bool :=
  fold_left (fun lst i => list_set lst (Z.to_nat i) false)
            (range_list (p * p) (k + 1) p) lst.

(** The [while] loop from [p], with [fuel] rounds at most; [None] when the
    fuel runs out. *)
Fixpoint sieve (fuel : nat) (k p : Z) (lst : list bool)
  : option (list bool) :=
  match fuel with
  | O => None
  | S fuel' =>
      if le_sqrt p k then
        let lst := if flag lst p then cross_out lst p k else lst in
        sieve fuel' k (p + 1) lst
      else Some lst
  end.

(** [for i in range(2, len(lst) - 1): if lst[i]: index = i] *)
Definition scan (lst : list bool) : Z :=
  fold_left (fun index i => if flag lst i then i else index)
            (range_list 2 (Z.of_nat (List.length lst) - 1) 1) 0.

Definition largest_prime (fuel : nat) (k : Z) : option (result Z) :=
  if k <=? 2 then Some (Fail (Exn ValueError))
  else
    match sieve fuel k 2 (repeat true (Z.to_nat (k + 1))) with
    | None => None
    | Some lst => Some (Done (scan lst))
    end.

(** What the sieve has established when it reaches [p]: the flag of [i] is
    still set exactly when no [d] below [p] with [d * d <= i] divides
    [i]. *)
Definition sifted (k p : Z) (lst : list bool) : Prop :=
  Z.of_nat (List.length lst) = k + 1 /\
  forall i, 2 <= i <= k ->
    (flag lst i = true <->
     ~ exists d, 2 <= d < p /\ (d | i) /\ d * d <= i).

End WithSqrt.

End Primes.

(** * The merge sort of [game.py] *)

Module MergeSort.

(** [range(start, stop)] *)
Definition py_range (start stop : Z) : list Z :=
  map (fun n => start + Z.of_nat n) (seq 0 (Z.to_nat (stop - start))).

(** [for i in indices: s = body(s, i)], stopping at the first exception. *)
Fixpoint for_loop {S : Type} (body : S -> Z -> result S) (indices : list Z)
    (s : S) : result S :=
  match indices with
  | [] => Done s
  | i :: rest =>
      match body s i with
      | Done s' => for_loop body rest s'
      | Fail e => Fail e
      end
  end.

Section WithFloats.

(** The floats of the tuples and their comparison [<=]. *)
Variable F : Type.
Variable fle : F -> F -> bool.

(** The tuples [(profit_price_ratio, potion_name, selling_price)] that
    [solve_game] sorts. *)
Definition item : Type := (F * str * F)%type.

(** [x[0]] *)
Definition key (x : item) : F := fst (fst x).

(** An entry of [array] or [tmp]: a tuple, or [None] as [tmp] starts. *)
Definition cell : Type := option item.

(** [array[ia][0] <= array[ib][0]]: each index is read, then subscripted,
    from left to right. *)
Definition compare_at (array : list cell) (ia ib : Z) : result bool :=
  match py_index array ia with
  | Fail e => Fail e
  | Done None => Fail TypeError
  | Done (Some x) =>
      match py_index array ib with
      | Fail e => Fail e
      | Done None => Fail TypeError
      | Done (Some y) => Done (fle (key x) (key y))
      end
  end.

(** [tmp[k] = array[i]] *)
Definition copy_cell (array tmp : list cell) (k i : Z)
  : result (list cell) :=
  match py_index array i with
  | Fail e => Fail e
  | Done v => py_store tmp k v
  end.

(** One round of the loop of [__merge_array] on [(ia, ib, tmp)]. *)
Definition merge_step (array : list cell) (mid end_ : Z)
    (s : Z * Z * list cell) (k : Z) : result (Z * Z * list cell) :=
  let '(ia, ib, tmp) := s in
  let take_a :=
    match copy_cell array tmp k ia with
    | Done tmp' => Done (ia + 1, ib, tmp')
    | Fail e => Fail e
    end in
  let take_b :=
    match copy_cell array tmp k ib with
    | Done tmp' => Done (ia, ib + 1, tmp')
    | Fail e => Fail e
    end in
  if mid <? ia then take_b
  else if end_ <? ib then take_a
  else
    match compare_at array ia ib with
    | Fail e => Fail e
    | Done true => take_a
    | Done false => take_b
    end.

(** [__merge_array]: the new [tmp]. *)
Definition merge_array (array : list cell) (start mid end_ : Z)
    (tmp : list cell) : result (list cell) :=
  match for_loop (merge_step array mid end_) (py_range start (end_ + 1))
          (start, mid + 1, tmp) with
  | Done (_, _, tmp') => Done tmp'
  | Fail e => Fail e
  end.

(** [for i in range(start, end+1): array[i] = tmp[i]] *)
Definition copy_back (tmp : list cell) (start end_ : Z)
    (array : list cell) : result (list cell) :=
  for_loop (fun array i => copy_cell tmp array i i)
           (py_range start (end_ + 1)) array.

(** [__merge_sort_aux]: the new [array] and [tmp].  The recursion is cut
    after [fuel] nested calls; [None] when that depth is reached. *)
Fixpoint merge_sort_aux (fuel : nat) (array : list cell) (start end_ : Z)
    (tmp : list cell) : option (result (list cell * list cell)) :=
  match fuel with
  | O => None
  | S fuel' =>
      if start =? end_ then Some (Done (array, tmp))
      else
        let mid := (start + end_) / 2 in
        match merge_sort_aux fuel' array start mid tmp with
        | Some (Done (array1, tmp1)) =>
            match merge_sort_aux fuel' array1 (mid + 1) end_ tmp1 with
            | Some (Done (array2, tmp2)) =>
                match merge_array array2 start mid end_ tmp2 with
                | Done tmp3 =>
                    match copy_back tmp3 start end_ array2 with
                    | Done array3 => Some (Done (array3, tmp3))
                    | Fail e => Some (Fail e)
                    end
                | Fail e => Some (Fail e)
                end
            | other => other
            end
        | other => other
        end
  end.

(** [merge_sort]: the array it returns. *)
Definition merge_sort (fuel : nat) (array : list cell)
  : option (result (list cell)) :=
  let tmp := repeat None (List.length array) in
  let start := 0 in
  let end_ := Z.of_nat (List.length array) - 1 in
  match merge_sort_aux fuel array start end_ tmp with
  | Some (Done (array', _)) => Some (Done array')
  | Some (Fail e) => Some (Fail e)
  | None => None
  end.

(** The order of the first components. *)
Definition key_le (x y : item) : Prop := fle (key x) (key y) = true.

(** The merge of two runs as [__merge_array] performs it: from the second
    run when the first is used up, from the first when the second is, and
    otherwise from the first unless its head is strictly greater. *)
Fixpoint merge (xs : list item) : list item -> list item :=
  fix merge_right (ys : list item) : list item :=
    match xs, ys with
    | [], _ => ys
    | _, [] => xs
    | x :: xs', y :: ys' =>
        if fle (key x) (key y) then x :: merge xs' ys
        else y :: merge_right ys'
    end.

(** Reading [array] from index [i] gives the entries [cs]. *)
Definition reads (array : list cell) (i : Z) (cs : list cell) : Prop :=
  forall n c, nth_error cs n = Some c ->
    py_index array (i + Z.of_nat n) = Done c.

End WithFloats.

End MergeSort.

(** * [Game.solve_game] *)

Module GameSolve.

Section WithNumbers.

(** The numbers of [solve_game], their operations and comparisons; [zero]
    is the number 0, and a division by zero is a [ZeroDivisionError]. *)
Variable F : Type.
Variable zero : F.
Variables fadd fsub fmul : F -> F -> F.
Variable fneg : F -> F.
Variable fdiv : F -> F -> result F.
Variables fle flt feq : F -> F -> bool.

(** The potion objects of [potion_data_table] with the two attributes that
    [solve_game] reads. *)
Variable Potion : Type.
Variables buy_price quantity : Potion -> F.

#[local] Abbreviation table := (HashTable.LinearProbePotionTable Potion).
#[local] Abbreviation item := (MergeSort.item F).
#[local] Abbreviation cell := (MergeSort.cell F).

(** The first loop, [for values in potion_valuations], on [profits]. *)
Fixpoint gather (s : table) (potion_valuations : list (str * F))
    (profits : list item) : table * result (list item) :=
  match potion_valuations with
  | [] => (s, Done profits)
  | values :: rest =>
      match HashTable.getitem s (fst values) with
      | (s, Fail e) => (s, Fail e)
      | (s, Done current_potion) =>
          let profit := fsub (snd values) (buy_price current_potion) in
          if andb (flt zero profit) (flt zero (quantity current_potion))
          then
            match fdiv profit (buy_price current_potion) with
            | Fail e => (s, Fail e)
            | Done profit_price_ratio =>
                gather s rest
                  (profits ++
                   [(fneg profit_price_ratio, fst values, snd values)])
            end
          else gather s rest profits
      end
  end.

(** The inner loop, [for profit, potion_name, selling in profits], and the
    test [if money != 0] after it: what the day appends to
    [total_profits_per_day].  Unpacking [None] is a [TypeError]. *)
Fixpoint buy (s : table) (profits : list cell) (money earn : F)
  : table * result (list F) :=
  match profits with
  | [] => (s, Done (if feq money zero then [] else [fadd earn money]))
  | None :: _ => (s, Fail TypeError)
  | Some (_, potion_name, selling) :: rest =>
      match HashTable.getitem s potion_name with
      | (s, Fail e) => (s, Fail e)
      | (s, Done current_potion) =>
          match fdiv money (buy_price current_potion) with
          | Fail e => (s, Fail e)
          | Done liters =>
              let '(earn, money) :=
                if fle (quantity current_potion) liters then
                  (fadd earn (fmul (quantity current_potion) selling),
                   fsub money (fmul (buy_price current_potion)
                                    (quantity current_potion)))
                else
                  (fadd earn (fmul liters selling),
                   fsub money (fmul (buy_price current_potion) liters)) in
              if feq money zero then (s, Done [earn])
              else buy s rest money earn
          end
      end
  end.

(** The outer loop, [for money in starting_money]. *)
Fixpoint days (s : table) (profits : list cell) (starting_money : list F)
    (total_profits_per_day : list F) : table * result (list F) :=
  match starting_money with
  | [] => (s, Done total_profits_per_day)
  | money :: rest =>
      match buy s profits money zero with
      | (s, Fail e) => (s, Fail e)
      | (s, Done appended) =>
          days s profits rest (total_profits_per_day ++ appended)
      end
  end.

(** [solve_game] on the potion table; [fuel] bounds the recursion depth of
    the merge sort, and [None] says that it was reached. *)
Definition solve_game (fuel : nat) (s : table)
    (potion_valuations : list (str * F)) (starting_money : list F)
  : table * option (result (list F)) :=
  if (List.length potion_valuations =? 0)%nat
  then (s, Some (Done starting_money))
  else
    match gather s potion_valuations [] with
    | (s, Fail e) => (s, Some (Fail e))
    | (s, Done profits) =>
        match MergeSort.merge_sort fle fuel (map Some profits) with
        | None => (s, None)
        | Some (Fail e) => (s, Some (Fail e))
        | Some (Done profits) =>
            match days s profits starting_money [] with
            | (s, Fail e) => (s, Some (Fail e))
            | (s, Done total) => (s, Some (Done total))
            end
        end
    end.

(** No tuple of [potion_valuations] is worth buying: its potion is in the
    table, and the test [profit > 0 and current_potion.quantity > 0]
    fails. *)
Definition nothing_to_buy (s : table) (potion_valuations : list (str * F))
  : Prop :=
  forall name value, In (name, value) potion_valuations ->
    exists potion,
      HashTable.stored (HashTable.table s) name potion /\
      andb (flt zero (fsub value (buy_price potion)))
           (flt zero (quantity potion)) = false.

End WithNumbers.

End GameSolve.

(** * Properties of the tree *)

Unset Implicit Arguments.

Section AVLTreeFacts.

Variable I : Type.
#[local] Abbreviation tree := (tree I).

Section Invariant.

(** The lemmas of this section hold with and without the counters. *)
Variable counted : bool.
#[local] Abbreviation avl := (avl_at counted).

(** ** The getters and the refresh step *)

Lemma refresh_node (l : tree) k v h lc rc r :
  exists h' lc' rc', refresh (Node l k v h lc rc r) = Node l k v h' lc' rc' r.
Proof. unfold refresh; simpl; eauto. Qed.

Lemma avl_height (t : tree) :
  avl t -> 0 <= get_height t /\ (get_height t = 0 -> t = Nil).
Proof.
  induction t as [|l IHl k v h lc rc r IHr]; simpl.
  - auto with zarith.
  - intros (Hl & Hr & Hh & _). specialize (IHl Hl). specialize (IHr Hr). lia.
Qed.

Lemma avl_forget (t : tree) : avl t -> avl_at false t.
Proof.
  induction t as [|l IHl k v h lc rc r IHr]; simpl; auto.
  intros (Hl & Hr & Hh & Hb & _). repeat split; auto; try lia;
    discriminate.
Qed.

Lemma avl_height_nil (t : tree) :
  avl t -> get_height t <= 0 -> t = Nil.
Proof. intros H Hle. destruct (avl_height t H). apply H1. lia. Qed.

Lemma count_nonneg (t : tree) : 0 <= count t.
Proof. induction t; simpl; lia. Qed.

Lemma avl_total (t : tree) :
  avl t -> counted = true -> is_none t = false ->
  get_total_counter t + 1 = count t.
Proof.
  destruct t as [|l k v h lc rc r]; simpl; [discriminate|].
  intros (_ & _ & _ & _ & Hlc & Hrc) Hc _.
  destruct l, r; simpl in *; try rewrite (Hlc Hc) by reflexivity;
    try rewrite (Hrc Hc) by reflexivity; lia.
Qed.

Lemma refresh_height (l : tree) k v h lc rc r :
  get_height (refresh (Node l k v h lc rc r))
  = Z.max (get_height l) (get_height r) + 1.
Proof. reflexivity. Qed.

Lemma refresh_inorder (t : tree) : inorder (refresh t) = inorder t.
Proof. destruct t; reflexivity. Qed.

Lemma refresh_avl (l : tree) k v h lc rc r :
  avl l -> avl r -> -1 <= get_height r - get_height l <= 1 ->
  avl (refresh (Node l k v h lc rc r)).
Proof.
  intros Hl Hr Hb. unfold refresh. simpl. repeat split; auto; try lia.
  - intros Hc Hn. rewrite Hn. apply avl_total; assumption.
  - intros Hc Hn. rewrite Hn. apply avl_total; assumption.
Qed.

Lemma left_rotate_eq (l : tree) k v h lc rc cl ck cv ch clc crc cr :
  left_rotate (Node l k v h lc rc (Node cl ck cv ch clc crc cr))
  = Ok (refresh (Node (refresh (Node l k v h lc rc cl)) ck cv ch clc crc cr)).
Proof. reflexivity. Qed.

Lemma right_rotate_eq (r : tree) k v h lc rc cl ck cv ch clc crc cr :
  right_rotate (Node (Node cl ck cv ch clc crc cr) k v h lc rc r)
  = Ok (refresh (Node cl ck cv ch clc crc (refresh (Node cr k v h lc rc r)))).
Proof. reflexivity. Qed.

(** ** Rebalancing re-establishes the invariant *)

Ltac know_heights :=
  repeat match goal with
  | H : avl ?x |- _ =>
      is_var x;
      lazymatch goal with
      | _ : 0 <= get_height x /\ _ |- _ => fail
      | _ => pose proof (avl_height x H)
      end
  end.

Ltac split_avl :=
  repeat match goal with
  | H : avl (Node _ _ _ _ _ _ _) |- _ =>
      simpl in H; destruct H as (? & ? & ? & ? & ? & ?)
  end.

Ltac same_inorder :=
  repeat (rewrite ?refresh_inorder; simpl);
  repeat (rewrite <- ?app_assoc; simpl);
  reflexivity.

Lemma rebalance_avl (l : tree) k v h lc rc r :
  avl l -> avl r -> -2 <= get_height r - get_height l <= 2 ->
  exists t',
    rebalance (refresh (Node l k v h lc rc r)) = Ok t' /\
    avl t' /\
    inorder t' = inorder l ++ k :: inorder r /\
    is_none t' = false /\
    Z.max (get_height l) (get_height r) <= get_height t'
      <= Z.max (get_height l) (get_height r) + 1 /\
    (-1 <= get_height r - get_height l <= 1 ->
     get_height t' = Z.max (get_height l) (get_height r) + 1).
Proof.
  intros Hl Hr Hb.
  assert (Hbal : get_balance (refresh (Node l k v h lc rc r))
                 = get_height r - get_height l) by reflexivity.
  unfold rebalance. rewrite Hbal.
  destruct (Z.leb_spec 2 (get_height r - get_height l)) as [Hhi|Hhi].
  - (* right-heavy *)
    destruct r as [|cl ck cv ch clc crc cr].
    { know_heights. simpl in *. lia. }
    destruct (refresh_node l k v h lc rc (Node cl ck cv ch clc crc cr))
      as (h1 & lc1 & rc1 & E1).
    rewrite E1. cbn [bind attr_right attr_left].
    split_avl. know_heights.
    destruct (Z.ltb_spec (get_height cr) (get_height cl)) as [Hd|Hd].
    + destruct cl as [|cll clk clv clh cllc clrc clr].
      { simpl in *. lia. }
      rewrite right_rotate_eq. cbn [bind set_right].
      destruct (refresh_node cll clk clv clh cllc clrc
                  (refresh (Node clr ck cv ch clc crc cr)))
        as (h2 & lc2 & rc2 & E2).
      rewrite E2, left_rotate_eq.
      split_avl. know_heights. simpl get_height in *.
      eexists; split; [reflexivity|].
      split; [|split; [|split; [|split]]].
      * apply refresh_avl; [apply refresh_avl| apply refresh_avl|];
          auto; rewrite ?refresh_height; lia.
      * same_inorder.
      * reflexivity.
      * rewrite !refresh_height. lia.
      * intros. lia.
    + rewrite left_rotate_eq. simpl get_height in *.
      eexists; split; [reflexivity|].
      split; [|split; [|split; [|split]]].
      * apply refresh_avl; [apply refresh_avl| |];
          auto; rewrite ?refresh_height; lia.
      * same_inorder.
      * reflexivity.
      * rewrite !refresh_height. lia.
      * intros. lia.
  - destruct (Z.leb_spec (get_height r - get_height l) (-2)) as [Hlo|Hlo].
    + (* left-heavy *)
      destruct l as [|cl ck cv ch clc crc cr].
      { know_heights. simpl in *. lia. }
      destruct (refresh_node (Node cl ck cv ch clc crc cr) k v h lc rc r)
        as (h1 & lc1 & rc1 & E1).
      rewrite E1. cbn [bind attr_right attr_left].
      split_avl. know_heights.
      destruct (Z.ltb_spec (get_height cl) (get_height cr)) as [Hd|Hd].
      * destruct cr as [|crl crk crv crh crlc crrc crr].
        { simpl in *. lia. }
        rewrite left_rotate_eq. cbn [bind set_left].
        destruct (refresh_node (refresh (Node cl ck cv ch clc crc crl))
                    crk crv crh crlc crrc crr)
          as (h2 & lc2 & rc2 & E2).
        rewrite E2, right_rotate_eq.
        split_avl. know_heights. simpl get_height in *.
        eexists; split; [reflexivity|].
        split; [|split; [|split; [|split]]].
        -- apply refresh_avl; [apply refresh_avl| apply refresh_avl|];
             auto; rewrite ?refresh_height; lia.
        -- same_inorder.
        -- reflexivity.
        -- rewrite !refresh_height. lia.
        -- intros. lia.
      * rewrite right_rotate_eq. simpl get_height in *.
        eexists; split; [reflexivity|].
        split; [|split; [|split; [|split]]].
        -- apply refresh_avl; [|apply refresh_avl |];
             auto; rewrite ?refresh_height; lia.
        -- same_inorder.
        -- reflexivity.
        -- rewrite !refresh_height. lia.
        -- intros. lia.
    + eexists; split; [reflexivity|].
      split; [|split; [|split; [|split]]].
      * apply refresh_avl; auto; lia.
      * apply refresh_inorder.
      * reflexivity.
      * rewrite refresh_height. lia.
      * intros. apply refresh_height.
Qed.

(** ** Strictly increasing lists *)

Lemma increasing_app (l1 l2 : list K) :
  increasing (l1 ++ l2) <->
  increasing l1 /\ increasing l2 /\
  (forall x y, In x l1 -> In y l2 -> x < y).
Proof.
  unfold increasing. induction l1 as [|a l1 IH]; simpl.
  - split.
    + intros H. repeat split; auto. constructor. intros x y [].
    + intros (_ & H & _). exact H.
  - split.
    + intros H. inversion H as [|? ? Hs Hf]; subst.
      apply IH in Hs. destruct Hs as (H1 & H2 & H3).
      rewrite Forall_forall in Hf.
      repeat split; auto.
      * constructor; auto. rewrite Forall_forall. intros x Hx.
        apply Hf. apply in_or_app. auto.
      * intros x y [->|Hx] Hy; auto. apply Hf. apply in_or_app. auto.
    + intros (H1 & H2 & H3). inversion H1 as [|? ? Hs Hf]; subst.
      rewrite Forall_forall in Hf.
      constructor.
      * apply IH. repeat split; auto.
      * rewrite Forall_forall. intros x Hx. apply in_app_or in Hx.
        destruct Hx; auto.
Qed.

Lemma increasing_cons (a : K) (l : list K) :
  increasing (a :: l) <-> increasing l /\ (forall y, In y l -> a < y).
Proof.
  unfold increasing. split.
  - intros H. inversion H; subst. rewrite Forall_forall in *. auto.
  - intros (H1 & H2). constructor; auto. rewrite Forall_forall. auto.
Qed.

Lemma increasing_node (l r : list K) (k : K) :
  increasing (l ++ k :: r) <->
  increasing l /\ increasing r /\
  (forall x, In x l -> x < k) /\ (forall y, In y r -> k < y).
Proof.
  rewrite increasing_app, increasing_cons. split.
  - intros (H1 & (H2 & H3) & H4). repeat split; auto.
    intros x Hx. apply H4; simpl; auto.
  - intros (H1 & H2 & H3 & H4). repeat split; auto.
    intros x y Hx [<-|Hy]; auto.
    specialize (H3 x Hx). specialize (H4 y Hy). lia.
Qed.

Lemma count_inorder (t : tree) :
  count t = Z.of_nat (List.length (inorder t)).
Proof.
  induction t as [|l IHl k v h lc rc r IHr]; simpl; auto.
  rewrite length_app. simpl. lia.
Qed.

(** ** Insertion *)

Lemma finish_eq (t : tree) (n : Z) :
  finish t n = match rebalance (refresh t) with
               | Ok t' => Returned t' n
               | Err e => Raised e (refresh t) n
               end.
Proof. reflexivity. Qed.

Lemma insert_aux_spec (t : tree) (key : K) (item : I) (n : Z) :
  avl t -> increasing (inorder t) ->
  match insert_aux t key item n with
  | Returned t' n' =>
      avl t' /\ n' = n + 1 /\ is_none t' = false /\
      get_height t <= get_height t' <= get_height t + 1 /\
      exists l1 l2,
        inorder t = l1 ++ l2 /\ inorder t' = l1 ++ key :: l2 /\
        (forall x, In x l1 -> x < key) /\ (forall y, In y l2 -> key < y)
  | Raised e t' n' =>
      e = ValueError /\ t' = t /\ n' = n /\ In key (inorder t)
  end.
Proof.
  revert n. induction t as [|l IHl k v h lc rc r IHr]; intros n Ha Hs.
  - simpl. repeat split; try lia.
    exists [], []. simpl. repeat split; auto; intros ? [].
  - simpl in Hs. apply increasing_node in Hs.
    destruct Hs as (Hsl & Hsr & Hlk & Hkr).
    split_avl. cbn [insert_aux].
    destruct (Z.ltb_spec key k) as [Hlt|Hge].
    + specialize (IHl n H Hsl).
      destruct (insert_aux l key item n) as [l' n'|e l' n'].
      * destruct IHl as (Hal' & -> & Hnn & Hh & l1 & l2 & E1 & E2 & F1 & F2).
        rewrite finish_eq.
        destruct (rebalance_avl l' k v h lc rc r Hal' H0) as
          (t' & -> & Hat' & Hin & Hnone & Hb1 & Hb2); [lia|].
        know_heights. simpl get_height.
        repeat split; auto; try lia.
        exists l1, (l2 ++ k :: inorder r).
        simpl. rewrite Hin, E1, E2. rewrite <- !app_assoc. simpl.
        repeat split; auto.
        intros y Hy. apply in_app_or in Hy. destruct Hy as [Hy|[<-|Hy]]; auto.
        specialize (Hkr y Hy). lia.
      * destruct IHl as (-> & -> & -> & Hin). repeat split; auto.
        simpl. apply in_or_app. auto.
    + destruct (Z.ltb_spec k key) as [Hgt|Hle].
      * specialize (IHr n H0 Hsr).
        destruct (insert_aux r key item n) as [r' n'|e r' n'].
        -- destruct IHr as (Har' & -> & Hnn & Hh & l1 & l2 & E1 & E2 & F1 & F2).
           rewrite finish_eq.
           destruct (rebalance_avl l k v h lc rc r' H Har') as
             (t' & -> & Hat' & Hin & Hnone & Hb1 & Hb2); [lia|].
           know_heights. simpl get_height.
           repeat split; auto; try lia.
           exists (inorder l ++ k :: l1), l2.
           simpl. rewrite Hin, E1, E2. rewrite <- !app_assoc. simpl.
           repeat split; auto.
           intros x Hx. apply in_app_or in Hx. destruct Hx as [Hx|[<-|Hx]]; auto.
           specialize (Hlk x Hx). lia.
        -- destruct IHr as (-> & -> & -> & Hin). repeat split; auto.
           simpl. apply in_or_app. simpl. auto.
      * repeat split; auto. simpl. apply in_or_app. simpl.
        right. left. unfold K in *. lia.
Qed.

(** ** Deletion *)

Lemma get_minimal_key (t : tree) :
  key_of (get_minimal t) = hd_error (inorder t).
Proof.
  induction t as [|l IHl k v h lc rc r IHr]; simpl; auto.
  destruct l as [|ll lk lv lh llc lrc lr]; simpl in *; auto.
  rewrite IHl. destruct (inorder ll); reflexivity.
Qed.

Lemma increasing_head_unique (a : K) (rest m1 m2 : list K) :
  increasing (a :: rest) -> a :: rest = m1 ++ a :: m2 ->
  m1 = [] /\ rest = m2.
Proof.
  intros Hs E. destruct m1 as [|b m1]; simpl in E.
  - injection E; auto.
  - injection E as <- ->. apply increasing_cons in Hs.
    destruct Hs as (_ & Hs). specialize (Hs a).
    assert (a < a); [|lia]. apply Hs. apply in_or_app. simpl; auto.
Qed.

Lemma delete_aux_spec (t : tree) (key : K) (n : Z) :
  avl t -> increasing (inorder t) ->
  match delete_aux t key n with
  | Returned t' n' =>
      avl t' /\ n' = n - 1 /\
      get_height t - 1 <= get_height t' <= get_height t /\
      exists l1 l2, inorder t = l1 ++ key :: l2 /\ inorder t' = l1 ++ l2
  | Raised e t' n' =>
      e = ValueError /\ n' = n /\ ~ In key (inorder t) /\
      avl_at false t' /\ inorder t' = inorder t /\
      get_height t' = get_height t
  end.
Proof.
  revert key n. induction t as [|l IHl k v h lc rc r IHr]; intros key n Ha Hs.
  - simpl. repeat split; auto.
  - pose proof Hs as Hs0. simpl in Hs. apply increasing_node in Hs.
    destruct Hs as (Hsl & Hsr & Hlk & Hkr).
    split_avl. cbn [delete_aux].
    destruct (Z.ltb_spec key k) as [Hlt|Hge].
    + specialize (IHl key n H Hsl).
      destruct (delete_aux l key n) as [l' n'|e l' n'].
      * destruct IHl as (Hal' & -> & Hh & l1 & l2 & E1 & E2).
        rewrite finish_eq.
        destruct (rebalance_avl l' k v h (lc - 1) rc r Hal' H0) as
          (t' & -> & Hat' & Hin & Hnone & Hb1 & Hb2); [lia|].
        know_heights. simpl get_height.
        repeat split; auto; try lia.
        exists l1, (l2 ++ k :: inorder r).
        simpl. rewrite Hin, E1, E2. rewrite <- !app_assoc. auto.
      * destruct IHl as (-> & -> & Hin & Haf & Hie & Hhe).
        split; [reflexivity|]. split; [reflexivity|].
        split; [|split; [|split]].
        -- simpl. intros Hx. apply in_app_or in Hx.
           destruct Hx as [Hx|[Hx|Hx]]; auto; [lia|].
           specialize (Hkr key Hx). lia.
        -- simpl. rewrite Hhe. repeat split; auto using avl_forget; try lia;
             discriminate.
        -- simpl. rewrite Hie. reflexivity.
        -- reflexivity.
    + destruct (Z.ltb_spec k key) as [Hgt|Hle].
      * specialize (IHr key n H0 Hsr).
        destruct (delete_aux r key n) as [r' n'|e r' n'].
        -- destruct IHr as (Har' & -> & Hh & l1 & l2 & E1 & E2).
           rewrite finish_eq.
           destruct (rebalance_avl l k v h lc (rc - 1) r' H Har') as
             (t' & -> & Hat' & Hin & Hnone & Hb1 & Hb2); [lia|].
           know_heights. simpl get_height.
           repeat split; auto; try lia.
           exists (inorder l ++ k :: l1), l2.
           simpl. rewrite Hin, E1, E2. rewrite <- !app_assoc. auto.
        -- destruct IHr as (-> & -> & Hin & Haf & Hie & Hhe).
           split; [reflexivity|]. split; [reflexivity|].
           split; [|split; [|split]].
           ++ simpl. intros Hx. apply in_app_or in Hx.
              destruct Hx as [Hx|[Hx|Hx]]; auto; [|lia].
              specialize (Hlk key Hx). lia.
           ++ simpl. rewrite Hhe. repeat split; auto using avl_forget;
                try lia; discriminate.
           ++ simpl. rewrite Hie. reflexivity.
           ++ reflexivity.
      * assert (key = k) as -> by (unfold K in *; lia).
        destruct l as [|ll lk lv lh llc lrc lr].
        { destruct r as [|rl rk rv rh rlc rrc rr];
            split_avl; know_heights; simpl in *.
          - repeat split; try lia. exists [], []. auto.
          - repeat split; auto; try lia.
            exists [], (inorder rl ++ rk :: inorder rr). auto. }
        destruct r as [|rl rk rv rh rlc rrc rr].
        { split_avl. know_heights. simpl in *. repeat split; auto; try lia.
          exists (inorder ll ++ lk :: inorder lr), []. simpl.
          rewrite app_nil_r. auto. }
        cbn [is_leaf is_none get_successor].
        remember (Node ll lk lv lh llc lrc lr) as l eqn:El.
        remember (Node rl rk rv rh rlc rrc rr) as r eqn:Er.
        pose proof (get_minimal_key r) as Hm.
        destruct (inorder r) as [|sk rest] eqn:Ein.
        { subst r. simpl in Ein. destruct (inorder rl); discriminate. }
        destruct (get_minimal r) as [|ml mk mv mh mlc mrc mr]; simpl in Hm;
          [discriminate|]. injection Hm as ->.
        specialize (IHr sk n H0 Hsr).
        destruct (delete_aux r sk n) as [r' n'|e r' n'].
        -- destruct IHr as (Har' & -> & Hh & l1 & l2 & E1 & E2).
           destruct (increasing_head_unique sk rest l1 l2) as (-> & ->); auto.
           rewrite finish_eq.
           destruct (rebalance_avl l sk mv h lc rc r' H Har') as
             (t' & -> & Hat' & Hin & Hnone & Hb1 & Hb2); [lia|].
           know_heights. simpl get_height.
           repeat split; auto; try lia.
           exists (inorder l), (sk :: l2). simpl.
           rewrite Hin, E2, Ein. auto.
        -- destruct IHr as (_ & _ & Hin & _). exfalso. apply Hin.
           simpl; auto.
Qed.

End Invariant.

(** ** From the stored heights to the true heights *)

Lemma avl_true_height (c : bool) (t : tree) :
  avl_at c t -> get_height t = height_of t.
Proof.
  induction t as [|l IHl k v h lc rc r IHr];
    cbn [avl_at get_height height_of]; auto.
  intros (Hl & Hr & Hh & _). rewrite <- IHl, <- IHr by assumption. lia.
Qed.

Lemma avl_balanced (c : bool) (t : tree) : avl_at c t -> balanced t.
Proof.
  induction t as [|l IHl k v h lc rc r IHr];
    cbn [avl_at balanced height_of]; auto.
  intros (Hl & Hr & Hh & Hb & _).
  rewrite <- (avl_true_height c l), <- (avl_true_height c r) by assumption.
  repeat split; auto; lia.
Qed.

Lemma avl_counters_read (t : tree) : avl_at true t -> counters_read t.
Proof.
  induction t as [|l IHl k v h lc rc r IHr]; auto.
  intros (Hl & Hr & _ & _ & Hlc & Hrc).
  cbn [counters_read]. repeat split; auto.
  - destruct l; simpl; auto.
  - destruct r; simpl; auto.
Qed.

(** ** Invariants of the reachable states *)

Lemma increasing_insert (l1 l2 : list K) (key : K) :
  increasing (l1 ++ l2) ->
  (forall x, In x l1 -> x < key) -> (forall y, In y l2 -> key < y) ->
  increasing (l1 ++ key :: l2).
Proof.
  intros Hs F1 F2. apply increasing_app in Hs. destruct Hs as (H1 & H2 & _).
  apply increasing_node. auto.
Qed.

Lemma increasing_remove (l1 l2 : list K) (key : K) :
  increasing (l1 ++ key :: l2) -> increasing (l1 ++ l2).
Proof.
  intros Hs. apply increasing_node in Hs.
  destruct Hs as (H1 & H2 & H3 & H4).
  apply increasing_app. repeat split; auto.
  intros x y Hx Hy. specialize (H3 x Hx). specialize (H4 y Hy). lia.
Qed.

Lemma length_insert (l1 l2 : list K) (key : K) :
  Z.of_nat (List.length (l1 ++ key :: l2))
  = Z.of_nat (List.length (l1 ++ l2)) + 1.
Proof. rewrite !length_app. simpl. lia. Qed.

Lemma insert_state_inv (c : bool) (T : AVLTree I) (key : K) (item : I) :
  state_inv c T -> state_inv c (state_of (insert T key item)).
Proof.
  intros (Ha & Hs & Hn). unfold insert.
  pose proof (insert_aux_spec c (root T) key item (length T) Ha Hs) as H.
  destruct (insert_aux (root T) key item (length T)) as [t' n'|e t' n'].
  - destruct H as (Ha' & -> & _ & _ & l1 & l2 & E1 & E2 & F1 & F2).
    unfold state_inv. simpl. rewrite E1 in Hs.
    repeat split; auto.
    + rewrite E2. apply increasing_insert; auto.
    + rewrite Hn, !count_inorder, E1, E2, length_insert. reflexivity.
  - destruct H as (_ & -> & -> & _). destruct T. simpl.
    unfold state_inv. auto.
Qed.

Lemma delete_state_returned (c : bool) (T : AVLTree I) (key : K) t n :
  state_inv c T -> delete T key = Returned t n -> state_inv c (mkTree t n).
Proof.
  intros (Ha & Hs & Hn). unfold delete. intros E.
  pose proof (delete_aux_spec c (root T) key (length T) Ha Hs) as H.
  rewrite E in H. destruct H as (Ha' & -> & _ & l1 & l2 & E1 & E2).
  unfold state_inv. simpl. rewrite E1 in Hs. repeat split; auto.
  - rewrite E2. apply increasing_remove with key. assumption.
  - rewrite Hn, !count_inorder, E1, E2, length_insert. lia.
Qed.

Lemma delete_state_any (c : bool) (T : AVLTree I) (key : K) :
  state_inv c T -> state_inv false (state_of (delete T key)).
Proof.
  intros (Ha & Hs & Hn).
  destruct (delete T key) as [t n|e t n] eqn:E.
  - destruct (delete_state_returned c T key t n) as (H1 & H2 & H3);
      [split; auto|assumption|].
    split; [|split]; auto. simpl. eapply avl_forget. eassumption.
  - unfold delete in E.
    pose proof (delete_aux_spec c (root T) key (length T) Ha Hs) as H.
    rewrite E in H. destruct H as (_ & -> & _ & Ha' & Hi & _).
    unfold state_inv. simpl. rewrite Hi. repeat split; auto.
    rewrite Hn, !count_inorder, Hi. reflexivity.
Qed.

Lemma reachable_inv (T : AVLTree I) : reachable T -> state_inv true T.
Proof.
  induction 1 as [|T key item t n _ IH E|T key t n _ IH E].
  - unfold state_inv. simpl. repeat split. constructor.
  - pose proof (insert_state_inv true T key item IH) as H.
    rewrite E in H. exact H.
  - eapply delete_state_returned; eassumption.
Qed.

Lemma reachable_any_inv (T : AVLTree I) :
  reachable_any T -> state_inv false T.
Proof.
  induction 1 as [|T key item _ IH|T key _ IH].
  - unfold state_inv. simpl. repeat split. constructor.
  - apply insert_state_inv. assumption.
  - eapply delete_state_any. eassumption.
Qed.

Lemma reachable_is_any (T : AVLTree I) : reachable T -> reachable_any T.
Proof.
  induction 1 as [|T key item t n _ IH E|T key t n _ IH E].
  - constructor.
  - change (mkTree t n) with (state_of (Returned t n)). rewrite <- E.
    constructor. assumption.
  - change (mkTree t n) with (state_of (Returned t n)). rewrite <- E.
    constructor. assumption.
Qed.

(** ** The order-statistic query on a tree that satisfies the invariant *)

Lemma leaf_query (k : K) (v : I) (h lc rc : Z) (q : Z) :
  kth_largest_helper (Node Nil k v h lc rc Nil) q
  = Ok (Node Nil k v h lc rc Nil).
Proof.
  cbn. destruct (q =? 1); auto. destruct (q <? 1); auto.
Qed.

Lemma right_counter_count (l : tree) k v h lc rc r :
  avl_at true (Node l k v h lc rc r) ->
  get_right_counter (Node l k v h lc rc r) = count r.
Proof.
  intros (_ & _ & _ & _ & _ & Hrc). destruct r; simpl; auto.
Qed.

Lemma rev_inorder_node (l : tree) k v h lc rc r :
  rev (inorder (Node l k v h lc rc r))
  = rev (inorder r) ++ k :: rev (inorder l).
Proof.
  simpl. rewrite rev_app_distr. simpl. rewrite <- app_assoc. reflexivity.
Qed.

Lemma length_rev_inorder (t : tree) :
  List.length (rev (inorder t)) = Z.to_nat (count t).
Proof. rewrite length_rev, count_inorder. lia. Qed.

Lemma kth_largest_helper_nth (t : tree) (k : Z) :
  avl_at true t -> 1 <= k <= count t ->
  exists node,
    kth_largest_helper t k = Ok node /\ is_none node = false /\
    key_of node = nth_error (rev (inorder t)) (Z.to_nat (k - 1)).
Proof.
  revert k. induction t as [|l IHl key v h lc rc r IHr]; intros k Ha Hk.
  - simpl in Hk. lia.
  - pose proof (right_counter_count l key v h lc rc r Ha) as Hrc.
    pose proof (count_nonneg l) as Hcl. pose proof (count_nonneg r) as Hcr.
    destruct Ha as (Hal & Har & Hh & Hb & Hlc & Hrc').
    rewrite rev_inorder_node. cbn [count] in Hk.
    cbn [kth_largest_helper]. rewrite Hrc.
    destruct (Z.eqb_spec k (count r + 1)) as [->|Hne].
    + eexists; split; [reflexivity|]. split; [reflexivity|].
      rewrite nth_error_app2; rewrite length_rev_inorder; [|lia].
      replace (Z.to_nat (count r + 1 - 1) - Z.to_nat (count r))%nat
        with 0%nat by lia.
      reflexivity.
    + destruct (Z.ltb_spec k (count r + 1)) as [Hlt|Hge].
      * destruct r as [|rl rk rv rh rlc rrc rr]; [simpl in *; lia|].
        destruct (IHr k Har) as (node & E & Hn & Hkey);
          [cbn [count] in *; lia|].
        exists node. split; [exact E|]. split; [exact Hn|].
        rewrite nth_error_app1; [exact Hkey|].
        rewrite length_rev_inorder. lia.
      * destruct l as [|ll lk lv lh llc lrc lr]; [simpl in *; lia|].
        destruct r as [|rl rk rv rh rlc rrc rr].
        -- (* no right child: the stored counter may be stale, but the left
              child is a leaf *)
           destruct Hal as (Hall & Halr & Hlh & _).
           pose proof (avl_height true ll Hall) as (? & ?).
           pose proof (avl_height true lr Halr) as (? & ?).
           simpl in Hb.
           assert (ll = Nil) as -> by (apply (avl_height_nil true); auto; lia).
           assert (lr = Nil) as -> by (apply (avl_height_nil true); auto; lia).
           rewrite leaf_query. simpl in Hk |- *.
           assert (k = 2) as -> by lia.
           eexists; split; [reflexivity|]. split; reflexivity.
        -- rewrite (Hrc' eq_refl eq_refl).
           destruct (IHl (k - count (Node rl rk rv rh rlc rrc rr) - 1) Hal)
             as (node & E & Hn & Hkey); [cbn [count] in *; lia|].
           exists node. split; [exact E|]. split; [exact Hn|].
           rewrite nth_error_app2; rewrite length_rev_inorder; [|lia].
           replace (Z.to_nat (k - 1)
                    - Z.to_nat (count (Node rl rk rv rh rlc rrc rr)))%nat
             with (S (Z.to_nat
                        (k - count (Node rl rk rv rh rlc rrc rr) - 1 - 1)))
             by (cbn [count] in *; lia).
           exact Hkey.
Qed.

(** ** Ranks in a strictly increasing list *)

Lemma filter_all_false (x : K) (l : list K) :
  (forall y, In y l -> y <= x) -> filter (fun y => x <? y) l = [].
Proof.
  induction l as [|a l IH]; simpl; auto. intros H.
  destruct (Z.ltb_spec x a) as [Hlt|_].
  - specialize (H a (or_introl eq_refl)). lia.
  - apply IH. auto.
Qed.

Lemma filter_all_true (x : K) (l : list K) :
  (forall y, In y l -> x < y) -> filter (fun y => x <? y) l = l.
Proof.
  induction l as [|a l IH]; simpl; auto. intros H.
  destruct (Z.ltb_spec x a) as [_|Hge].
  - rewrite IH by auto. reflexivity.
  - specialize (H a (or_introl eq_refl)). lia.
Qed.

Lemma nth_rev_is_kth_largest (ks : list K) (k : Z) (x : K) :
  increasing ks -> 1 <= k ->
  nth_error (rev ks) (Z.to_nat (k - 1)) = Some x ->
  is_kth_largest ks k x.
Proof.
  intros Hs Hk Hn. apply nth_error_split in Hn.
  destruct Hn as (b & a & E & Hlen).
  assert (Eks : ks = rev a ++ x :: rev b).
  { rewrite <- (rev_involutive ks), E, rev_app_distr. simpl.
    rewrite <- app_assoc. reflexivity. }
  subst ks. apply increasing_node in Hs.
  destruct Hs as (_ & _ & Hlo & Hhi).
  split.
  - apply in_or_app. simpl. auto.
  - rewrite filter_app. simpl. rewrite Z.ltb_irrefl.
    rewrite filter_all_false, filter_all_true; auto.
    + simpl. rewrite length_rev. lia.
    + intros y Hy. specialize (Hlo y Hy). lia.
Qed.

Lemma insert_desc_smallest (x : K) (l : list K) :
  (forall y, In y l -> x < y) -> insert_desc x l = l ++ [x].
Proof.
  induction l as [|a l IH]; simpl; auto. intros H.
  destruct (Z.leb_spec a x) as [Hle|_].
  - specialize (H a (or_introl eq_refl)). lia.
  - rewrite IH by auto. reflexivity.
Qed.

Lemma sort_desc_increasing (ks : list K) :
  increasing ks -> sort_desc ks = rev ks.
Proof.
  induction ks as [|a ks IH]; simpl; auto. intros Hs.
  apply increasing_cons in Hs. destruct Hs as (Hs & Ha).
  rewrite IH by assumption. apply insert_desc_smallest.
  intros y Hy. apply Ha. apply in_rev. assumption.
Qed.

(** ** Subtrees *)

Lemma subtree_refl (t : tree) : subtree t t.
Proof. destruct t; simpl; auto. Qed.

Lemma kth_largest_helper_subtree (t : tree) (k : Z) (node : tree) :
  kth_largest_helper t k = Ok node -> subtree node t.
Proof.
  revert k. induction t as [|l IHl key v h lc rc r IHr]; intros k.
  - cbn. destruct (k =? 1); [|discriminate]. intros [= <-]. left; auto.
  - cbn [kth_largest_helper].
    destruct (k =? _); [intros [= <-]; apply subtree_refl|].
    destruct (k <? _).
    + destruct r as [|rl rk rv rh rlc rrc rr];
        [intros [= <-]; apply subtree_refl|].
      intros E. apply IHr in E. right. right. exact E.
    + destruct l as [|ll lk lv lh llc lrc lr];
        [intros [= <-]; apply subtree_refl|].
      intros E. apply IHl in E. right. left. exact E.
Qed.

Lemma avl_subtree (c : bool) (s t : tree) :
  avl_at c t -> subtree s t -> avl_at c s.
Proof.
  induction t as [|l IHl key v h lc rc r IHr]; intros Ha Hsub.
  - destruct Hsub as [->|[]]. exact Ha.
  - destruct Hsub as [->|[Hsub|Hsub]]; auto.
    + apply IHl; auto. apply Ha.
    + apply IHr; auto. apply Ha.
Qed.

(** ** Heights that are correct *)

Lemma height_of_nonneg (t : tree) : 0 <= height_of t.
Proof. induction t; cbn [height_of]; lia. Qed.

Lemma heights_correct_height (t : tree) :
  heights_correct t -> get_height t = height_of t.
Proof. destruct t; cbn [heights_correct get_height height_of]; tauto. Qed.

(** ** Duplicate keys *)

Lemma insert_aux_duplicate (t : tree) (key : K) (item : I) (n : Z) :
  increasing (inorder t) -> In key (inorder t) ->
  insert_aux t key item n = Raised ValueError t n.
Proof.
  induction t as [|l IHl k v h lc rc r IHr]; intros Hs Hin.
  - destruct Hin.
  - simpl in Hs, Hin. apply increasing_node in Hs.
    destruct Hs as (Hsl & Hsr & Hlk & Hkr).
    cbn [insert_aux].
    destruct (Z.ltb_spec key k) as [Hlt|Hge].
    + rewrite IHl; auto.
      apply in_app_or in Hin. destruct Hin as [Hin|[Hin|Hin]]; auto.
      * unfold K in *; lia.
      * specialize (Hkr key Hin). lia.
    + destruct (Z.ltb_spec k key) as [Hgt|Hle]; auto.
      rewrite IHr; auto.
      apply in_app_or in Hin. destruct Hin as [Hin|[Hin|Hin]]; auto.
      * specialize (Hlk key Hin). lia.
      * unfold K in *; lia.
Qed.

(** ** Rotations keep the in-order sequence *)

Lemma left_rotate_inorder (t child : tree) :
  attr_right t = Ok child -> is_none child = false ->
  exists t', left_rotate t = Ok t' /\ is_none t' = false /\
             inorder t' = inorder t.
Proof.
  destruct t as [|l k v h lc rc r]; [discriminate|].
  intros [= <-] Hn. destruct r as [|cl ck cv ch clc crc cr]; [discriminate|].
  rewrite left_rotate_eq. eexists; split; [reflexivity|].
  split; [reflexivity|]. simpl. rewrite <- app_assoc. reflexivity.
Qed.

Lemma right_rotate_inorder (t child : tree) :
  attr_left t = Ok child -> is_none child = false ->
  exists t', right_rotate t = Ok t' /\ is_none t' = false /\
             inorder t' = inorder t.
Proof.
  destruct t as [|l k v h lc rc r]; [discriminate|].
  intros [= <-] Hn. destruct l as [|cl ck cv ch clc crc cr]; [discriminate|].
  rewrite right_rotate_eq. eexists; split; [reflexivity|].
  split; [reflexivity|]. simpl. rewrite <- app_assoc. reflexivity.
Qed.

(** * Main results *)

(** C1.  In every state reached from the empty tree by inserts and deletes
    that returned, holding [n] keys, and for every [k] with [1 <= k <= n],
    [kth_largest(k)] returns a node of the tree whose key is the [k]-th
    largest key: it is in the tree with exactly [k - 1] keys above it, and
    it stands at position [k] of the keys sorted in decreasing order. *)
Theorem kth_largest_correct (T : AVLTree I) (k : Z) :
  reachable T ->
  1 <= k <= Z.of_nat (List.length (inorder (root T))) ->
  exists node x,
    kth_largest T k = Ok node /\ subtree node (root T) /\
    key_of node = Some x /\
    is_kth_largest (inorder (root T)) k x /\
    nth_error (sort_desc (inorder (root T))) (Z.to_nat (k - 1)) = Some x.
Proof.
  intros Hr Hk. destruct (reachable_inv T Hr) as (Ha & Hs & _).
  destruct (kth_largest_helper_nth (root T) k Ha) as (node & E & _ & Hkey).
  { rewrite count_inorder. exact Hk. }
  destruct (nth_error (rev (inorder (root T))) (Z.to_nat (k - 1)))
    as [x|] eqn:Hn.
  - exists node, x. unfold kth_largest. repeat split; auto.
    + apply kth_largest_helper_subtree with k. exact E.
    + apply (nth_rev_is_kth_largest _ k x Hs (proj1 Hk) Hn).
    + apply (nth_rev_is_kth_largest _ k x Hs (proj1 Hk) Hn).
    + rewrite sort_desc_increasing by assumption. exact Hn.
  - apply nth_error_None in Hn. rewrite length_rev in Hn. lia.
Qed.

(** C2, as amended.  In every state reached from the empty tree by inserts
    and deletes that returned, at every node the counters as
    [get_left_counter] and [get_right_counter] read them are the sizes of
    the left and right subtrees, the stored fields agree with them whenever
    the child on that side is present, and [length] is the number of nodes
    of the tree.  The recomputation sets a counter to the child's two
    counters, as the getters read them, plus 1 when the child is present,
    and leaves the stored field as it is when the child is absent. *)
Theorem counters_after_operations :
  (forall T : AVLTree I,
      reachable T ->
      counters_read (root T) /\ length T = count (root T)) /\
  (forall (l : tree) k v h lc rc (r : tree),
      update_counter (Node l k v h lc rc r)
      = Node l k v h
          (if is_none l then lc
           else get_left_counter l + get_right_counter l + 1)
          (if is_none r then rc
           else get_left_counter r + get_right_counter r + 1)
          r).
Proof.
  split.
  - intros T Hr. destruct (reachable_inv T Hr) as (Ha & _ & Hn).
    split; [apply avl_counters_read|]; assumption.
  - intros l k v h lc rc r. destruct l, r; reflexivity.
Qed.

Lemma kth_descent_result (T : AVLTree I) (current : tree) (k : Z) :
  reachable_any T -> subtree current (root T) ->
  is_none current = false ->
  kth_largest_helper current k = rank_rule current k.
Proof.
  intros Hr Hsub Hn. destruct (reachable_any_inv T Hr) as (Ha & _ & _).
  pose proof (avl_subtree false current (root T) Ha Hsub) as Hc.
  destruct current as [|l key v h lc rc r]; [discriminate|].
  cbn [kth_largest_helper rank_rule].
  destruct (k =? _); auto. destruct (k <? _).
  - destruct r; reflexivity.
  - destruct l as [|ll lk lv lh llc lrc lr]; [reflexivity|].
    destruct r as [|rl rk rv rh rlc rrc rr];
      [|cbn [is_none get_right_counter];
        replace (k - (rc + 1)) with (k - rc - 1) by lia; reflexivity].
    destruct Hc as ((Hall & Halr & Hlh & _) & _ & _ & Hb & _).
    pose proof (avl_height false ll Hall) as (? & ?).
    pose proof (avl_height false lr Halr) as (? & ?).
    simpl in Hb.
    assert (ll = Nil) as -> by (apply (avl_height_nil false); auto; lia).
    assert (lr = Nil) as -> by (apply (avl_height_nil false); auto; lia).
    cbn [is_none]. rewrite !leaf_query. reflexivity.
Qed.

Lemma helper_step_resume (current : tree) (k : Z) :
  kth_largest_helper current k = resume (helper_step current k).
Proof.
  destruct current as [|l key v h lc rc r];
    cbn [kth_largest_helper helper_step].
  - destruct (k =? _); reflexivity.
  - destruct (k =? _); [reflexivity|]. destruct (k <? _).
    + destruct r; reflexivity.
    + destruct l; reflexivity.
Qed.

Lemma rank_rule_resume (current : tree) (k : Z) :
  rank_rule current k = resume (rank_rule_step current k).
Proof.
  destruct current as [|l key v h lc rc r]; [reflexivity|].
  cbn [rank_rule rank_rule_step]. cbv zeta.
  destruct (k =? _); [reflexivity|]. destruct (k <? _).
  - destruct (is_none r); reflexivity.
  - destruct (is_none l); reflexivity.
Qed.

(** C4, as amended.  In every state the operations can leave behind, failed
    calls included, at every node of the tree and for every rank [k]: the
    query is the step of the code followed by the query in the child that
    step selects; the step of the code is the step of the rank rule, unless
    the right child is absent and the stored field [right_counter] is not
    0, where for [k > r] both continue in the left child, the code with
    rank [k - right_counter - 1] and the rule with rank [k - r = k - 1];
    and in every case the node returned is the one the rank rule
    returns. *)
Theorem kth_descent_rule (T : AVLTree I) (current : tree) (k : Z) :
  reachable_any T -> subtree current (root T) ->
  is_none current = false ->
  kth_largest_helper current k = resume (helper_step current k) /\
  (helper_step current k = rank_rule_step current k \/
   exists l key v h lc rc,
     current = Node l key v h lc rc Nil /\ is_none l = false /\
     rc <> 0 /\ 1 < k /\
     helper_step current k = Ok (Descend l (k - rc - 1)) /\
     rank_rule_step current k = Ok (Descend l (k - 1))) /\
  resume (helper_step current k) = resume (rank_rule_step current k).
Proof.
  intros Hr Hsub Hn. split; [apply helper_step_resume|]. split.
  - destruct current as [|l key v h lc rc r]; [discriminate|].
    cbn [helper_step rank_rule_step]. cbv zeta.
    destruct (Z.eqb_spec k (get_right_counter (Node l key v h lc rc r) + 1))
      as [_|Hne]; [left; reflexivity|].
    destruct (Z.ltb_spec k (get_right_counter (Node l key v h lc rc r) + 1))
      as [_|Hge].
    + left. destruct r; reflexivity.
    + destruct l as [|ll lk lv lh llc lrc lr]; [left; reflexivity|].
      cbn [is_none].
      destruct r as [|rl rk rv rh rlc rrc rr].
      * cbn [get_right_counter] in *.
        destruct (Z.eq_dec rc 0) as [->|Hrc].
        -- left. replace (k - 0 - 1) with (k - (0 + 1)) by lia.
           reflexivity.
        -- right. exists (Node ll lk lv lh llc lrc lr), key, v, h, lc, rc.
           repeat split; auto. lia.
      * left. cbn [get_right_counter].
        replace (k - (rc + 1)) with (k - rc - 1) by lia. reflexivity.
  - rewrite <- helper_step_resume, <- rank_rule_resume.
    apply (kth_descent_result T); assumption.
Qed.

(** C5.  In every state the operations can leave behind, hence after every
    insert and every delete that returned, every stored height is 1 + the
    larger height of the two subtrees (0 for an absent one) and the heights
    of the two subtrees of every node differ by at most 1. *)
Theorem balance_after_operations (T : AVLTree I) :
  reachable_any T -> balanced (root T).
Proof.
  intros Hr. destruct (reachable_any_inv T Hr) as (Ha & _ & _).
  apply avl_balanced with false. exact Ha.
Qed.

(** C6.  On a tree in search-tree order, inserting a key that is present
    raises [ValueError] and leaves the root, with every field of every
    node, and [length] as they were. *)
Theorem insert_duplicate_rejected (T : AVLTree I) (key : K) (item : I) :
  increasing (inorder (root T)) -> In key (inorder (root T)) ->
  insert T key item = Raised ValueError (root T) (length T) /\
  state_of (insert T key item) = T.
Proof.
  intros Hs Hin. unfold insert. rewrite insert_aux_duplicate by assumption.
  split; [reflexivity|]. destruct T; reflexivity.
Qed.

(** C7, as amended.  In every state the operations can leave behind the
    in-order traversal is strictly increasing; and [left_rotate] applied to
    a node whose right child is present, like [right_rotate] applied to a
    node whose left child is present, returns a node with the same in-order
    key sequence. *)
Theorem bst_order_kept :
  (forall T : AVLTree I, reachable_any T -> increasing (inorder (root T))) /\
  (forall t child : tree,
      attr_right t = Ok child -> is_none child = false ->
      exists t', left_rotate t = Ok t' /\ is_none t' = false /\
                 inorder t' = inorder t) /\
  (forall t child : tree,
      attr_left t = Ok child -> is_none child = false ->
      exists t', right_rotate t = Ok t' /\ is_none t' = false /\
                 inorder t' = inorder t).
Proof.
  split; [|split].
  - intros T Hr. apply (reachable_any_inv T Hr).
  - apply left_rotate_inorder.
  - apply right_rotate_inorder.
Qed.

(** C8.  At a node whose children have stored heights that are not
    negative: with balance factor at least 2 the right child is present
    and [rebalance] is the right rotation of that child followed by the left
    rotation of the node when the child's left subtree is the taller one,
    and the left rotation of the node alone otherwise; with balance factor
    at most -2 the mirror image; and with a balance factor strictly between
    -2 and 2 it returns the node as it is. *)
Theorem rebalance_case_split (l : tree) k v h lc rc (r : tree) :
  let current := Node l k v h lc rc r in
  0 <= get_height l -> 0 <= get_height r ->
  (2 <= get_balance current ->
   exists cl cr,
     attr_left r = Ok cl /\ attr_right r = Ok cr /\
     (get_height cr < get_height cl ->
      rebalance current
      = (child' <- right_rotate r ;;
         left_rotate (Node l k v h lc rc child'))) /\
     (get_height cl <= get_height cr ->
      rebalance current = left_rotate current)) /\
  (get_balance current <= -2 ->
   exists cl cr,
     attr_left l = Ok cl /\ attr_right l = Ok cr /\
     (get_height cl < get_height cr ->
      rebalance current
      = (child' <- left_rotate l ;;
         right_rotate (Node child' k v h lc rc r))) /\
     (get_height cr <= get_height cl ->
      rebalance current = right_rotate current)) /\
  (-2 < get_balance current < 2 -> rebalance current = Ok current).
Proof.
  intros current Hl Hr. subst current. unfold rebalance.
  cbn [get_balance]. split; [|split]; intros Hb.
  - destruct (Z.leb_spec 2 (get_height r - get_height l)); [|lia].
    destruct r as [|cl ck cv ch clc crc cr]; [simpl in *; lia|].
    exists cl, cr. cbn [attr_left attr_right bind].
    split; [reflexivity|]. split; [reflexivity|]. split; intros Hd.
    + destruct (Z.ltb_spec (get_height cr) (get_height cl)); [|lia].
      destruct (right_rotate _); reflexivity.
    + destruct (Z.ltb_spec (get_height cr) (get_height cl)); [lia|].
      reflexivity.
  - destruct (Z.leb_spec 2 (get_height r - get_height l)); [lia|].
    destruct (Z.leb_spec (get_height r - get_height l) (-2)); [|lia].
    destruct l as [|cl ck cv ch clc crc cr]; [simpl in *; lia|].
    exists cl, cr. cbn [attr_left attr_right bind].
    split; [reflexivity|]. split; [reflexivity|]. split; intros Hd.
    + destruct (Z.ltb_spec (get_height cl) (get_height cr)); [|lia].
      destruct (left_rotate _); reflexivity.
    + destruct (Z.ltb_spec (get_height cl) (get_height cr)); [lia|].
      reflexivity.
  - destruct (Z.leb_spec 2 (get_height r - get_height l)); [lia|].
    destruct (Z.leb_spec (get_height r - get_height l) (-2)); [lia|].
    reflexivity.
Qed.

(** C9.  At a node whose stored heights are correct, a balance factor of at
    least 2 means that the right child is present, that this child's left
    child is present whenever [rebalance] right-rotates the child, and that
    each rotation and [rebalance] itself return a node; a balance factor of
    at most -2 means the mirror image. *)
Theorem rebalance_rotations_return_nodes (current : tree) :
  heights_correct current ->
  (2 <= get_balance current ->
   exists child cl cr,
     attr_right current = Ok child /\ is_none child = false /\
     attr_left child = Ok cl /\ attr_right child = Ok cr /\
     (get_height cr < get_height cl ->
      is_none cl = false /\
      exists child' current' t',
        right_rotate child = Ok child' /\ is_none child' = false /\
        set_right current child' = Ok current' /\
        left_rotate current' = Ok t' /\ is_none t' = false) /\
     (exists t', left_rotate current = Ok t' /\ is_none t' = false) /\
     (exists t', rebalance current = Ok t' /\ is_none t' = false)) /\
  (get_balance current <= -2 ->
   exists child cl cr,
     attr_left current = Ok child /\ is_none child = false /\
     attr_left child = Ok cl /\ attr_right child = Ok cr /\
     (get_height cl < get_height cr ->
      is_none cr = false /\
      exists child' current' t',
        left_rotate child = Ok child' /\ is_none child' = false /\
        set_left current child' = Ok current' /\
        right_rotate current' = Ok t' /\ is_none t' = false) /\
     (exists t', right_rotate current = Ok t' /\ is_none t' = false) /\
     (exists t', rebalance current = Ok t' /\ is_none t' = false)).
Proof.
  intros Hc. destruct current as [|l k v h lc rc r].
  { simpl. split; intros; lia. }
  destruct Hc as (Hcl & Hcr & _).
  pose proof (heights_correct_height l Hcl) as Hhl.
  pose proof (heights_correct_height r Hcr) as Hhr.
  pose proof (height_of_nonneg l). pose proof (height_of_nonneg r).
  unfold rebalance. cbn [get_balance]. split; intros Hb.
  - destruct (Z.leb_spec 2 (get_height r - get_height l)); [|lia].
    destruct r as [|cl ck cv ch clc crc cr]; [simpl in *; lia|].
    destruct Hcr as (Hccl & Hccr & _).
    pose proof (heights_correct_height cl Hccl).
    pose proof (heights_correct_height cr Hccr).
    pose proof (height_of_nonneg cl). pose proof (height_of_nonneg cr).
    exists (Node cl ck cv ch clc crc cr), cl, cr.
    cbn [attr_left attr_right bind is_none].
    repeat (split; [reflexivity|]).
    split; [|split].
    + intros Hd. destruct cl as [|cll clk clv clh cllc clrc clr];
        [simpl in *; lia|].
      split; [reflexivity|]. rewrite right_rotate_eq.
      destruct (refresh_node cll clk clv clh cllc clrc
                  (refresh (Node clr ck cv ch clc crc cr)))
        as (h2 & lc2 & rc2 & E2).
      rewrite E2. do 3 eexists.
      split; [reflexivity|]. split; [reflexivity|].
      split; [reflexivity|]. rewrite left_rotate_eq. split; reflexivity.
    + rewrite left_rotate_eq. eexists; split; reflexivity.
    + destruct (Z.ltb_spec (get_height cr) (get_height cl)).
      * destruct cl as [|cll clk clv clh cllc clrc clr];
          [simpl in *; lia|].
        rewrite right_rotate_eq. cbn [bind set_right].
        destruct (refresh_node cll clk clv clh cllc clrc
                    (refresh (Node clr ck cv ch clc crc cr)))
          as (h2 & lc2 & rc2 & E2).
        rewrite E2, left_rotate_eq. eexists; split; reflexivity.
      * rewrite left_rotate_eq. eexists; split; reflexivity.
  - destruct (Z.leb_spec 2 (get_height r - get_height l)); [lia|].
    destruct (Z.leb_spec (get_height r - get_height l) (-2)); [|lia].
    destruct l as [|cl ck cv ch clc crc cr]; [simpl in *; lia|].
    destruct Hcl as (Hccl & Hccr & _).
    pose proof (heights_correct_height cl Hccl).
    pose proof (heights_correct_height cr Hccr).
    pose proof (height_of_nonneg cl). pose proof (height_of_nonneg cr).
    exists (Node cl ck cv ch clc crc cr), cl, cr.
    cbn [attr_left attr_right bind is_none].
    repeat (split; [reflexivity|]).
    split; [|split].
    + intros Hd. destruct cr as [|crl crk crv crh crlc crrc crr];
        [simpl in *; lia|].
      split; [reflexivity|]. rewrite left_rotate_eq.
      destruct (refresh_node (refresh (Node cl ck cv ch clc crc crl))
                  crk crv crh crlc crrc crr)
        as (h2 & lc2 & rc2 & E2).
      rewrite E2. do 3 eexists.
      split; [reflexivity|]. split; [reflexivity|].
      split; [reflexivity|]. rewrite right_rotate_eq. split; reflexivity.
    + rewrite right_rotate_eq. eexists; split; reflexivity.
    + destruct (Z.ltb_spec (get_height cl) (get_height cr)).
      * destruct cr as [|crl crk crv crh crlc crrc crr];
          [simpl in *; lia|].
        rewrite left_rotate_eq. cbn [bind set_left].
        destruct (refresh_node (refresh (Node cl ck cv ch clc crc crl))
                    crk crv crh crlc crrc crr)
          as (h2 & lc2 & rc2 & E2).
        rewrite E2, right_rotate_eq. eexists; split; reflexivity.
      * rewrite right_rotate_eq. eexists; split; reflexivity.
Qed.

End AVLTreeFacts.

(** * The rank source *)

(** C10.  From every state of the generator, [randint(k)] with [k >= 1]
    returns a number between 1 and [k], both included; and [randint(0)]
    raises [ValueError]. *)
Theorem randint_in_range (k seed : Z) :
  (1 <= k ->
   exists n seed',
     RandomGen.randint k seed = (Ok n, seed') /\ 1 <= n <= k) /\
  RandomGen.randint 0 seed = (Err ValueError, seed).
Proof.
  split; [|reflexivity].
  intros Hk. unfold RandomGen.randint.
  destruct (Z.eqb_spec k 0) as [->|_]; [lia|].
  unfold RandomGen.next5. do 2 eexists. split; [reflexivity|].
  match goal with
  | |- 1 <= ?x mod k + 1 <= k =>
      pose proof (Z.mod_pos_bound x k ltac:(lia)); lia
  end.
Qed.

Lemma randint_in_range_witness :
  exists n seed', RandomGen.randint 4 0 = (Ok n, seed') /\ 1 <= n <= 4.
Proof.
  apply (proj1 (randint_in_range 4 0)). lia.
Defined.

(** The example of the docstring of [randint]: seed 0 and [k = 4]. *)
Example randint_docstring :
  fst (RandomGen.next5 0)
  = [1; 134775814; 3698175007; 870078620; 1172187917] /\
  RandomGen.randint 4 0 = (Ok 1, 1172187917).
Proof. split; vm_compute; reflexivity. Qed.

(** * The results at the example states *)

Lemma reach_step_insert (T : AVLTree Z) (key : K) (item : Z) :
  reachable T -> error_of (insert T key item) = None ->
  reachable (state_of (insert T key item)).
Proof.
  intros Hr He. destruct (insert T key item) as [t n|e t n] eqn:E;
    [|discriminate].
  simpl. eapply reach_insert; eassumption.
Qed.

Lemma reach_step_delete (T : AVLTree Z) (key : K) :
  reachable T -> error_of (delete T key) = None ->
  reachable (state_of (delete T key)).
Proof.
  intros Hr He. destruct (delete T key) as [t n|e t n] eqn:E;
    [|discriminate].
  simpl. eapply reach_delete; eassumption.
Qed.

Ltac replay :=
  cbv [Examples.T13 Examples.T213 Examples.T123 Examples.Tspec
       Examples.insert_all
       fold_left];
  repeat first
    [ apply reach_empty
    | apply reach_step_insert; [|vm_compute; reflexivity]
    | apply reach_step_delete; [|vm_compute; reflexivity] ].

Lemma T213_reachable : reachable Examples.T213.
Proof. replay. Qed.

Lemma T13_reachable : reachable Examples.T13.
Proof. replay. Qed.

Lemma T123_reachable : reachable Examples.T123.
Proof. replay. Qed.

Lemma Tspec_reachable : reachable Examples.Tspec.
Proof. replay. Qed.

(** The scenario of the specification: the tree built from 10, 5, 20, 1, 25
    answers 25 and 10 for the ranks 1 and 3; after [delete(20)] it answers
    25 and 10 for the ranks 1 and 2 and holds 4 keys. *)
Example spec_scenario :
  length Examples.Tspec = 5 /\
  bind (kth_largest Examples.Tspec 1) (fun n => Ok (key_of n))
  = Ok (Some 25) /\
  bind (kth_largest Examples.Tspec 3) (fun n => Ok (key_of n))
  = Ok (Some 10) /\
  let T := state_of (delete Examples.Tspec 20) in
  error_of (delete Examples.Tspec 20) = None /\ length T = 4 /\
  bind (kth_largest T 1) (fun n => Ok (key_of n)) = Ok (Some 25) /\
  bind (kth_largest T 2) (fun n => Ok (key_of n)) = Ok (Some 10).
Proof. vm_compute. repeat split. Qed.

Lemma kth_largest_correct_witness :
  exists node x,
    kth_largest Examples.Tspec 3 = Ok node /\
    subtree node (root Examples.Tspec) /\
    key_of node = Some x /\
    is_kth_largest (inorder (root Examples.Tspec)) 3 x /\
    nth_error (sort_desc (inorder (root Examples.Tspec))) (Z.to_nat (3 - 1))
    = Some x.
Proof.
  apply (kth_largest_correct Z Examples.Tspec 3 Tspec_reachable).
  vm_compute. split; discriminate.
Defined.

(** C2, as stated, fails: after the inserts 1, 2, 3 the node of key 1 has
    been rotated down and has no child, and its stored right counter is
    still 2; after the inserts 2, 1, 3 and [delete(2)] the root has no right
    child and its stored right counter is still 1. *)
Lemma stored_counters_stale :
  (reachable Examples.T123 /\
   root Examples.T123
   = Node (Node Nil 1 10 1 0 2 Nil) 2 20 2 1 1 (Node Nil 3 30 1 0 0 Nil) /\
   ~ counters_stored (root Examples.T123)) /\
  (reachable Examples.T13 /\
   root Examples.T13 = Node (Node Nil 1 10 1 0 0 Nil) 3 30 2 1 1 Nil /\
   ~ counters_stored (root Examples.T13)).
Proof.
  split.
  - split; [exact T123_reachable|]. split; [reflexivity|].
    vm_compute. intros ((_ & _ & _ & H) & _). discriminate H.
  - split; [exact T13_reachable|]. split; [reflexivity|].
    vm_compute. intros (_ & _ & _ & H). discriminate H.
Qed.

Lemma counters_after_operations_witness :
  counters_read (root Examples.T13) /\
  length Examples.T13 = count (root Examples.T13).
Proof.
  apply (proj1 (counters_after_operations Z) Examples.T13 T13_reachable).
Defined.

(** C3: the code at the failing input.  Deleting the absent key 4 from the
    tree of 2, 1, 3 raises [ValueError], but the right counter of every node
    on the search path has been decremented: the root reads 0 nodes on its
    right, and the largest key is no longer found. *)
Theorem delete_absent_key_mutates :
  reachable Examples.T213 /\
  ~ In 4 (inorder (root Examples.T213)) /\
  error_of (delete Examples.T213 4) = Some ValueError /\
  root Examples.T213
  = Node (Node Nil 1 10 1 0 0 Nil) 2 20 2 1 1 (Node Nil 3 30 1 0 0 Nil) /\
  root Examples.T213_failed
  = Node (Node Nil 1 10 1 0 0 Nil) 2 20 2 1 0 (Node Nil 3 30 1 0 (-1) Nil) /\
  bind (kth_largest Examples.T213 1) (fun n => Ok (key_of n))
  = Ok (Some 3) /\
  bind (kth_largest Examples.T213_failed 1) (fun n => Ok (key_of n))
  = Ok (Some 2).
Proof.
  split; [exact T213_reachable|]. split.
  - vm_compute. intros [H|[H|[H|[]]]]; discriminate H.
  - vm_compute. repeat split.
Qed.

Lemma kth_descent_rule_witness :
  kth_largest_helper (root Examples.T13) 2
  = resume (helper_step (root Examples.T13) 2) /\
  (helper_step (root Examples.T13) 2 = rank_rule_step (root Examples.T13) 2 \/
   exists l key v h lc rc,
     root Examples.T13 = Node l key v h lc rc Nil /\ is_none l = false /\
     rc <> 0 /\ 1 < 2 /\
     helper_step (root Examples.T13) 2 = Ok (Descend l (2 - rc - 1)) /\
     rank_rule_step (root Examples.T13) 2 = Ok (Descend l (2 - 1))) /\
  resume (helper_step (root Examples.T13) 2)
  = resume (rank_rule_step (root Examples.T13) 2).
Proof.
  apply (kth_descent_rule Z Examples.T13 (root Examples.T13) 2).
  - apply reachable_is_any. exact T13_reachable.
  - apply subtree_refl.
  - reflexivity.
Defined.

(** C4, as stated, fails: after the inserts 2, 1, 3 and the deletion of 2
    the root, of key 3, has no right child and the stored [right_counter]
    1.  For [k = 2] the rank rule has [r = 1] and continues in the left
    child with rank [k - r = 1]; the code continues there with rank
    [k - right_counter - 1 = 0]. *)
Lemma kth_descent_rank_stale :
  reachable Examples.T13 /\
  root Examples.T13 = Node (Node Nil 1 10 1 0 0 Nil) 3 30 2 1 1 Nil /\
  helper_step (root Examples.T13) 2
  = Ok (Descend (Node Nil 1 10 1 0 0 Nil) 0) /\
  rank_rule_step (root Examples.T13) 2
  = Ok (Descend (Node Nil 1 10 1 0 0 Nil) 1) /\
  helper_step (root Examples.T13) 2 <> rank_rule_step (root Examples.T13) 2.
Proof.
  split; [exact T13_reachable|]. split; [reflexivity|].
  split; [reflexivity|]. split; [reflexivity|].
  vm_compute. discriminate.
Qed.

Lemma balance_after_operations_witness : balanced (root Examples.Tspec).
Proof.
  apply (balance_after_operations Z Examples.Tspec).
  apply reachable_is_any. exact Tspec_reachable.
Defined.

Lemma insert_duplicate_rejected_witness :
  insert Examples.Tspec 20 0
  = Raised ValueError (root Examples.Tspec) (length Examples.Tspec) /\
  state_of (insert Examples.Tspec 20 0) = Examples.Tspec.
Proof.
  apply (insert_duplicate_rejected Z Examples.Tspec 20 0).
  - apply (reachable_inv Z Examples.Tspec Tspec_reachable).
  - vm_compute. tauto.
Defined.

(** C7, as stated, fails: [left_rotate] applied to a single node, which is
    in search-tree order, returns [None], and the key is gone from what it
    returns. *)
Lemma left_rotate_without_child :
  increasing (inorder Examples.leaf1) /\
  left_rotate Examples.leaf1 = Ok Nil /\
  ~ (exists t', left_rotate Examples.leaf1 = Ok t' /\
                inorder t' = inorder Examples.leaf1).
Proof.
  split; [|split].
  - repeat constructor.
  - reflexivity.
  - intros (t' & E & Hin). vm_compute in E. injection E as <-.
    discriminate Hin.
Qed.

Lemma bst_order_kept_witness :
  increasing (inorder (root Examples.Tspec)) /\
  (exists t', left_rotate (root Examples.Tspec) = Ok t' /\
              is_none t' = false /\
              inorder t' = inorder (root Examples.Tspec)) /\
  (exists t', right_rotate (root Examples.Tspec) = Ok t' /\
              is_none t' = false /\
              inorder t' = inorder (root Examples.Tspec)).
Proof.
  destruct (bst_order_kept Z) as (H1 & H2 & H3). split; [|split].
  - apply H1. apply reachable_is_any. exact Tspec_reachable.
  - eapply H2; reflexivity.
  - eapply H3; reflexivity.
Defined.

Lemma rebalance_case_split_witness :
  rebalance (Node Nil 1 10 3 0 2
               (Node Nil 2 20 2 0 1 (Node Nil 3 30 1 0 0 Nil)))
  = left_rotate (Node Nil 1 10 3 0 2
                   (Node Nil 2 20 2 0 1 (Node Nil 3 30 1 0 0 Nil))).
Proof.
  destruct (rebalance_case_split Z Nil 1 10 3 0 2
              (Node Nil 2 20 2 0 1 (Node Nil 3 30 1 0 0 Nil)))
    as (H & _ & _); [simpl; lia|simpl; lia|].
  destruct H as (cl & cr & E1 & E2 & _ & H); [simpl; lia|].
  injection E1 as <-. injection E2 as <-. apply H. simpl. lia.
Defined.

Lemma rebalance_rotations_return_nodes_witness :
  exists t',
    rebalance (Node Nil 1 10 3 0 2
                 (Node Nil 2 20 2 0 1 (Node Nil 3 30 1 0 0 Nil)))
    = Ok t' /\ is_none t' = false.
Proof.
  destruct (rebalance_rotations_return_nodes Z
              (Node Nil 1 10 3 0 2
                 (Node Nil 2 20 2 0 1 (Node Nil 3 30 1 0 0 Nil))))
    as (H & _); [vm_compute; repeat split|].
  destruct H as (child & cl & cr & _ & _ & _ & _ & _ & _ & H);
    [simpl; lia|].
  exact H.
Defined.

(** * Further properties of the tree *)

Section AVLTreeMore.

Variable I : Type.
#[local] Abbreviation tree := (tree I).

(** ** Items travel with their keys *)

Lemma entries_keys (t : tree) : map fst (entries t) = inorder t.
Proof.
  induction t as [|l IHl k v h lc rc r IHr]; simpl; auto.
  rewrite map_app. simpl. rewrite IHl, IHr. reflexivity.
Qed.

Lemma entries_refresh (t : tree) : entries (refresh t) = entries t.
Proof. destruct t; reflexivity. Qed.

Lemma rebalance_entries (t t' : tree) :
  rebalance t = Ok t' -> is_none t' = false -> entries t' = entries t.
Proof.
  unfold rebalance. destruct t as [|l k v h lc rc r].
  - simpl. intros [= <-]. discriminate.
  - cbn [get_balance]. destruct (2 <=? _).
    + destruct r as [|cl ck cv ch clc crc cr]; [discriminate|].
      cbn [bind attr_left attr_right]. destruct (_ <? _).
      * destruct cl as [|cll clk clv clh cllc clrc clr].
        { simpl. intros [= <-]. discriminate. }
        simpl. intros [= <-] _. simpl.
        repeat (rewrite <- ?app_assoc; simpl). reflexivity.
      * simpl. intros [= <-] _. simpl.
        repeat (rewrite <- ?app_assoc; simpl). reflexivity.
    + destruct (_ <=? -2).
      * destruct l as [|cl ck cv ch clc crc cr]; [discriminate|].
        cbn [bind attr_left attr_right]. destruct (_ <? _).
        -- destruct cr as [|crl crk crv crh crlc crrc crr].
           { simpl. intros [= <-]. discriminate. }
           simpl. intros [= <-] _. simpl.
           repeat (rewrite <- ?app_assoc; simpl). reflexivity.
        -- simpl. intros [= <-] _. simpl.
           repeat (rewrite <- ?app_assoc; simpl). reflexivity.
      * intros [= <-] _. reflexivity.
Qed.

Lemma finish_entries (t t' : tree) (n n' : Z) :
  finish t n = Returned t' n' -> is_none t' = false ->
  entries t' = entries t.
Proof.
  rewrite finish_eq. destruct (rebalance (refresh t)) as [t1|e] eqn:E;
    [|discriminate].
  intros [= <- <-] Hn. rewrite (rebalance_entries _ _ E Hn).
  apply entries_refresh.
Qed.

Lemma entries_in_keys (t : tree) (p : K * I) :
  In p (entries t) -> In (fst p) (inorder t).
Proof. intros H. rewrite <- entries_keys. apply in_map. exact H. Qed.

Lemma insert_aux_entries (c : bool) (t : tree) (key : K) (item : I)
      (n : Z) (t' : tree) (n' : Z) :
  avl_at c t -> increasing (inorder t) ->
  insert_aux t key item n = Returned t' n' ->
  exists e1 e2,
    entries t = e1 ++ e2 /\ entries t' = e1 ++ (key, item) :: e2 /\
    (forall p, In p e1 -> fst p < key) /\
    (forall p, In p e2 -> key < fst p).
Proof.
  revert n t' n'.
  induction t as [|l IHl k v h lc rc r IHr]; intros n t' n' Ha Hs Hres.
  - simpl in Hres. injection Hres as <- <-.
    exists [], []. simpl. repeat split; auto; intros ? [].
  - pose proof (insert_aux_spec I c _ key item n Ha Hs) as Hspec.
    rewrite Hres in Hspec. destruct Hspec as (_ & _ & Hnone & _).
    simpl in Hs. apply increasing_node in Hs.
    destruct Hs as (Hsl & Hsr & Hlk & Hkr).
    destruct Ha as (Hal & Har & _).
    cbn [insert_aux] in Hres.
    destruct (Z.ltb_spec key k) as [Hlt|Hge].
    + destruct (insert_aux l key item n) as [l' n1|e l' n1] eqn:E;
        [|discriminate].
      apply finish_entries in Hres; [|exact Hnone].
      destruct (IHl n l' n1 Hal Hsl E) as (e1 & e2 & E1 & E2 & F1 & F2).
      exists e1, (e2 ++ (k, v) :: entries r).
      rewrite Hres. simpl. rewrite E1, E2. rewrite <- !app_assoc. simpl.
      repeat split; auto.
      intros p Hp. apply in_app_or in Hp. destruct Hp as [Hp|[<-|Hp]]; auto.
      apply entries_in_keys in Hp. specialize (Hkr _ Hp). lia.
    + destruct (Z.ltb_spec k key) as [Hgt|Hle]; [|discriminate].
      destruct (insert_aux r key item n) as [r' n1|e r' n1] eqn:E;
        [|discriminate].
      apply finish_entries in Hres; [|exact Hnone].
      destruct (IHr n r' n1 Har Hsr E) as (e1 & e2 & E1 & E2 & F1 & F2).
      exists (entries l ++ (k, v) :: e1), e2.
      rewrite Hres. simpl. rewrite E1, E2. rewrite <- !app_assoc. simpl.
      repeat split; auto.
      intros p Hp. apply in_app_or in Hp. destruct Hp as [Hp|[<-|Hp]]; auto.
      apply entries_in_keys in Hp. specialize (Hlk _ Hp). lia.
Qed.

Lemma get_minimal_entry (t : tree) :
  match get_minimal t with
  | Nil => t = Nil
  | Node _ mk mv _ _ _ _ => exists rest, entries t = (mk, mv) :: rest
  end.
Proof.
  induction t as [|l IHl k v h lc rc r IHr]; simpl; auto.
  destruct l as [|ll lk lv lh llc lrc lr].
  - simpl. eauto.
  - simpl in IHl |- *. destruct (match ll with Nil => _ | _ => _ end).
    + discriminate.
    + destruct IHl as (rest & ->). simpl. eauto.
Qed.

Lemma delete_aux_entries (c : bool) (t : tree) (key : K)
      (n : Z) (t' : tree) (n' : Z) :
  avl_at c t -> increasing (inorder t) ->
  delete_aux t key n = Returned t' n' ->
  exists e1 v e2,
    entries t = e1 ++ (key, v) :: e2 /\ entries t' = e1 ++ e2.
Proof.
  revert key n t' n'.
  induction t as [|l IHl k v h lc rc r IHr]; intros key n t' n' Ha Hs Hres.
  - discriminate.
  - pose proof Hs as Hs0. simpl in Hs. apply increasing_node in Hs.
    destruct Hs as (Hsl & Hsr & Hlk & Hkr).
    pose proof Ha as (Hal & Har & Hh & Hb & _).
    cbn [delete_aux] in Hres.
    destruct (Z.ltb_spec key k) as [Hlt|Hge].
    + pose proof (delete_aux_spec I c l key n Hal Hsl) as Hspec.
      destruct (delete_aux l key n) as [l' n1|e l' n1] eqn:E;
        [|discriminate].
      destruct Hspec as (Hal' & _ & Hhl & _).
      destruct (rebalance_avl I c l' k v h (lc - 1) rc r Hal' Har)
        as (t1 & Ereb & _ & _ & Hnone & _); [lia|].
      assert (t' = t1) as ->.
      { rewrite finish_eq, Ereb in Hres. injection Hres; auto. }
      apply finish_entries in Hres; [|exact Hnone].
      destruct (IHl key n l' n1 Hal Hsl E) as (e1 & v0 & e2 & E1 & E2).
      exists e1, v0, (e2 ++ (k, v) :: entries r).
      rewrite Hres. simpl. rewrite E1, E2. rewrite <- !app_assoc. auto.
    + destruct (Z.ltb_spec k key) as [Hgt|Hle].
      * pose proof (delete_aux_spec I c r key n Har Hsr) as Hspec.
        destruct (delete_aux r key n) as [r' n1|e r' n1] eqn:E;
          [|discriminate].
        destruct Hspec as (Har' & _ & Hhr & _).
        destruct (rebalance_avl I c l k v h lc (rc - 1) r' Hal Har')
          as (t1 & Ereb & _ & _ & Hnone & _); [lia|].
        assert (t' = t1) as ->.
        { rewrite finish_eq, Ereb in Hres. injection Hres; auto. }
        apply finish_entries in Hres; [|exact Hnone].
        destruct (IHr key n r' n1 Har Hsr E)
          as (e1 & v0 & e2 & E1 & E2).
        exists (entries l ++ (k, v) :: e1), v0, e2.
        rewrite Hres. simpl. rewrite E1, E2. rewrite <- !app_assoc. auto.
      * assert (key = k) as -> by (unfold K in *; lia).
        destruct l as [|ll lk lv lh llc lrc lr].
        { destruct r as [|rl rk rv rh rlc rrc rr]; simpl in Hres;
            injection Hres as <- <-.
          - exists [], v, []. auto.
          - exists [], v, (entries (Node rl rk rv rh rlc rrc rr)). auto. }
        destruct r as [|rl rk rv rh rlc rrc rr].
        { simpl in Hres. injection Hres as <- <-.
          exists (entries (Node ll lk lv lh llc lrc lr)), v, [].
          simpl. rewrite app_nil_r. auto. }
        cbn [is_leaf is_none get_successor] in Hres.
        remember (Node ll lk lv lh llc lrc lr) as l eqn:El.
        remember (Node rl rk rv rh rlc rrc rr) as r eqn:Er.
        pose proof (get_minimal_entry r) as Hm.
        destruct (get_minimal r) as [|ml sk sv mh mlc mrc mr];
          [subst r; discriminate|].
        destruct Hm as (rest & Erest).
        pose proof (delete_aux_spec I c r sk n Har Hsr) as Hspec.
        destruct (delete_aux r sk n) as [r' n1|e r' n1] eqn:E;
          [|discriminate].
        destruct Hspec as (Har' & _ & Hhr & _).
        destruct (rebalance_avl I c l sk sv h lc rc r' Hal Har')
          as (t1 & Ereb & _ & _ & Hnone & _); [lia|].
        assert (t' = t1) as ->.
        { rewrite finish_eq, Ereb in Hres. injection Hres; auto. }
        apply finish_entries in Hres; [|exact Hnone].
        destruct (IHr sk n r' n1 Har Hsr E)
          as (e1 & v0 & e2 & E1 & E2).
        assert (Hkeys : sk :: map fst rest
                        = map fst e1 ++ sk :: map fst e2).
        { rewrite Erest in E1.
          apply (f_equal (map fst)) in E1. rewrite map_app in E1.
          exact E1. }
        assert (Hsr' : increasing (sk :: map fst rest)).
        { rewrite <- entries_keys, Erest in Hsr. exact Hsr. }
        destruct (increasing_head_unique _ _ _ _ Hsr' Hkeys) as (He1 & _).
        destruct e1; [|discriminate].
        rewrite Erest in E1. simpl in E1. injection E1 as <- ->.
        exists (entries l), v, ((sk, sv) :: e2).
        rewrite Hres. simpl. rewrite Erest, E2. auto.
Qed.

Lemma entries_split_unique (e1 e2 e1' e2' : list (K * I)) (k : K) (a b : I) :
  increasing (map fst (e1 ++ (k, a) :: e2)) ->
  e1 ++ (k, a) :: e2 = e1' ++ (k, b) :: e2' ->
  e1 = e1' /\ a = b /\ e2 = e2'.
Proof.
  revert e1'. induction e1 as [|p e1 IH]; intros e1' Hs E.
  - destruct e1' as [|p' e1']; simpl in E.
    + injection E; intros; subst; auto.
    + injection E; intros E2 E1. exfalso. simpl in Hs.
      apply increasing_cons in Hs. destruct Hs as (_ & Hs).
      assert (k < k); [|lia]. apply Hs.
      rewrite E2, map_app. apply in_or_app. simpl. auto.
  - destruct e1' as [|p' e1']; simpl in E.
    + injection E; intros E2 E1. exfalso. subst p. simpl in Hs.
      apply increasing_cons in Hs. destruct Hs as (_ & Hs).
      assert (k < k); [|lia]. apply Hs.
      rewrite map_app. apply in_or_app. simpl. auto.
    + injection E; intros E2 E1. subst p'. simpl in Hs.
      apply increasing_cons in Hs.
      destruct (IH e1' (proj1 Hs) E2) as (-> & -> & ->). auto.
Qed.

(** ** What insert and delete do to the contents *)

Lemma insert_absent_spec (T : AVLTree I) (key : K) (item : I) :
  state_inv false T -> ~ In key (inorder (root T)) ->
  exists t' e1 e2,
    insert T key item = Returned t' (length T + 1) /\
    entries (root T) = e1 ++ e2 /\
    entries t' = e1 ++ (key, item) :: e2 /\
    (forall p, In p e1 -> fst p < key) /\
    (forall p, In p e2 -> key < fst p).
Proof.
  intros (Ha & Hs & _) Hnot.
  unfold insert.
  pose proof (insert_aux_spec I false (root T) key item (length T) Ha Hs)
    as Hspec.
  destruct (insert_aux (root T) key item (length T)) as [t' n'|e t' n'] eqn:E.
  - destruct Hspec as (_ & -> & _).
    destruct (insert_aux_entries false _ _ _ _ _ _ Ha Hs E)
      as (e1 & e2 & H).
    exists t', e1, e2. auto.
  - destruct Hspec as (_ & _ & _ & Hin). contradiction.
Qed.

(** Inserting a key that is absent returns, adds one to [length], and puts
    the pair (key, item) at its place in the in-order sequence of pairs,
    which is otherwise unchanged. *)
Theorem insert_absent_adds (T : AVLTree I) (key : K) (item : I) :
  reachable_any T -> ~ In key (inorder (root T)) ->
  exists t' e1 e2,
    insert T key item = Returned t' (length T + 1) /\
    entries (root T) = e1 ++ e2 /\
    entries t' = e1 ++ (key, item) :: e2 /\
    (forall p, In p e1 -> fst p < key) /\
    (forall p, In p e2 -> key < fst p).
Proof.
  intros Hr Hnot. apply insert_absent_spec.
  - apply reachable_any_inv. exact Hr.
  - exact Hnot.
Qed.

Lemma delete_present_spec (T : AVLTree I) (key : K) :
  state_inv false T -> In key (inorder (root T)) ->
  exists t' e1 v e2,
    delete T key = Returned t' (length T - 1) /\
    entries (root T) = e1 ++ (key, v) :: e2 /\
    entries t' = e1 ++ e2 /\
    ~ In key (inorder t').
Proof.
  intros (Ha & Hs & _) Hin.
  unfold delete.
  pose proof (delete_aux_spec I false (root T) key (length T) Ha Hs)
    as Hspec.
  destruct (delete_aux (root T) key (length T)) as [t' n'|e t' n'] eqn:E.
  - destruct Hspec as (_ & -> & _ & l1 & l2 & E1 & E2).
    destruct (delete_aux_entries false _ _ _ _ _ Ha Hs E)
      as (e1 & v & e2 & H1 & H2).
    exists t', e1, v, e2. repeat split; auto.
    rewrite E2. rewrite E1 in Hs. apply increasing_node in Hs.
    destruct Hs as (_ & _ & Hlo & Hhi).
    intros Hx. apply in_app_or in Hx. destruct Hx as [Hx|Hx].
    + specialize (Hlo key Hx). lia.
    + specialize (Hhi key Hx). lia.
  - destruct Hspec as (_ & _ & Hnot & _). contradiction.
Qed.

(** Deleting a key that is present returns, takes one from [length], and
    removes the pair of that key from the in-order sequence of pairs, which
    is otherwise unchanged; the key is then absent. *)
Theorem delete_present_removes (T : AVLTree I) (key : K) :
  reachable_any T -> In key (inorder (root T)) ->
  exists t' e1 v e2,
    delete T key = Returned t' (length T - 1) /\
    entries (root T) = e1 ++ (key, v) :: e2 /\
    entries t' = e1 ++ e2 /\
    ~ In key (inorder t').
Proof.
  intros Hr Hin. apply delete_present_spec.
  - apply reachable_any_inv. exact Hr.
  - exact Hin.
Qed.

(** Deleting a key that is absent raises [ValueError]; the keys, their
    order, the heights and the balance of what is left, and [length], are as
    before. *)
Theorem delete_absent_raises (T : AVLTree I) (key : K) :
  reachable_any T -> ~ In key (inorder (root T)) ->
  exists t',
    delete T key = Raised ValueError t' (length T) /\
    inorder t' = inorder (root T) /\
    height_of t' = height_of (root T) /\
    balanced t'.
Proof.
  intros Hr Hnot. destruct (reachable_any_inv I T Hr) as (Ha & Hs & _).
  unfold delete.
  pose proof (delete_aux_spec I false (root T) key (length T) Ha Hs)
    as Hspec.
  destruct (delete_aux (root T) key (length T)) as [t' n'|e t' n'] eqn:E.
  - destruct Hspec as (_ & _ & _ & l1 & l2 & E1 & _).
    exfalso. apply Hnot. rewrite E1. apply in_or_app. simpl. auto.
  - destruct Hspec as (-> & -> & _ & Ha' & Hi & Hh).
    exists t'. repeat split; auto.
    + rewrite <- (avl_true_height I false t' Ha'),
        <- (avl_true_height I false (root T) Ha). exact Hh.
    + apply (avl_balanced I false). exact Ha'.
Qed.

(** Inserting an absent key and deleting it again gives back the same
    in-order sequence of (key, item) pairs and the same [length]. *)
Theorem insert_delete_round_trip (T : AVLTree I) (key : K) (item : I) :
  reachable_any T -> ~ In key (inorder (root T)) ->
  exists t1 t2,
    insert T key item = Returned t1 (length T + 1) /\
    delete (mkTree t1 (length T + 1)) key = Returned t2 (length T) /\
    entries t2 = entries (root T).
Proof.
  intros Hr Hnot. pose proof (reachable_any_inv I T Hr) as Hinv.
  destruct (insert_absent_spec T key item Hinv Hnot)
    as (t1 & e1 & e2 & E & H1 & H2 & _).
  assert (Hr1 : state_inv false (mkTree t1 (length T + 1))).
  { change (mkTree t1 (length T + 1))
      with (state_of (Returned t1 (length T + 1))).
    rewrite <- E. apply insert_state_inv. exact Hinv. }
  assert (Hin : In key (inorder (root (mkTree t1 (length T + 1))))).
  { simpl. rewrite <- entries_keys, H2, map_app. apply in_or_app.
    simpl. auto. }
  destruct (delete_present_spec _ key Hr1 Hin)
    as (t2 & d1 & v & d2 & E' & D1 & D2 & _).
  exists t1, t2. split; [exact E|]. split.
  - rewrite E'. simpl. f_equal. lia.
  - simpl in D1. rewrite H2 in D1.
    destruct Hr1 as (_ & Hs1 & _). simpl in Hs1.
    rewrite <- entries_keys, H2 in Hs1.
    destruct (entries_split_unique _ _ _ _ _ _ _ Hs1 D1) as (<- & _ & <-).
    rewrite D2, H1. reflexivity.
Qed.

(** ** The query outside its range *)

Lemma kth_largest_helper_total (t : tree) (k : Z) :
  is_none t = false ->
  exists node, kth_largest_helper t k = Ok node /\ is_none node = false.
Proof.
  revert k. induction t as [|l IHl key v h lc rc r IHr]; intros k Hn.
  - discriminate.
  - cbn [kth_largest_helper].
    destruct (k =? _); [eexists; split; reflexivity|].
    destruct (k <? _).
    + destruct r as [|rl rk rv rh rlc rrc rr];
        [eexists; split; reflexivity|].
      apply IHr. reflexivity.
    + destruct l as [|ll lk lv lh llc lrc lr];
        [eexists; split; reflexivity|].
      apply IHl. reflexivity.
Qed.

(** On a tree that is not empty, [kth_largest] returns a node of the tree
    for every integer [k], in range or not; on the empty tree it returns
    [None] for [k = 1] and fails on an attribute of [None] for every other
    [k]. *)
Theorem kth_largest_any_rank (T : AVLTree I) (k : Z) :
  (is_none (root T) = false ->
   exists node,
     kth_largest T k = Ok node /\ is_none node = false /\
     subtree node (root T)) /\
  (is_none (root T) = true ->
   kth_largest T k = if k =? 1 then Ok Nil else Err AttributeError).
Proof.
  unfold kth_largest. split; intros Hn.
  - destruct (kth_largest_helper_total (root T) k Hn) as (node & E & Hnode).
    exists node. repeat split; auto.
    apply (kth_largest_helper_subtree I _ k). exact E.
  - destruct (root T); [reflexivity|discriminate].
Qed.

Lemma count_pos (t : tree) : is_none t = false -> 1 <= count t.
Proof.
  destruct t as [|l k v h lc rc r]; [discriminate|]. intros _.
  pose proof (count_nonneg I l). pose proof (count_nonneg I r).
  cbn [count]. lia.
Qed.

Lemma count_zero_nil (t : tree) : count t <= 0 -> t = Nil.
Proof.
  destruct t as [|l k v h lc rc r]; auto. intros H.
  pose proof (count_pos (Node l k v h lc rc r) eq_refl). lia.
Qed.

Lemma kth_largest_helper_low (t : tree) (k : Z) :
  avl_at true t -> is_none t = false -> k <= 1 ->
  exists node x rest,
    kth_largest_helper t k = Ok node /\ key_of node = Some x /\
    inorder t = rest ++ [x].
Proof.
  revert k. induction t as [|l IHl key v h lc rc r IHr]; intros k Ha Hn Hk.
  - discriminate.
  - pose proof (right_counter_count I l key v h lc rc r Ha) as Hrc.
    pose proof (count_nonneg I r) as Hcr.
    destruct Ha as (Hal & Har & _).
    cbn [kth_largest_helper]. rewrite Hrc.
    destruct (Z.eqb_spec k (count r + 1)) as [->|Hne].
    + assert (r = Nil) as -> by (apply count_zero_nil; lia).
      exists (Node l key v h lc rc Nil), key, (inorder l). auto.
    + destruct (Z.ltb_spec k (count r + 1)) as [Hlt|Hge]; [|lia].
      destruct r as [|rl rk rv rh rlc rrc rr].
      * exists (Node l key v h lc rc Nil), key, (inorder l). auto.
      * destruct (IHr k Har eq_refl Hk) as (node & x & rest & E & Hx & Hi).
        exists node, x, (inorder l ++ key :: rest).
        split; [exact E|]. split; [exact Hx|].
        simpl in Hi |- *. rewrite Hi. rewrite <- app_assoc. reflexivity.
Qed.

Lemma kth_largest_helper_high (t : tree) (k : Z) :
  avl_at true t -> is_none t = false -> count t <= k ->
  exists node x rest,
    kth_largest_helper t k = Ok node /\ key_of node = Some x /\
    inorder t = x :: rest.
Proof.
  revert k. induction t as [|l IHl key v h lc rc r IHr]; intros k Ha Hn Hk.
  - discriminate.
  - pose proof (right_counter_count I l key v h lc rc r Ha) as Hrc.
    pose proof (count_nonneg I r) as Hcr.
    pose proof (count_nonneg I l) as Hcl.
    destruct Ha as (Hal & Har & Hh & Hb & Hlc & Hrc').
    cbn [count] in Hk.
    cbn [kth_largest_helper]. rewrite Hrc.
    destruct (Z.eqb_spec k (count r + 1)) as [->|Hne].
    + assert (l = Nil) as -> by (apply count_zero_nil; lia).
      exists (Node Nil key v h lc rc r), key, (inorder r). auto.
    + destruct (Z.ltb_spec k (count r + 1)) as [Hlt|Hge]; [lia|].
      destruct l as [|ll lk lv lh llc lrc lr].
      * exists (Node Nil key v h lc rc r), key, (inorder r). auto.
      * destruct r as [|rl rk rv rh rlc rrc rr].
        -- destruct Hal as (Hall & Halr & Hlh & _).
           pose proof (avl_height I true ll Hall) as (? & ?).
           pose proof (avl_height I true lr Halr) as (? & ?).
           simpl in Hb.
           assert (ll = Nil) as ->
               by (apply (avl_height_nil I true); auto; lia).
           assert (lr = Nil) as ->
               by (apply (avl_height_nil I true); auto; lia).
           rewrite leaf_query.
           exists (Node Nil lk lv lh llc lrc Nil), lk, [key]. auto.
        -- rewrite (Hrc' eq_refl eq_refl).
           destruct (IHl (k - count (Node rl rk rv rh rlc rrc rr) - 1)
                         Hal eq_refl)
             as (node & x & rest & E & Hx & Hi); [lia|].
           exists node, x,
             (rest ++ key :: inorder (Node rl rk rv rh rlc rrc rr)).
           split; [exact E|]. split; [exact Hx|].
           simpl in Hi |- *. rewrite Hi. reflexivity.
Qed.

(** In a state reached by inserts and deletes that returned and holding at
    least one key, a rank of 1 or less is answered with the largest key and
    a rank of the number of keys or more with the smallest key. *)
Theorem kth_largest_clamps (T : AVLTree I) (k : Z) :
  reachable T -> is_none (root T) = false ->
  (k <= 1 ->
   exists node x,
     kth_largest T k = Ok node /\ key_of node = Some x /\
     In x (inorder (root T)) /\
     forall y, In y (inorder (root T)) -> y <= x) /\
  (length T <= k ->
   exists node x,
     kth_largest T k = Ok node /\ key_of node = Some x /\
     In x (inorder (root T)) /\
     forall y, In y (inorder (root T)) -> x <= y).
Proof.
  intros Hr Hn. destruct (reachable_inv I T Hr) as (Ha & Hs & Hlen).
  unfold kth_largest. split; intros Hk.
  - destruct (kth_largest_helper_low (root T) k Ha Hn Hk)
      as (node & x & rest & E & Hx & Hi).
    exists node, x. rewrite Hi in *. repeat split; auto.
    + apply in_or_app. simpl. auto.
    + intros y Hy. apply increasing_app in Hs.
      destruct Hs as (_ & _ & Hs). apply in_app_or in Hy.
      destruct Hy as [Hy|[<-|[]]]; [|lia].
      specialize (Hs y x Hy (or_introl eq_refl)). lia.
  - rewrite Hlen in Hk.
    destruct (kth_largest_helper_high (root T) k Ha Hn Hk)
      as (node & x & rest & E & Hx & Hi).
    exists node, x. rewrite Hi in *. repeat split; auto.
    + simpl. auto.
    + intros y [<-|Hy]; [lia|]. apply increasing_cons in Hs.
      destruct Hs as (_ & Hs). specialize (Hs y Hy). lia.
Qed.

(** ** The height is logarithmic in the number of keys *)

Lemma pow2_half_step (h : Z) : 2 <= h -> 2 ^ (h / 2) = 2 * 2 ^ ((h - 2) / 2).
Proof.
  intros Hh. replace h with ((h - 2) + 1 * 2) at 1 by lia.
  rewrite Z.div_add by lia.
  rewrite Z.pow_add_r; [lia| |lia].
  apply Z.div_pos; lia.
Qed.

Lemma avl_count_height (c : bool) (t : tree) :
  avl_at c t -> 2 ^ (get_height t / 2) <= count t + 1.
Proof.
  induction t as [|l IHl k v h lc rc r IHr].
  - intros _. simpl. lia.
  - intros (Hl & Hr & Hh & Hb & _).
    specialize (IHl Hl). specialize (IHr Hr).
    destruct (avl_height I c l Hl) as (Hl0 & _).
    destruct (avl_height I c r Hr) as (Hr0 & _).
    cbn [get_height count].
    destruct (Z.leb_spec 2 h) as [H2|H2].
    + rewrite pow2_half_step by assumption.
      assert (Hm : forall x, h - 2 <= x ->
                   2 ^ ((h - 2) / 2) <= 2 ^ (x / 2)).
      { intros x Hx. apply Z.pow_le_mono_r; [lia|].
        apply Z.div_le_mono; lia. }
      pose proof (Hm (get_height l) ltac:(lia)).
      pose proof (Hm (get_height r) ltac:(lia)).
      lia.
    + assert (h = 1) as -> by lia.
      change (2 ^ (1 / 2)) with 1.
      pose proof (count_nonneg I l). pose proof (count_nonneg I r). lia.
Qed.

(** In every state the operations can leave behind, a tree of true height
    [h] holds at least [2 ^ (h / 2) - 1] keys: the descent of
    [kth_largest], one level per step, is logarithmic in [length]. *)
Theorem height_logarithmic (T : AVLTree I) :
  reachable_any T -> 2 ^ (height_of (root T) / 2) <= length T + 1.
Proof.
  intros Hr. destruct (reachable_any_inv I T Hr) as (Ha & _ & Hlen).
  rewrite Hlen, <- (avl_true_height I false _ Ha).
  apply avl_count_height with false. exact Ha.
Qed.

End AVLTreeMore.

(** ** The further properties at the example states *)

Lemma Tspec_reachable_any : reachable_any Examples.Tspec.
Proof. apply reachable_is_any. exact Tspec_reachable. Qed.

Lemma insert_absent_adds_witness :
  exists t' e1 e2,
    insert Examples.Tspec 7 70 = Returned t' (length Examples.Tspec + 1) /\
    entries (root Examples.Tspec) = e1 ++ e2 /\
    entries t' = e1 ++ (7, 70) :: e2 /\
    (forall p, In p e1 -> fst p < 7) /\
    (forall p, In p e2 -> 7 < fst p).
Proof.
  apply (insert_absent_adds Z Examples.Tspec 7 70 Tspec_reachable_any).
  vm_compute. intros [H|[H|[H|[H|[H|[]]]]]]; discriminate H.
Defined.

Lemma delete_present_removes_witness :
  exists t' e1 v e2,
    delete Examples.Tspec 10 = Returned t' (length Examples.Tspec - 1) /\
    entries (root Examples.Tspec) = e1 ++ (10, v) :: e2 /\
    entries t' = e1 ++ e2 /\
    ~ In 10 (inorder t').
Proof.
  apply (delete_present_removes Z Examples.Tspec 10 Tspec_reachable_any).
  vm_compute. tauto.
Defined.

Lemma delete_absent_raises_witness :
  exists t',
    delete Examples.Tspec 7 = Raised ValueError t' (length Examples.Tspec) /\
    inorder t' = inorder (root Examples.Tspec) /\
    height_of t' = height_of (root Examples.Tspec) /\
    balanced t'.
Proof.
  apply (delete_absent_raises Z Examples.Tspec 7 Tspec_reachable_any).
  vm_compute. intros [H|[H|[H|[H|[H|[]]]]]]; discriminate H.
Defined.

Lemma insert_delete_round_trip_witness :
  exists t1 t2,
    insert Examples.Tspec 7 70 = Returned t1 (length Examples.Tspec + 1) /\
    delete (mkTree t1 (length Examples.Tspec + 1)) 7
    = Returned t2 (length Examples.Tspec) /\
    entries t2 = entries (root Examples.Tspec).
Proof.
  apply (insert_delete_round_trip Z Examples.Tspec 7 70 Tspec_reachable_any).
  vm_compute. intros [H|[H|[H|[H|[H|[]]]]]]; discriminate H.
Defined.

Lemma kth_largest_any_rank_witness :
  exists node,
    kth_largest Examples.Tspec 9 = Ok node /\ is_none node = false /\
    subtree node (root Examples.Tspec).
Proof.
  apply (proj1 (kth_largest_any_rank Z Examples.Tspec 9)). reflexivity.
Defined.

Lemma kth_largest_clamps_witness :
  exists node x,
    kth_largest Examples.Tspec 9 = Ok node /\ key_of node = Some x /\
    In x (inorder (root Examples.Tspec)) /\
    forall y, In y (inorder (root Examples.Tspec)) -> x <= y.
Proof.
  apply (proj2 (kth_largest_clamps Z Examples.Tspec 9 Tspec_reachable
                  eq_refl)).
  vm_compute. discriminate.
Defined.

Lemma height_logarithmic_witness :
  2 ^ (height_of (root Examples.Tspec) / 2) <= length Examples.Tspec + 1.
Proof.
  apply (height_logarithmic Z Examples.Tspec Tspec_reachable_any).
Defined.

(** * Further properties of the rank source *)

Lemma int2_bound_from (l : list ascii) (acc : Z) :
  0 <= acc ->
  0 <= fold_left
         (fun acc c => 2 * acc + (if RandomGen.is_one c then 1 else 0)) l acc
    < (acc + 1) * 2 ^ Z.of_nat (List.length l).
Proof.
  revert acc. induction l as [|c l IH]; intros acc Hacc.
  - simpl. lia.
  - cbn [fold_left List.length].
    set (acc' := 2 * acc + (if RandomGen.is_one c then 1 else 0)).
    assert (Hacc' : 0 <= acc' <= 2 * acc + 1)
      by (unfold acc'; destruct (RandomGen.is_one c); lia).
    specialize (IH acc' (proj1 Hacc')).
    rewrite Nat2Z.inj_succ, Z.pow_succ_r by lia.
    assert (0 < 2 ^ Z.of_nat (List.length l)) by (apply Z.pow_pos_nonneg; lia).
    nia.
Qed.

Lemma int2_bound (l : list ascii) :
  0 <= RandomGen.int2 l < 2 ^ Z.of_nat (List.length l).
Proof.
  unfold RandomGen.int2. pose proof (int2_bound_from l 0 ltac:(lia)). lia.
Qed.

Lemma next_range (seed : Z) : 0 <= RandomGen.next seed < 2 ^ 32.
Proof.
  unfold RandomGen.next, RandomGen.lcg. apply Z.mod_pos_bound. lia.
Qed.

(** Whatever [k] of at least 1 is asked for, [randint] returns no number
    above 65536, the sixteen majority digits being all it draws from: for
    [k] above 65536 the numbers from 65537 to [k] are never returned.  The
    generator is left five steps on, at a seed below [2 ^ 32]. *)
Theorem randint_at_most_65536 (k seed : Z) :
  1 <= k ->
  exists n seed',
    RandomGen.randint k seed = (Ok n, seed') /\
    1 <= n <= Z.min k 65536 /\
    seed' = RandomGen.next
              (RandomGen.next
                 (RandomGen.next (RandomGen.next (RandomGen.next seed)))) /\
    0 <= seed' < 2 ^ 32.
Proof.
  intros Hk. unfold RandomGen.randint.
  destruct (Z.eqb_spec k 0) as [->|_]; [lia|].
  unfold RandomGen.next5. do 2 eexists. split; [reflexivity|].
  split; [|split; [reflexivity|apply next_range]].
  match goal with
  | |- 1 <= RandomGen.int2 ?l mod k + 1 <= _ =>
      pose proof (int2_bound l) as Hb;
      rewrite length_map, length_seq in Hb;
      change (2 ^ Z.of_nat 16) with 65536 in Hb;
      pose proof (Z.mod_pos_bound (RandomGen.int2 l) k ltac:(lia));
      pose proof (Z.mod_le (RandomGen.int2 l) k ltac:(lia) ltac:(lia))
  end.
  lia.
Qed.

Lemma randint_at_most_65536_witness :
  exists n seed',
    RandomGen.randint 100000 7 = (Ok n, seed') /\
    1 <= n <= Z.min 100000 65536 /\
    seed' = RandomGen.next
              (RandomGen.next
                 (RandomGen.next (RandomGen.next (RandomGen.next 7)))) /\
    0 <= seed' < 2 ^ 32.
Proof.
  apply (randint_at_most_65536 100000 7). lia.
Defined.

(** Only [k = 0] is refused: a negative [k] raises nothing and gives a
    number between [k + 2] and 1. *)
Theorem randint_negative (k seed : Z) :
  k < 0 ->
  exists n seed',
    RandomGen.randint k seed = (Ok n, seed') /\ k + 2 <= n <= 1.
Proof.
  intros Hk. unfold RandomGen.randint.
  destruct (Z.eqb_spec k 0) as [->|_]; [lia|].
  unfold RandomGen.next5. do 2 eexists. split; [reflexivity|].
  match goal with
  | |- _ <= ?x mod k + 1 <= _ =>
      pose proof (Z.mod_neg_bound x k ltac:(lia))
  end.
  lia.
Qed.

Lemma randint_negative_witness :
  exists n seed',
    RandomGen.randint (-3) 0 = (Ok n, seed') /\ -3 + 2 <= n <= 1.
Proof.
  apply (randint_negative (-3) 0). lia.
Defined.

(** * Properties of the hashes and of the potion table *)

Lemma good_hash_from_range (value : Z) (potion_name : str) (tablesize : Z) :
  0 < tablesize -> 0 <= value < tablesize ->
  exists v,
    Potion.good_hash_from value potion_name tablesize = Done v /\
    0 <= v < tablesize.
Proof.
  intros Hsz. revert value.
  induction potion_name as [|char rest IH]; intros value Hv.
  - exists value. auto.
  - cbn [Potion.good_hash_from]. unfold py_mod.
    destruct (Z.eqb_spec tablesize 0); [lia|].
    apply IH. apply Z.mod_pos_bound. exact Hsz.
Qed.

Lemma py_index_slot {A : Type} (l : list A) (p : Z) (d : A) :
  0 <= p < Z.of_nat (List.length l) ->
  py_index l p = Done (nth (Z.to_nat p) l d).
Proof.
  intros Hp. unfold py_index.
  destruct (Z.ltb_spec p 0); [lia|]. cbv zeta.
  destruct (Z.ltb_spec p 0); [lia|].
  destruct (nth_error l (Z.to_nat p)) as [a|] eqn:E.
  - rewrite (nth_error_nth _ _ d E). reflexivity.
  - apply nth_error_None in E. lia.
Qed.

Lemma list_set_length {A : Type} (l : list A) (n : nat) (a : A) :
  List.length (list_set l n a) = List.length l.
Proof.
  revert n. induction l as [|b l IH]; intros [|n]; simpl; auto.
Qed.

Lemma list_set_nth_same {A : Type} (l : list A) (n : nat) (a d : A) :
  (n < List.length l)%nat -> nth n (list_set l n a) d = a.
Proof.
  revert n. induction l as [|b l IH]; intros [|n] Hn; simpl in *;
    try lia; auto.
  apply IH. lia.
Qed.

Lemma list_set_nth_other {A : Type} (l : list A) (n m : nat) (a d : A) :
  n <> m -> nth m (list_set l n a) d = nth m l d.
Proof.
  revert n m. induction l as [|b l IH]; intros [|n] [|m] Hnm; simpl;
    auto; try lia.
Qed.

Section HashTableFacts.

Import HashTable.

Variable T : Type.
#[local] Abbreviation state := (LinearProbePotionTable T).
#[local] Abbreviation slots := (list (option (str * T))).

Lemma str_eqb_refl (a : str) : str_eqb a a = true.
Proof. unfold str_eqb. destruct (list_eq_dec Z.eq_dec a a); congruence. Qed.

Lemma str_eqb_neq (a b : str) : a <> b -> str_eqb a b = false.
Proof. unfold str_eqb. destruct (list_eq_dec Z.eq_dec a b); congruence. Qed.

Lemma str_eqb_true (a b : str) : str_eqb a b = true -> a = b.
Proof.
  unfold str_eqb. destruct (list_eq_dec Z.eq_dec a b); congruence.
Qed.

Lemma same_contents_refl (s : state) : same_contents s s.
Proof. repeat split. Qed.

Lemma same_contents_trans (s1 s2 s3 : state) :
  same_contents s1 s2 -> same_contents s2 s3 -> same_contents s1 s3.
Proof.
  intros (A1 & A2 & A3 & A4) (B1 & B2 & B3 & B4).
  repeat split; congruence.
Qed.

Lemma same_contents_hash (s s' : state) (key : str) :
  same_contents s s' -> hash s' key = hash s key.
Proof. intros (_ & H1 & H2 & _). unfold hash. rewrite H1, H2. reflexivity. Qed.

Lemma same_contents_len (s s' : state) :
  same_contents s s' -> len_table s' = len_table s.
Proof. intros (_ & _ & _ & H). unfold len_table. rewrite H. reflexivity. Qed.

Lemma hash_range (s : state) (key : str) (h : Z) :
  well_formed s -> hash s key = Done h -> 0 <= h < len_table s.
Proof.
  intros (Hsz & Hpos & _) Hh. rewrite <- Hsz. unfold hash in Hh.
  destruct (hash_key s).
  - destruct (good_hash_from_range 0 key (table_size s) Hpos ltac:(lia))
      as (v & E & Hv).
    unfold Potion.good_hash in Hh. rewrite E in Hh.
    injection Hh as <-. exact Hv.
  - unfold Potion.bad_hash in Hh. destruct key as [|char rest];
      [discriminate|].
    unfold py_mod in Hh. destruct (Z.eqb_spec (table_size s) 0); [lia|].
    injection Hh as <-. apply Z.mod_pos_bound. exact Hpos.
Qed.

(** ** The probe loop *)

Lemma round_stats_contents (s : state) (c : bool) (pc : Z) :
  same_contents s (round_stats s c pc).
Proof.
  unfold round_stats.
  destruct (andb c (pc =? 1)); destruct (_ <? pc); repeat split.
Qed.

Lemma probe_loop_step (fuel : nat) (s : state) (key : str) (b : bool)
      (pos : Z) (c : bool) (pc : Z) :
  probe_loop (S fuel) s key b pos c pc
  = let s1 := round_stats s c pc in
    match py_index (table s1) pos with
    | Fail e => (s1, Fail e)
    | Done None => if b then (s1, Done (Some pos)) else (s1, Fail KeyError)
    | Done (Some (k, _)) =>
        if str_eqb k key then (s1, Done (Some pos))
        else probe_loop fuel (set_probe_total s1 (probe_total s1 + 1)) key b
               ((pos + 1) mod len_table s1) true (pc + 1)
    end.
Proof. reflexivity. Qed.

Lemma probe_loop_contents (fuel : nat) (s : state) (key : str) (b : bool)
      (pos : Z) (c : bool) (pc : Z) :
  same_contents s (fst (probe_loop fuel s key b pos c pc)).
Proof.
  revert s pos c pc. induction fuel as [|fuel IH]; intros s pos c pc.
  - apply same_contents_refl.
  - rewrite probe_loop_step. cbv zeta.
    pose proof (round_stats_contents s c pc) as H1.
    destruct (py_index _ pos) as [[[k d]|]|e]; simpl; auto.
    + destruct (str_eqb k key); simpl; auto.
      eapply same_contents_trans; [|apply IH].
      eapply same_contents_trans; [exact H1|]. repeat split.
    + destruct b; simpl; auto.
Qed.

Lemma mod_shift (pos i len : Z) :
  ((pos + 1) mod len + i) mod len = (pos + (i + 1)) mod len.
Proof.
  rewrite Zplus_mod_idemp_l. f_equal. lia.
Qed.

Lemma passed_shift (tbl : slots) (key k : str) (d : T) (pos j : Z) :
  0 <= pos < Z.of_nat (List.length tbl) -> 0 <= j ->
  slot tbl pos = Some (k, d) -> k <> key ->
  passed tbl key ((pos + 1) mod Z.of_nat (List.length tbl)) j ->
  passed tbl key pos (j + 1).
Proof.
  intros Hpos Hj Hslot Hk Hp i Hi.
  destruct (Z.eq_dec i 0) as [->|Hi0].
  - rewrite Z.add_0_r, Z.mod_small by lia. eauto.
  - destruct (Hp (i - 1) ltac:(lia)) as (k' & d' & E & Hk').
    rewrite mod_shift in E. replace (i - 1 + 1) with i in E by lia. eauto.
Qed.

Lemma probe_sound (fuel : nat) (s : state) (tbl : slots) (key : str)
      (b : bool) (pos : Z) (c : bool) (pc : Z) :
  table s = tbl -> 0 <= pos < Z.of_nat (List.length tbl) ->
  match snd (probe_loop fuel s key b pos c pc) with
  | Done (Some q) =>
      exists j, 0 <= j < Z.of_nat fuel /\
        q = (pos + j) mod Z.of_nat (List.length tbl) /\
        passed tbl key pos j /\
        ((exists d, slot tbl q = Some (key, d)) \/
         (b = true /\ slot tbl q = None))
  | Done None => passed tbl key pos (Z.of_nat fuel)
  | Fail e =>
      e = KeyError /\ b = false /\
      exists j, 0 <= j < Z.of_nat fuel /\ passed tbl key pos j /\
        slot tbl ((pos + j) mod Z.of_nat (List.length tbl)) = None
  end.
Proof.
  revert s pos c pc. induction fuel as [|fuel IH]; intros s pos c pc Ht Hpos.
  - simpl. intros i Hi. lia.
  - rewrite probe_loop_step. cbv zeta.
    destruct (round_stats_contents s c pc) as (_ & _ & _ & Ht1).
    rewrite Ht1, Ht. rewrite (py_index_slot tbl pos None Hpos).
    fold (slot tbl pos).
    assert (Hzero : (pos + 0) mod Z.of_nat (List.length tbl) = pos)
      by (rewrite Z.add_0_r; apply Z.mod_small; exact Hpos).
    assert (Hp0 : passed tbl key pos 0) by (intros i Hi; lia).
    destruct (slot tbl pos) as [[k d]|] eqn:Eslot.
    + destruct (str_eqb k key) eqn:Ek.
      * apply str_eqb_true in Ek. subst k. simpl.
        exists 0. rewrite Hzero. repeat split; eauto; lia.
      * assert (Hk : k <> key).
        { intros ->. rewrite str_eqb_refl in Ek. discriminate. }
        set (s2 := set_probe_total _ _).
        assert (Ht2 : table s2 = tbl) by (unfold s2; simpl; congruence).
        assert (Hlen : len_table (round_stats s c pc)
                       = Z.of_nat (List.length tbl))
          by (unfold len_table; rewrite Ht1, Ht; reflexivity).
        rewrite Hlen.
        assert (Hpos' : 0 <= (pos + 1) mod Z.of_nat (List.length tbl)
                        < Z.of_nat (List.length tbl))
          by (apply Z.mod_pos_bound; lia).
        specialize (IH s2 _ true (pc + 1) Ht2 Hpos').
        destruct (snd (probe_loop fuel s2 key b _ true (pc + 1)))
          as [[q|]|e].
        -- destruct IH as (j & Hj & Hq & Hpass & Hslot).
           exists (j + 1). rewrite mod_shift in Hq.
           repeat split; auto; try lia.
           apply passed_shift with k d; auto; lia.
        -- replace (Z.of_nat (S fuel)) with (Z.of_nat fuel + 1) by lia.
           apply passed_shift with k d; auto; lia.
        -- destruct IH as (-> & -> & j & Hj & Hpass & Hslot).
           repeat split; auto. exists (j + 1).
           rewrite mod_shift in Hslot.
           repeat split; auto; try lia.
           apply passed_shift with k d; auto; lia.
    + destruct b; simpl.
      * exists 0. rewrite Hzero. repeat split; auto; lia.
      * repeat split; auto. exists 0. rewrite Hzero.
        repeat split; auto; lia.
Qed.

(** Two probes of one key from one place stop at the same round. *)
Lemma probe_stop_unique (tbl : slots) (key : str) (pos j j' : Z) :
  0 <= j -> 0 <= j' ->
  passed tbl key pos j -> passed tbl key pos j' ->
  (forall k d, slot tbl ((pos + j) mod Z.of_nat (List.length tbl))
               = Some (k, d) -> k = key) ->
  (forall k d, slot tbl ((pos + j') mod Z.of_nat (List.length tbl))
               = Some (k, d) -> k = key) ->
  j = j'.
Proof.
  intros Hj Hj' Hp Hp' Hs Hs'.
  destruct (Z.lt_trichotomy j j') as [Hlt|[->|Hlt]]; auto.
  - destruct (Hp' j ltac:(lia)) as (k & d & E & Hk).
    exfalso. apply Hk. eapply Hs. exact E.
  - destruct (Hp j' ltac:(lia)) as (k & d & E & Hk).
    exfalso. apply Hk. eapply Hs'. exact E.
Qed.

Lemma probe_found (fuel : nat) (s : state) (tbl : slots) (key : str)
      (b : bool) (pos : Z) (c : bool) (pc : Z) (j : Z) (d : T) :
  table s = tbl -> 0 <= pos < Z.of_nat (List.length tbl) ->
  0 <= j < Z.of_nat fuel -> passed tbl key pos j ->
  slot tbl ((pos + j) mod Z.of_nat (List.length tbl)) = Some (key, d) ->
  snd (probe_loop fuel s key b pos c pc)
  = Done (Some ((pos + j) mod Z.of_nat (List.length tbl))).
Proof.
  intros Ht Hpos Hj Hpass Hslot.
  pose proof (probe_sound fuel s tbl key b pos c pc Ht Hpos) as H.
  assert (Hkey : forall k d0,
             slot tbl ((pos + j) mod Z.of_nat (List.length tbl))
             = Some (k, d0) -> k = key)
    by (intros k d0 E; congruence).
  destruct (snd (probe_loop fuel s key b pos c pc)) as [[q|]|e].
  - destruct H as (j' & Hj' & -> & Hpass' & Hq).
    assert (j = j'); [|subst; reflexivity].
    apply (probe_stop_unique tbl key pos); auto; try lia.
    intros k d0 E. destruct Hq as [(d1 & E1)|(_ & E1)]; congruence.
  - destruct (H j Hj) as (k & d0 & E & Hk). congruence.
  - destruct H as (_ & _ & j' & Hj' & Hpass' & Hnone).
    assert (j = j'); [|subst; congruence].
    apply (probe_stop_unique tbl key pos); auto; try lia.
    intros k d0 E. congruence.
Qed.

(** ** Slots *)

Lemma mod_distinct (h i j len : Z) :
  0 <= i < j -> j < len -> (h + i) mod len <> (h + j) mod len.
Proof.
  intros Hi Hj E.
  assert (H : ((h + j) - (h + i)) mod len = 0).
  { rewrite Zminus_mod, E, Z.sub_diag. apply Z.mod_0_l. lia. }
  replace (h + j - (h + i)) with (j - i) in H by lia.
  rewrite Z.mod_small in H; lia.
Qed.

Lemma mod_cover (h p len : Z) :
  0 <= h < len -> 0 <= p < len ->
  exists i, 0 <= i < len /\ p = (h + i) mod len.
Proof.
  intros Hh Hp. exists ((p - h) mod len). split.
  - apply Z.mod_pos_bound. lia.
  - rewrite Zplus_mod_idemp_r. replace (h + (p - h)) with p by lia.
    symmetry. apply Z.mod_small. exact Hp.
Qed.

Lemma stored_slot (tbl : slots) (key : str) (d : T) :
  stored tbl key d <->
  exists p, 0 <= p < Z.of_nat (List.length tbl) /\
            slot tbl p = Some (key, d).
Proof.
  unfold stored, slot. split.
  - intros H. apply (In_nth _ _ None) in H. destruct H as (n & Hn & E).
    exists (Z.of_nat n). rewrite Nat2Z.id. split; [lia|exact E].
  - intros (p & Hp & E). rewrite <- E. apply nth_In. lia.
Qed.

Lemma slot_set_same (tbl : slots) (q : Z) (a : option (str * T)) :
  0 <= q < Z.of_nat (List.length tbl) ->
  slot (list_set tbl (Z.to_nat q) a) q = a.
Proof. intros Hq. unfold slot. apply list_set_nth_same. lia. Qed.

Lemma slot_set_other (tbl : slots) (q p : Z) (a : option (str * T)) :
  0 <= q -> 0 <= p -> p <> q ->
  slot (list_set tbl (Z.to_nat q) a) p = slot tbl p.
Proof. intros Hq Hp Hne. unfold slot. apply list_set_nth_other. lia. Qed.

Lemma occupied_bound (tbl : slots) :
  0 <= occupied tbl <= Z.of_nat (List.length tbl).
Proof.
  induction tbl as [|[x|] tbl IH]; cbn [occupied List.length]; lia.
Qed.

Lemma exists_empty (tbl : slots) :
  occupied tbl < Z.of_nat (List.length tbl) ->
  exists p, 0 <= p < Z.of_nat (List.length tbl) /\ slot tbl p = None.
Proof.
  unfold slot. induction tbl as [|[x|] tbl IH]; cbn [occupied List.length].
  - lia.
  - intros H. destruct IH as (p & Hp & E); [lia|].
    exists (p + 1). split; [lia|].
    replace (Z.to_nat (p + 1)) with (S (Z.to_nat p)) by lia. exact E.
  - intros _. exists 0. split; [lia|reflexivity].
Qed.

Lemma occupied_full (tbl : slots) (p : Z) :
  occupied tbl = Z.of_nat (List.length tbl) ->
  0 <= p < Z.of_nat (List.length tbl) -> slot tbl p <> None.
Proof.
  intros Hfull Hp Hnone.
  unfold slot in Hnone. revert p Hfull Hp Hnone.
  induction tbl as [|[x|] tbl IH]; cbn [occupied List.length];
    intros p Hfull Hp Hnone.
  - lia.
  - destruct (Z.eq_dec p 0) as [->|Hp0]; [discriminate|].
    apply (IH (p - 1)); try lia.
    replace (Z.to_nat p) with (S (Z.to_nat (p - 1))) in Hnone by lia.
    exact Hnone.
  - pose proof (occupied_bound tbl). lia.
Qed.

Lemma occupied_set (tbl : slots) (n : nat) (x : str * T) :
  (n < List.length tbl)%nat ->
  occupied (list_set tbl n (Some x))
  = occupied tbl + match nth n tbl None with None => 1 | Some _ => 0 end.
Proof.
  revert n. induction tbl as [|[y|] tbl IH]; intros [|n] Hn;
    cbn [occupied List.length list_set nth] in *; try lia.
  - rewrite IH by lia. lia.
  - rewrite IH by lia. lia.
Qed.

Lemma passed_set_other (tbl : slots) (key' newkey : str) (newdata : T)
      (q pos j : Z) :
  0 <= q < Z.of_nat (List.length tbl) ->
  newkey <> key' -> passed tbl key' pos j ->
  passed (list_set tbl (Z.to_nat q) (Some (newkey, newdata))) key' pos j.
Proof.
  intros Hq Hne Hp i Hi. rewrite list_set_length.
  destruct (Hp i Hi) as (k & d & E & Hk).
  set (p := (pos + i) mod Z.of_nat (List.length tbl)) in *.
  assert (Hpr : 0 <= p < Z.of_nat (List.length tbl))
    by (apply Z.mod_pos_bound; lia).
  destruct (Z.eq_dec p q) as [->|Hpq].
  - rewrite slot_set_same by assumption. eauto.
  - rewrite slot_set_other by lia. eauto.
Qed.

Lemma passed_set_self (tbl : slots) (key : str) (a : option (str * T))
      (h j : Z) :
  0 <= j < Z.of_nat (List.length tbl) ->
  passed tbl key h j ->
  passed (list_set tbl
            (Z.to_nat ((h + j) mod Z.of_nat (List.length tbl))) a)
         key h j.
Proof.
  intros Hj Hp i Hi. rewrite list_set_length.
  destruct (Hp i Hi) as (k & d & E & Hk).
  assert (Hq : 0 <= (h + j) mod Z.of_nat (List.length tbl)
               < Z.of_nat (List.length tbl))
    by (apply Z.mod_pos_bound; lia).
  assert (Hpr : 0 <= (h + i) mod Z.of_nat (List.length tbl)
                < Z.of_nat (List.length tbl))
    by (apply Z.mod_pos_bound; lia).
  rewrite slot_set_other; eauto; try lia.
  apply mod_distinct; lia.
Qed.

(** ** The probe from the hash of a key *)

Lemma linear_probe_spec (s : state) (key : str) (b : bool) (h : Z) :
  well_formed s -> hash s key = Done h ->
  (b = true -> count s <> len_table s) ->
  exists s1 r,
    linear_probe s key b = (s1, r) /\ same_contents s s1 /\
    match r with
    | Done (Some q) =>
        0 <= q < len_table s /\
        exists j, 0 <= j < len_table s /\
          q = (h + j) mod len_table s /\
          passed (table s) key h j /\
          ((exists d, slot (table s) q = Some (key, d)) \/
           (b = true /\ slot (table s) q = None))
    | Done None => passed (table s) key h (len_table s)
    | Fail e =>
        e = KeyError /\ b = false /\
        exists j, 0 <= j < len_table s /\ passed (table s) key h j /\
          slot (table s) ((h + j) mod len_table s) = None
    end.
Proof.
  intros Hwf Hh Hb. pose proof (hash_range s key h Hwf Hh) as Hr.
  unfold linear_probe. rewrite Hh.
  assert (Hfull : andb b (is_full s) = false).
  { destruct b; auto. unfold is_full. simpl.
    apply Z.eqb_neq. auto. }
  rewrite Hfull.
  pose proof (probe_loop_contents (List.length (table s)) s key b h false 0)
    as Hc.
  pose proof (probe_sound (List.length (table s)) s (table s) key b h false 0
                eq_refl Hr) as Hs.
  destruct (probe_loop (List.length (table s)) s key b h false 0)
    as [s1 r].
  exists s1, r. simpl in Hc, Hs. split; [reflexivity|]. split; [exact Hc|].
  fold (len_table s) in Hs.
  destruct r as [[q|]|e]; auto.
  destruct Hs as (j & Hj & Hq & Hrest). split; [|eauto].
  rewrite Hq. apply Z.mod_pos_bound. lia.
Qed.

Lemma placed_unique (s : state) (key : str) (p p' : Z) :
  placed s key p -> placed s key p' -> p = p'.
Proof.
  intros (h & j & d & Hh & Hj & -> & Hp & Hs)
         (h' & j' & d' & Hh' & Hj' & -> & Hp' & Hs').
  assert (h' = h) as -> by congruence.
  assert (j = j'); [|subst; reflexivity].
  apply (probe_stop_unique (table s) key h); auto; try lia.
  - intros k d0 E. fold (len_table s) in E. congruence.
  - intros k d0 E. fold (len_table s) in E. congruence.
Qed.

(** ** Reading *)

Lemma getitem_slot (s : state) (key : str) (d : T) (p : Z) :
  well_formed s -> 0 <= p < Z.of_nat (List.length (table s)) ->
  slot (table s) p = Some (key, d) ->
  exists s', getitem s key = (s', Done d) /\ same_contents s s'.
Proof.
  intros Hwf Hp Hslot.
  pose proof Hwf as (_ & _ & _ & Hpl).
  destruct (Hpl p key d Hp Hslot) as (h & j & d' & Hh & Hj & Hpj & Hpass & _).
  destruct (linear_probe_spec s key false h Hwf Hh ltac:(discriminate))
    as (s1 & r & E & Hc & Hr).
  unfold getitem. rewrite E.
  pose proof Hc as (_ & _ & _ & Ht).
  destruct r as [[q|]|e].
  - destruct Hr as (Hq & j' & Hj' & Hqj & Hpass' & [(d0 & Hs0)|(Hf & _)]);
      [|discriminate].
    assert (j = j').
    { apply (probe_stop_unique (table s) key h); auto; try lia.
      - intros k d1 E1. fold (len_table s) in E1. congruence.
      - intros k d1 E1. fold (len_table s) in E1. congruence. }
    subst j'. assert (q = p) as -> by congruence.
    rewrite Ht, (py_index_slot (table s) p None Hp).
    fold (slot (table s) p). rewrite Hslot. eauto.
  - destruct (Hr j Hj) as (k & d0 & E0 & Hk).
    fold (len_table s) in E0. congruence.
  - destruct Hr as (_ & _ & j' & Hj' & Hpass' & Hnone).
    assert (j = j'); [|subst; congruence].
    apply (probe_stop_unique (table s) key h); auto; try lia.
    + intros k d1 E1. fold (len_table s) in E1. congruence.
    + intros k d1 E1. fold (len_table s) in E1. congruence.
Qed.

(** In a well-formed table every pair stored is read back by its key. *)
Theorem getitem_stored (s : state) (key : str) (d : T) :
  well_formed s -> stored (table s) key d ->
  exists s', getitem s key = (s', Done d) /\ same_contents s s'.
Proof.
  intros Hwf Hst. apply stored_slot in Hst. destruct Hst as (p & Hp & Hslot).
  apply getitem_slot with p; assumption.
Qed.

Lemma getitem_absent_spec (s : state) (key : str) (h : Z) :
  well_formed s -> count s < len_table s -> hash s key = Done h ->
  (forall d, ~ stored (table s) key d) ->
  exists s', getitem s key = (s', Fail KeyError) /\ same_contents s s'.
Proof.
  intros Hwf Hroom Hh Habs.
  pose proof (hash_range s key h Hwf Hh) as Hhr.
  destruct (linear_probe_spec s key false h Hwf Hh ltac:(discriminate))
    as (s1 & r & E & Hc & Hr).
  unfold getitem. rewrite E.
  destruct r as [[q|]|e].
  - destruct Hr as (Hq & j & _ & _ & _ & [(d & Hs)|(Hf & _)]);
      [|discriminate].
    exfalso. apply (Habs d). apply stored_slot. eauto.
  - destruct Hwf as (_ & _ & Hcount & _).
    destruct (exists_empty (table s)) as (p & Hp & Hnone).
    { fold (len_table s). lia. }
    destruct (mod_cover h p (len_table s) Hhr Hp) as (i & Hi & Hpi).
    destruct (Hr i Hi) as (k & d & E0 & _).
    fold (len_table s) in E0. congruence.
  - destruct Hr as (-> & _). eauto.
Qed.

(** ** Writing *)

Lemma hash_same (s s' : state) (key : str) :
  hash_key s' = hash_key s -> table_size s' = table_size s ->
  hash s' key = hash s key.
Proof. intros H1 H2. unfold hash. rewrite H1, H2. reflexivity. Qed.

Lemma set_well_formed (s s' : state) (key : str) (data : T) (h j q : Z) :
  well_formed s -> hash s key = Done h ->
  0 <= j < len_table s -> q = (h + j) mod len_table s ->
  passed (table s) key h j ->
  (slot (table s) q = None \/ exists d0, slot (table s) q = Some (key, d0)) ->
  hash_key s' = hash_key s -> table_size s' = table_size s ->
  table s' = list_set (table s) (Z.to_nat q) (Some (key, data)) ->
  count s' = count s + match slot (table s) q with
                       | None => 1
                       | Some _ => 0
                       end ->
  well_formed s'.
Proof.
  intros Hwf Hh Hj Hq Hpass Hold Hhk Hts Htbl Hcnt.
  pose proof Hwf as (Hsz & Hpos & Hocc & Hpl).
  assert (Hqr : 0 <= q < len_table s)
    by (rewrite Hq; apply Z.mod_pos_bound; lia).
  assert (Hlen : len_table s' = len_table s)
    by (unfold len_table; rewrite Htbl, list_set_length; reflexivity).
  split; [congruence|]. split; [congruence|]. split.
  - rewrite Hcnt, Htbl, occupied_set by (unfold len_table in Hqr; lia).
    rewrite Hocc. reflexivity.
  - intros p k d Hp Hslot. rewrite Hlen in Hp. rewrite Htbl in Hslot.
    destruct (Z.eq_dec p q) as [->|Hpq].
    + rewrite slot_set_same in Hslot by exact Hqr.
      injection Hslot as <- <-.
      exists h, j, data. rewrite Hlen, Htbl.
      rewrite (hash_same s s') by assumption.
      repeat split; auto; try lia.
      * rewrite Hq. apply passed_set_self; assumption.
      * apply slot_set_same. exact Hqr.
    + rewrite slot_set_other in Hslot by lia.
      pose proof (Hpl p k d Hp Hslot) as Hplaced.
      assert (Hk : key <> k).
      { intros <-. destruct Hold as [Hnone|(d0 & Hsome)].
        - destruct Hplaced as (h' & j' & d' & Hh' & Hj' & Hp' & Hpass' & Hs').
          assert (h' = h) as -> by congruence.
          assert (j = j').
          { apply (probe_stop_unique (table s) key h); auto; try lia.
            - intros k0 d1 E1. fold (len_table s) in E1. congruence.
            - intros k0 d1 E1. fold (len_table s) in E1. congruence. }
          subst j'. congruence.
        - apply Hpq. apply (placed_unique s key); auto.
          apply (Hpl q key d0 Hqr Hsome). }
      destruct Hplaced as (h' & j' & d' & Hh' & Hj' & Hp' & Hpass' & Hs').
      exists h', j', d'. rewrite Hlen, Htbl.
      rewrite (hash_same s s') by assumption.
      repeat split; auto; try lia.
      * apply passed_set_other; assumption.
      * rewrite slot_set_other by lia. exact Hs'.
Qed.

Lemma stored_set_other (tbl : slots) (key k : str) (data d : T) (q : Z) :
  0 <= q < Z.of_nat (List.length tbl) ->
  (slot tbl q = None \/ exists d0, slot tbl q = Some (key, d0)) ->
  k <> key ->
  (stored (list_set tbl (Z.to_nat q) (Some (key, data))) k d
   <-> stored tbl k d).
Proof.
  intros Hq Hold Hk. rewrite !stored_slot, list_set_length. split.
  - intros (p & Hp & E). exists p. split; [exact Hp|].
    destruct (Z.eq_dec p q) as [->|Hpq].
    + rewrite slot_set_same in E by exact Hq. congruence.
    + rewrite slot_set_other in E by lia. exact E.
  - intros (p & Hp & E). exists p. split; [exact Hp|].
    destruct (Z.eq_dec p q) as [->|Hpq].
    + destruct Hold as [Hnone|(d0 & Hsome)]; congruence.
    + rewrite slot_set_other by lia. exact E.
Qed.

Lemma setitem_spec (s : state) (key : str) (data : T) (h : Z) :
  well_formed s -> count s < len_table s -> hash s key = Done h ->
  exists s',
    setitem s key data = (s', Done tt) /\ well_formed s' /\
    hash_key s' = hash_key s /\ table_size s' = table_size s /\
    stored (table s') key data /\
    (forall k d, k <> key ->
       (stored (table s') k d <-> stored (table s) k d)) /\
    ((exists d0, stored (table s) key d0) -> count s' = count s) /\
    ((forall d0, ~ stored (table s) key d0) -> count s' = count s + 1).
Proof.
  intros Hwf Hroom Hh.
  pose proof (hash_range s key h Hwf Hh) as Hhr.
  destruct (linear_probe_spec s key true h Hwf Hh ltac:(lia))
    as (s1 & r & E & Hc & Hr).
  unfold setitem.
  destruct (Z.eqb_spec (count s) (len_table s)) as [Heq|_]; [lia|].
  rewrite E. pose proof Hc as (Hc1 & Hc2 & Hc3 & Hc4).
  destruct r as [[q|]|e].
  2:{ exfalso. destruct Hwf as (_ & _ & Hcount & _).
      destruct (exists_empty (table s)) as (p & Hp & Hnone).
      { fold (len_table s). lia. }
      destruct (mod_cover h p (len_table s) Hhr Hp) as (i & Hi & Hpi).
      destruct (Hr i Hi) as (k & d & E0 & _).
      fold (len_table s) in E0. congruence. }
  2:{ destruct Hr as (_ & Hf & _). discriminate. }
  destruct Hr as (Hq & j & Hj & Hqj & Hpass & Hslot).
  assert (Hold : slot (table s) q = None \/
                 exists d0, slot (table s) q = Some (key, d0))
    by (destruct Hslot as [H|(_ & H)]; auto).
  rewrite Hc4, (py_index_slot (table s) q None Hq).
  fold (slot (table s) q).
  set (s3 := match slot (table s) q with
             | None => set_count s1 (count s1 + 1)
             | Some _ => s1
             end).
  assert (Ht3 : table s3 = table s)
    by (unfold s3; destruct (slot (table s) q); simpl; congruence).
  assert (Hk3 : hash_key s3 = hash_key s)
    by (unfold s3; destruct (slot (table s) q); simpl; congruence).
  assert (Hz3 : table_size s3 = table_size s)
    by (unfold s3; destruct (slot (table s) q); simpl; congruence).
  assert (Hn3 : count s3 = count s + match slot (table s) q with
                                     | None => 1
                                     | Some _ => 0
                                     end)
    by (unfold s3; destruct (slot (table s) q); simpl; lia).
  unfold py_store. rewrite Ht3.
  destruct (Z.ltb_spec q 0); [lia|]. cbv zeta.
  destruct (Z.ltb_spec q 0); [lia|].
  destruct (Z.leb_spec (Z.of_nat (List.length (table s))) q);
    [unfold len_table in Hq; lia|].
  cbn [orb].
  eexists. split; [reflexivity|].
  split; [|split; [|split; [|split; [|split; [|split]]]]].
  - apply (set_well_formed s _ key data h j q); auto.
  - exact Hk3.
  - exact Hz3.
  - simpl. apply stored_slot. exists q. rewrite list_set_length.
    split; [exact Hq|]. apply slot_set_same. exact Hq.
  - intros k d Hk. simpl. apply stored_set_other; auto.
  - intros (d0 & Hst). simpl. rewrite Hn3.
    destruct Hold as [Hnone|(d1 & Hsome)]; [|rewrite Hsome; lia].
    exfalso. apply stored_slot in Hst. destruct Hst as (p & Hp & Hsp).
    pose proof Hwf as (_ & _ & _ & Hpl).
    destruct (Hpl p key d0 Hp Hsp)
      as (h' & j' & d' & Hh' & Hj' & Hp' & Hpass' & Hs').
    assert (h' = h) as -> by congruence.
    assert (j = j').
    { apply (probe_stop_unique (table s) key h); auto; try lia.
      - intros k0 d2 E1. fold (len_table s) in E1. congruence.
      - intros k0 d2 E1. fold (len_table s) in E1. congruence. }
    subst j'. congruence.
  - intros Habs. simpl. rewrite Hn3.
    destruct Hold as [Hnone|(d1 & Hsome)]; [rewrite Hnone; lia|].
    exfalso. apply (Habs d1). apply stored_slot. eauto.
Qed.

Lemma setitem_then_getitem_spec (s : state) (key : str) (data : T)
      (h : Z) :
  well_formed s -> count s < len_table s -> hash s key = Done h ->
  exists s1,
    setitem s key data = (s1, Done tt) /\
    (exists s2, getitem s1 key = (s2, Done data)) /\
    (forall k d, k <> key -> stored (table s) k d ->
       exists s2, getitem s1 k = (s2, Done d)).
Proof.
  intros Hwf Hroom Hh.
  destruct (setitem_spec s key data h Hwf Hroom Hh)
    as (s1 & E & Hwf1 & _ & _ & Hst & Hoth & _).
  exists s1. split; [exact E|]. split.
  - apply stored_slot in Hst. destruct Hst as (p & Hp & Hs).
    destruct (getitem_slot s1 key data p Hwf1 Hp Hs) as (s2 & E2 & _). eauto.
  - intros k d Hk Hkd. apply (Hoth k d Hk) in Hkd.
    apply stored_slot in Hkd. destruct Hkd as (p & Hp & Hs).
    destruct (getitem_slot s1 k d p Hwf1 Hp Hs) as (s2 & E2 & _). eauto.
Qed.

(** ** The full table *)

Lemma full_table_spec (s : state) (key : str) (data : T) (h : Z) :
  well_formed s -> count s = len_table s -> hash s key = Done h ->
  ((exists d0, stored (table s) key d0) ->
   exists s',
     setitem s key data = (s', Fail KeyError) /\ same_contents s s') /\
  ((forall d0, ~ stored (table s) key d0) ->
   exists s',
     getitem s key = (s', Fail TypeError) /\
     contains s key = (s', Fail TypeError) /\
     setitem s key data = (s', Fail TypeError) /\ same_contents s s').
Proof.
  intros Hwf Hfull Hh. split.
  - intros (d0 & Hst). apply stored_slot in Hst.
    destruct Hst as (p & Hp & Hsl).
    destruct (getitem_slot s key d0 p Hwf Hp Hsl) as (s1 & E & Hc).
    exists s1. split; [|exact Hc].
    unfold setitem, contains. rewrite E.
    destruct (Z.eqb_spec (count s) (len_table s)) as [_|Hne]; [|lia].
    cbn [negb]. unfold linear_probe.
    rewrite (same_contents_hash s s1 key Hc), Hh.
    unfold is_full. rewrite (same_contents_len s s1 Hc).
    destruct Hc as (-> & _). rewrite Hfull, Z.eqb_refl. reflexivity.
  - intros Habs.
    destruct (linear_probe_spec s key false h Hwf Hh ltac:(discriminate))
      as (s1 & r & E & Hc & Hr).
    assert (Hr' : r = Done None).
    { destruct r as [[q|]|e]; auto.
      - destruct Hr as (Hq & j & _ & _ & _ & [(d & Hs)|(Hf & _)]);
          [|discriminate].
        exfalso. apply (Habs d). apply stored_slot. eauto.
      - destruct Hr as (_ & _ & j & Hj & _ & Hnone). exfalso.
        pose proof (hash_range s key h Hwf Hh) as Hhr.
        destruct Hwf as (_ & _ & Hcount & _).
        apply (occupied_full (table s) ((h + j) mod len_table s)); auto.
        + fold (len_table s). lia.
        + unfold len_table in *. apply Z.mod_pos_bound. lia. }
    subst r. exists s1.
    assert (Hget : getitem s key = (s1, Fail TypeError))
      by (unfold getitem; rewrite E; reflexivity).
    assert (Hcon : contains s key = (s1, Fail TypeError))
      by (unfold contains; rewrite Hget; reflexivity).
    repeat split; auto; try apply Hc.
    unfold setitem. rewrite Hcon.
    destruct (Z.eqb_spec (count s) (len_table s)) as [_|Hne]; [|lia].
    reflexivity.
Qed.

(** ** The new table *)

Lemma occupied_repeat (n : nat) : occupied (repeat (@None (str * T)) n) = 0.
Proof. induction n; simpl; auto. Qed.

Lemma slot_repeat (n : nat) (p : Z) :
  slot (repeat (@None (str * T)) n) p = None.
Proof.
  unfold slot. generalize (Z.to_nat p) as m. induction n; intros [|m];
    simpl; auto.
Qed.

(** The constructor with a positive table size gives a well-formed table
    that holds nothing: [count] is 0 and no key is stored. *)
Lemma init_spec (max_potions : Z) (good_hash : bool)
        (tablesize_override : Z) :
  0 < (if negb (tablesize_override =? -1) then tablesize_override
       else max_potions) ->
  let s := @init T max_potions good_hash tablesize_override in
  well_formed s /\ count s = 0 /\
  len_table s = (if negb (tablesize_override =? -1) then tablesize_override
                 else max_potions) /\
  forall k d, ~ stored (table s) k d.
Proof.
  intros Hpos s. subst s. unfold init.
  set (size := if negb (tablesize_override =? -1) then tablesize_override
               else max_potions) in *.
  assert (Hlen : Z.of_nat (List.length (repeat (@None (str * T))
                                          (Z.to_nat size))) = size)
    by (rewrite repeat_length; lia).
  split; [|split; [|split]].
  - unfold well_formed, len_table. simpl. rewrite Hlen.
    repeat split; auto.
    + rewrite occupied_repeat. reflexivity.
    + intros p k d _ E. rewrite slot_repeat in E. discriminate.
  - reflexivity.
  - unfold len_table. simpl. exact Hlen.
  - intros k d Hst. apply stored_slot in Hst. simpl in Hst.
    destruct Hst as (p & _ & E). rewrite slot_repeat in E. discriminate.
Qed.

(** ** Filling a table *)

Lemma classic_stored (s : state) (key : str) :
  (exists d, stored (table s) key d) \/ (forall d, ~ stored (table s) key d).
Proof.
  unfold stored. induction (table s) as [|[[k d]|] tbl IH].
  - right. intros d [].
  - destruct (list_eq_dec Z.eq_dec k key) as [->|Hne].
    + left. exists d. left. reflexivity.
    + destruct IH as [(d' & H)|H].
      * left. exists d'. right. exact H.
      * right. intros d' [E|H']; [congruence|]. apply (H d'). exact H'.
  - destruct IH as [(d' & H)|H].
    + left. exists d'. right. exact H.
    + right. intros d' [E|H']; [discriminate|]. apply (H d'). exact H'.
Qed.

Lemma hash_defined (s : state) (key : str) :
  well_formed s -> hash_key s = true -> exists h, hash s key = Done h.
Proof.
  intros (_ & Hpos & _) Hk. unfold hash. rewrite Hk.
  destruct (good_hash_from_range 0 key (table_size s) Hpos ltac:(lia))
    as (v & E & _).
  exists v. exact E.
Qed.

Lemma store_all_spec (pairs : list (str * T)) (s : state) :
  well_formed s -> hash_key s = true ->
  count s + Z.of_nat (List.length pairs) <= len_table s ->
  exists s',
    store_all s pairs = (s', Done tt) /\ well_formed s' /\
    hash_key s' = hash_key s /\ len_table s' = len_table s /\
    (forall k d, stored (table s) k d -> ~ In k (map fst pairs) ->
                 stored (table s') k d) /\
    (forall k d, stored (table s') k d ->
                 stored (table s) k d \/ In k (map fst pairs)) /\
    (NoDup (map fst pairs) ->
     (forall k d, In (k, d) pairs -> stored (table s') k d) /\
     ((forall k d, In k (map fst pairs) -> ~ stored (table s) k d) ->
      count s' = count s + Z.of_nat (List.length pairs))).
Proof.
  revert s. induction pairs as [|[k0 d0] rest IH]; intros s Hwf Hk Hroom.
  - exists s. simpl. split; [reflexivity|]. split; [assumption|].
    split; [reflexivity|].
    split; [reflexivity|]. split; [auto|]. split; [auto|]. intros _.
    split; [intros k d []|intros _; lia].
  - cbn [List.length] in Hroom.
    destruct (hash_defined s k0 Hwf Hk) as (h & Hh).
    destruct (setitem_spec s k0 d0 h Hwf ltac:(lia) Hh)
      as (s1 & E & Hwf1 & Hk1 & Hz1 & Hst & Hoth & Hsame & Hnew).
    assert (Hlen1 : len_table s1 = len_table s).
    { destruct Hwf as (A & _), Hwf1 as (B & _). congruence. }
    assert (Hc1 : count s1 <= count s + 1).
    { destruct (classic_stored s k0) as [Hex|Hno].
      - rewrite (Hsame Hex). lia.
      - rewrite (Hnew Hno). lia. }
    destruct (IH s1 Hwf1 ltac:(congruence) ltac:(lia))
      as (s' & E' & Hwf' & Hk' & Hlen' & Hkeep & Honly & Hnd).
    exists s'. cbn [store_all]. rewrite E, E'.
    split; [reflexivity|]. split; [exact Hwf'|].
    split; [congruence|].
    split; [congruence|]. split; [|split].
    + intros k d Hkd Hnot. simpl in Hnot. apply Hkeep; [|tauto].
      apply Hoth; [|exact Hkd]. intros ->. tauto.
    + intros k d Hkd. destruct (Honly k d Hkd) as [H1|Hin];
        [|right; simpl; auto].
      destruct (list_eq_dec Z.eq_dec k k0) as [->|Hne];
        [right; simpl; auto|].
      left. apply Hoth; assumption.
    + intros Hdup. simpl in Hdup. inversion Hdup as [|? ? Hnotin Hdup'];
        subst.
      destruct (Hnd Hdup') as (Hall & Hcnt). split.
      * intros k d [Heq|Hin].
        -- injection Heq as <- <-. apply Hkeep; assumption.
        -- apply Hall. exact Hin.
      * intros Hfresh. rewrite Hcnt.
        -- rewrite Hnew.
           ++ cbn [List.length]. lia.
           ++ intros d. apply Hfresh. simpl. auto.
        -- intros k d Hin Hkd.
           assert (k <> k0) by (intros ->; contradiction).
           apply (Hfresh k d); [simpl; auto|].
           apply Hoth; assumption.
Qed.

Lemma store_all_init_spec (pairs : list (str * T)) :
  pairs <> [] ->
  exists s',
    store_all (init T (Z.of_nat (List.length pairs)) true (-1)) pairs
    = (s', Done tt) /\
    well_formed s' /\
    (NoDup (map fst pairs) ->
     count s' = len_table s' /\
     forall k d, In (k, d) pairs ->
       exists s'', getitem s' k = (s'', Done d)).
Proof.
  intros Hne.
  assert (Hpos : 0 < Z.of_nat (List.length pairs))
    by (destruct pairs; [contradiction|simpl; lia]).
  destruct (init_spec (Z.of_nat (List.length pairs)) true (-1) Hpos)
    as (Hwf & Hcount & Hlen & Hempty).
  simpl in Hlen.
  destruct (store_all_spec pairs _ Hwf eq_refl ltac:(lia))
    as (s' & E & Hwf' & Hk' & Hlen' & _ & Honly & Hnd).
  exists s'. split; [exact E|]. split; [exact Hwf'|].
  intros Hdup. destruct (Hnd Hdup) as (Hall & Hcnt). split.
  - rewrite Hcnt; [lia|]. intros k d _. apply Hempty.
  - intros k d Hin. pose proof (Hall k d Hin) as Hst.
    apply stored_slot in Hst. destruct Hst as (p & Hp & Hs).
    destruct (getitem_slot s' k d p Hwf' Hp Hs) as (s'' & E' & _). eauto.
Qed.

(** ** Every key, every hash *)

Lemma well_formed_same_contents (s s' : state) :
  well_formed s -> same_contents s s' -> well_formed s'.
Proof.
  intros (Hsize & Hpos & Hcount & Hplaced) Hc.
  pose proof (same_contents_len s s' Hc) as Hlen.
  pose proof Hc as (Hc1 & Hc2 & Hc3 & Hc4).
  unfold well_formed. rewrite Hlen, Hc1, Hc3, Hc4.
  repeat split; auto.
  intros p k d Hp Hslot.
  destruct (Hplaced p k d Hp Hslot)
    as (h & j & d' & Hh & Hj & Hpj & Hpass & Hs).
  exists h, j, d'. rewrite Hlen, Hc4, (same_contents_hash s s' k Hc). auto.
Qed.

Lemma hash_total (s : state) (key : str) :
  well_formed s -> hash_key s = true \/ key <> [] ->
  exists h, hash s key = Done h.
Proof.
  intros Hwf Hk. destruct (hash_key s) eqn:E.
  - apply hash_defined; assumption.
  - destruct Hk as [Hk|Hk]; [discriminate|].
    destruct key as [|char rest]; [congruence|].
    destruct Hwf as (_ & Hpos & _).
    unfold hash. rewrite E. cbn [Potion.bad_hash]. unfold py_mod.
    destruct (Z.eqb_spec (table_size s) 0); [lia|]. eauto.
Qed.

Lemma hash_empty_bad (s : state) :
  hash_key s = false -> hash s [] = Fail IndexError.
Proof. intros E. unfold hash. rewrite E. reflexivity. Qed.

Lemma hash_cases (s : state) (key : str) :
  well_formed s ->
  (exists h, hash s key = Done h) \/ hash s key = Fail IndexError.
Proof.
  intros Hwf. destruct (hash_key s) eqn:E.
  - left. apply hash_total; auto.
  - destruct key as [|char rest].
    + right. apply hash_empty_bad. exact E.
    + left. apply hash_total; auto. right. discriminate.
Qed.

Lemma stored_hash (s : state) (key : str) (d : T) :
  well_formed s -> stored (table s) key d -> exists h, hash s key = Done h.
Proof.
  intros Hwf Hst. apply stored_slot in Hst. destruct Hst as (p & Hp & Hs).
  destruct Hwf as (_ & _ & _ & Hplaced).
  destruct (Hplaced p key d Hp Hs) as (h & _ & _ & Hh & _). eauto.
Qed.

Lemma linear_probe_contents (s : state) (key : str) (b : bool) :
  same_contents s (fst (linear_probe s key b)).
Proof.
  unfold linear_probe. destruct (hash s key) as [position|e].
  - destruct (andb b (is_full s)).
    + apply same_contents_refl.
    + apply probe_loop_contents.
  - apply same_contents_refl.
Qed.

Lemma getitem_contents (s : state) (key : str) :
  same_contents s (fst (getitem s key)).
Proof.
  unfold getitem. pose proof (linear_probe_contents s key false) as H.
  destruct (linear_probe s key false) as [s1 [[q|]|e]]; cbn [fst] in *; auto.
  destruct (py_index (table s1) q) as [[[k d]|]|e]; exact H.
Qed.

Lemma contains_contents (s : state) (key : str) :
  same_contents s (fst (contains s key)).
Proof.
  unfold contains. pose proof (getitem_contents s key) as H.
  destruct (getitem s key) as [s1 [d|e]]; cbn [fst] in *; auto.
  destruct e; exact H.
Qed.

Lemma reads_hash_fail (s : state) (key : str) :
  hash s key = Fail IndexError ->
  getitem s key = (s, Fail IndexError) /\
  contains s key = (s, Fail IndexError).
Proof.
  intros Hh.
  assert (Hget : getitem s key = (s, Fail IndexError))
    by (unfold getitem, linear_probe; rewrite Hh; reflexivity).
  split; [exact Hget|]. unfold contains. rewrite Hget. reflexivity.
Qed.

Lemma calls_hash_fail (s : state) (key : str) (data : T) :
  hash s key = Fail IndexError ->
  getitem s key = (s, Fail IndexError) /\
  contains s key = (s, Fail IndexError) /\
  setitem s key data = (s, Fail IndexError).
Proof.
  intros Hh. destruct (reads_hash_fail s key Hh) as (Hget & Hcon).
  repeat split; auto.
  unfold setitem. destruct (count s =? len_table s).
  - rewrite Hcon. reflexivity.
  - cbv beta iota. unfold linear_probe. rewrite Hh. reflexivity.
Qed.

Lemma setitem_full_contents (s : state) (key : str) (data : T) :
  count s = len_table s -> same_contents s (fst (setitem s key data)).
Proof.
  intros Hfull. unfold setitem. rewrite Hfull, Z.eqb_refl.
  pose proof (contains_contents s key) as Hc.
  destruct (contains s key) as [s1 [b|e]]; cbn [fst] in Hc; [|exact Hc].
  destruct b; cbn [negb]; [|exact Hc].
  unfold linear_probe. destruct (hash s1 key) as [position|e]; [|exact Hc].
  unfold is_full. rewrite (same_contents_len s s1 Hc).
  destruct Hc as (Hc1 & Hc'). rewrite Hc1, Hfull, Z.eqb_refl.
  cbn [andb fst]. split; auto.
Qed.

Lemma setitem_well_formed (s : state) (key : str) (data : T) :
  well_formed s -> well_formed (fst (setitem s key data)).
Proof.
  intros Hwf.
  destruct (Z.eq_dec (count s) (len_table s)) as [Hfull|Hroom].
  - apply well_formed_same_contents with s; auto.
    apply setitem_full_contents. exact Hfull.
  - assert (count s < len_table s).
    { pose proof Hwf as (_ & _ & Hcount & _).
      pose proof (occupied_bound (table s)). unfold len_table in *. lia. }
    destruct (hash_cases s key Hwf) as [(h & Hh)|Hh].
    + destruct (setitem_spec s key data h Hwf ltac:(lia) Hh)
        as (s' & E & Hwf' & _).
      rewrite E. exact Hwf'.
    + destruct (calls_hash_fail s key data Hh) as (_ & _ & E).
      rewrite E. exact Hwf.
Qed.

Lemma built_inv (s : state) :
  built s -> well_formed s \/ (table s = [] /\ count s = 0).
Proof.
  induction 1 as [max_potions good_hash tablesize_override
                 |s key _ IH|s key _ IH|s key data _ IH].
  - destruct (Z.ltb_spec 0 (if negb (tablesize_override =? -1)
                            then tablesize_override else max_potions))
      as [Hpos|Hneg].
    + left. apply (init_spec max_potions good_hash tablesize_override Hpos).
    + right. unfold init. cbn [table count].
      replace (Z.to_nat _) with 0%nat by lia. auto.
  - pose proof (getitem_contents s key) as (Hc1 & _ & _ & Hc4).
    destruct IH as [Hwf|(Ht & Hn)].
    + left. eapply well_formed_same_contents; [exact Hwf|].
      apply getitem_contents.
    + right. rewrite Hc1, Hc4. auto.
  - pose proof (contains_contents s key) as (Hc1 & _ & _ & Hc4).
    destruct IH as [Hwf|(Ht & Hn)].
    + left. eapply well_formed_same_contents; [exact Hwf|].
      apply contains_contents.
    + right. rewrite Hc1, Hc4. auto.
  - destruct IH as [Hwf|(Ht & Hn)].
    + left. apply setitem_well_formed. exact Hwf.
    + right.
      assert (Hfull : count s = len_table s)
        by (unfold len_table; rewrite Ht, Hn; reflexivity).
      pose proof (setitem_full_contents s key data Hfull)
        as (Hc1 & _ & _ & Hc4).
      rewrite Hc1, Hc4. auto.
Qed.

(** In a well-formed table that is not full, reading a key that is not
    stored raises [KeyError] and changes the statistics only, for every key
    under the good hash and every key but the empty name under the bad
    hash; the empty name under the bad hash raises the [IndexError] of
    [bad_hash] and changes nothing. *)
Theorem getitem_absent (s : state) (key : str) :
  well_formed s -> count s < len_table s ->
  (forall d, ~ stored (table s) key d) ->
  (hash_key s = true \/ key <> [] ->
   exists s', getitem s key = (s', Fail KeyError) /\ same_contents s s') /\
  (hash_key s = false -> key = [] ->
   getitem s key = (s, Fail IndexError)).
Proof.
  intros Hwf Hroom Habs. split.
  - intros Hk. destruct (hash_total s key Hwf Hk) as (h & Hh).
    apply (getitem_absent_spec s key h); assumption.
  - intros Hbad ->.
    apply (reads_hash_fail s [] (hash_empty_bad s Hbad)).
Qed.

(** In a well-formed table that is not full, for every key under the good
    hash and every key but the empty name under the bad hash,
    [__setitem__] returns and leaves a well-formed table of the same size in
    which the key is stored with the data given and every other key is
    stored as it was; [count] grows by one for a new key and stays for a key
    already stored.  The empty name under the bad hash raises the
    [IndexError] of [bad_hash] and changes nothing. *)
Theorem setitem_stores (s : state) (key : str) (data : T) :
  well_formed s -> count s < len_table s ->
  (hash_key s = true \/ key <> [] ->
   exists s',
     setitem s key data = (s', Done tt) /\ well_formed s' /\
     len_table s' = len_table s /\
     stored (table s') key data /\
     (forall k d, k <> key ->
        (stored (table s') k d <-> stored (table s) k d)) /\
     ((exists d0, stored (table s) key d0) -> count s' = count s) /\
     ((forall d0, ~ stored (table s) key d0) -> count s' = count s + 1)) /\
  (hash_key s = false -> key = [] ->
   setitem s key data = (s, Fail IndexError)).
Proof.
  intros Hwf Hroom. split.
  - intros Hk. destruct (hash_total s key Hwf Hk) as (h & Hh).
    destruct (setitem_spec s key data h Hwf Hroom Hh)
      as (s' & E & Hwf' & _ & Hz & Hrest).
    exists s'. split; [exact E|]. split; [exact Hwf'|].
    split; [|exact Hrest].
    destruct Hwf as (A & _), Hwf' as (B & _). congruence.
  - intros Hbad ->.
    apply (calls_hash_fail s [] data (hash_empty_bad s Hbad)).
Qed.

(** In a well-formed table that is not full, for every key under the good
    hash and every key but the empty name under the bad hash: what
    [__setitem__] stores, [__getitem__] reads back; and a pair stored under
    another key before is still read back after. *)
Theorem setitem_then_getitem (s : state) (key : str) (data : T) :
  well_formed s -> count s < len_table s ->
  hash_key s = true \/ key <> [] ->
  exists s1,
    setitem s key data = (s1, Done tt) /\
    (exists s2, getitem s1 key = (s2, Done data)) /\
    (forall k d, k <> key -> stored (table s) k d ->
       exists s2, getitem s1 k = (s2, Done d)).
Proof.
  intros Hwf Hroom Hk. destruct (hash_total s key Hwf Hk) as (h & Hh).
  apply (setitem_then_getitem_spec s key data h); assumption.
Qed.

(** On a well-formed table that is full, [__setitem__] never returns and
    never raises the [ValueError] written for this case.  For a key that is
    stored the check passes and the probe raises [KeyError].  For a key that
    is not stored (any key under the good hash, any but the empty name under
    the bad hash) the probe of [__contains__] runs off the table, the table
    is indexed with [None], and the [TypeError] escapes [__getitem__],
    [__contains__] and [__setitem__] alike; the contents stay as they were.
    For the empty name under the bad hash the three raise the [IndexError]
    of [bad_hash] and change nothing. *)
Theorem full_table_refuses (s : state) (key : str) (data : T) :
  well_formed s -> count s = len_table s ->
  ((exists d0, stored (table s) key d0) ->
   exists s',
     setitem s key data = (s', Fail KeyError) /\ same_contents s s') /\
  ((forall d0, ~ stored (table s) key d0) ->
   hash_key s = true \/ key <> [] ->
   exists s',
     getitem s key = (s', Fail TypeError) /\
     contains s key = (s', Fail TypeError) /\
     setitem s key data = (s', Fail TypeError) /\ same_contents s s') /\
  (hash_key s = false -> key = [] ->
   getitem s key = (s, Fail IndexError) /\
   contains s key = (s, Fail IndexError) /\
   setitem s key data = (s, Fail IndexError)).
Proof.
  intros Hwf Hfull. split; [|split].
  - intros (d0 & Hst). destruct (stored_hash s key d0 Hwf Hst) as (h & Hh).
    apply (proj1 (full_table_spec s key data h Hwf Hfull Hh)). eauto.
  - intros Habs Hk. destruct (hash_total s key Hwf Hk) as (h & Hh).
    apply (proj2 (full_table_spec s key data h Hwf Hfull Hh)). exact Habs.
  - intros Hbad ->.
    apply (calls_hash_fail s [] data (hash_empty_bad s Hbad)).
Qed.

(** In every table made by the constructor, with any arguments, and passed
    through any calls of [__getitem__], [__contains__] and [__setitem__],
    returning or raising: [count] is the number of occupied slots, no key
    sits in two slots, and [__getitem__] returns the data of every key
    that is stored. *)
Theorem built_one_slot_per_key (s : state) :
  built s ->
  count s = occupied (table s) /\
  (forall p q key d d',
      0 <= p < len_table s -> 0 <= q < len_table s ->
      slot (table s) p = Some (key, d) ->
      slot (table s) q = Some (key, d') -> p = q) /\
  (forall key d, stored (table s) key d ->
     exists s', getitem s key = (s', Done d)).
Proof.
  intros Hb. destruct (built_inv s Hb) as [Hwf|(Ht & Hn)].
  - split; [apply Hwf|]. split.
    + intros p q key d d' Hp Hq Hsp Hsq.
      pose proof Hwf as (_ & _ & _ & Hplaced).
      apply (placed_unique s key); eauto.
    + intros key d Hst. apply stored_slot in Hst.
      destruct Hst as (p & Hp & Hs).
      destruct (getitem_slot s key d p Hwf Hp Hs) as (s' & E & _). eauto.
  - split; [rewrite Ht, Hn; reflexivity|]. split.
    + intros p q key d d' Hp. unfold len_table in Hp. rewrite Ht in Hp.
      simpl in Hp. lia.
    + intros key d Hst. unfold stored in Hst. rewrite Ht in Hst.
      destruct Hst.
Qed.

End HashTableFacts.

(** ** The hashes *)

(** With a positive table size both hashes give an index into the table,
    [bad_hash] for every name that is not empty and [good_hash] for every
    name; with table size 0 they divide by zero; and [bad_hash] of the
    empty name fails on its first character. *)
Theorem hashes_in_range (potion_name : str) (tablesize : Z) :
  (0 < tablesize ->
   (exists v, Potion.good_hash potion_name tablesize = Done v /\
              0 <= v < tablesize) /\
   (potion_name <> [] ->
    exists v, Potion.bad_hash potion_name tablesize = Done v /\
              0 <= v < tablesize)) /\
  (potion_name <> [] ->
   Potion.good_hash potion_name 0 = Fail ZeroDivisionError /\
   Potion.bad_hash potion_name 0 = Fail ZeroDivisionError) /\
  Potion.good_hash [] tablesize = Done 0 /\
  Potion.bad_hash [] tablesize = Fail IndexError.
Proof.
  split; [|split; [|split; reflexivity]].
  - intros Hpos. split.
    + apply good_hash_from_range; lia.
    + intros Hne. destruct potion_name as [|char rest]; [contradiction|].
      unfold Potion.bad_hash, py_mod.
      destruct (Z.eqb_spec tablesize 0); [lia|].
      eexists. split; [reflexivity|]. apply Z.mod_pos_bound. exact Hpos.
  - intros Hne. destruct potion_name as [|char rest]; [contradiction|].
    split; reflexivity.
Qed.

Lemma horner_step_mod (a c m : Z) :
  (a mod m * Potion.HASH_BASE + c) mod m = (a * Potion.HASH_BASE + c) mod m.
Proof.
  rewrite <- Zplus_mod_idemp_l, Zmult_mod_idemp_l, Zplus_mod_idemp_l.
  reflexivity.
Qed.

Lemma horner_mod (rest : str) (a m : Z) :
  fold_left (fun v c => v * Potion.HASH_BASE + c) rest a mod m
  = fold_left (fun v c => v * Potion.HASH_BASE + c) rest (a mod m) mod m.
Proof.
  revert a. induction rest as [|c rest IH]; intros a; cbn [fold_left].
  - rewrite Zmod_mod. reflexivity.
  - rewrite IH, (IH (a mod m * Potion.HASH_BASE + c)), horner_step_mod.
    reflexivity.
Qed.

Lemma good_hash_from_horner (potion_name : str) (v m : Z) :
  m <> 0 ->
  Potion.good_hash_from (v mod m) potion_name m
  = Done (fold_left (fun v c => v * Potion.HASH_BASE + c) potion_name v
          mod m).
Proof.
  intros Hm. revert v.
  induction potion_name as [|c rest IH]; intros v;
    cbn [Potion.good_hash_from fold_left]; [reflexivity|].
  unfold py_mod. destruct (Z.eqb_spec m 0); [contradiction|].
  rewrite IH.
  rewrite (horner_mod rest (v mod m * Potion.HASH_BASE + c)),
    horner_step_mod, <- horner_mod. reflexivity.
Qed.

(** [good_hash] is the value of the name as a number in base 27183, reduced
    by the table size once at the end: two names collide exactly when these
    numbers agree modulo the table size. *)
Theorem good_hash_polynomial (potion_name : str) (tablesize : Z) :
  tablesize <> 0 ->
  Potion.good_hash potion_name tablesize
  = Done (fold_left (fun v c => v * Potion.HASH_BASE + c) potion_name 0
          mod tablesize).
Proof.
  intros Hm. unfold Potion.good_hash.
  rewrite <- (good_hash_from_horner potion_name 0 tablesize Hm).
  rewrite Z.mod_0_l by assumption. reflexivity.
Qed.

(** ** The potion table at the example of the docstring *)

(** The example of the docstring of [Game.set_total_potion_data]: the six
    potions land in the slots 5, 1, 0, 2, 3, 4, so that the table reads
    Deadly Poison, Extreme Speed, Instant Health, Increased Stamina,
    Untenable Odour, Health Regeneration. *)
Example docstring_table :
  snd (HashTable.store_all TableExamples.T0 TableExamples.six) = Done tt /\
  map (option_map fst) (HashTable.table TableExamples.T6)
  = map (fun s => Some (TableExamples.str_of s))
      [ "Potion of Deadly Poison"; "Potion of Extreme Speed";
        "Potion of Instant Health"; "Potion of Increased Stamina";
        "Potion of Untenable Odour"; "Potion of Health Regeneration" ]%string.
Proof. split; vm_compute; reflexivity. Qed.

Lemma T0_well_formed : HashTable.well_formed TableExamples.T0.
Proof.
  apply (init_spec Z 6 true (-1)). reflexivity.
Qed.

Lemma T6_well_formed : HashTable.well_formed TableExamples.T6.
Proof.
  destruct (store_all_spec Z TableExamples.six TableExamples.T0
              T0_well_formed eq_refl)
    as (s' & E & Hwf & _).
  - vm_compute. discriminate.
  - unfold TableExamples.T6. rewrite E. exact Hwf.
Qed.

Ltac find_stored := vm_compute; repeat (try (left; reflexivity); right).

Lemma getitem_stored_witness :
  exists s',
    HashTable.getitem TableExamples.T6
      (TableExamples.str_of "Potion of Instant Health") = (s', Done 5) /\
    HashTable.same_contents TableExamples.T6 s'.
Proof.
  apply (getitem_stored Z TableExamples.T6
           (TableExamples.str_of "Potion of Instant Health") 5
           T6_well_formed).
  find_stored.
Defined.

(** ** The table of [set_total_potion_data] *)

Section GameDataFacts.

Variable F : Type.
Variable zero : F.
Variable fle : F -> F -> bool.

#[local] Abbreviation Potion := (Potion.Potion F).
#[local] Abbreviation table := (HashTable.LinearProbePotionTable Potion).

Lemma fill_good (potion_data : list (str * str * F)) :
  forall s : table,
  (forall n t p, In (n, t, p) potion_data -> fle p zero = false) ->
  GameData.fill zero fle s potion_data
  = HashTable.store_all s (map (GameData.potion_of zero) potion_data).
Proof.
  induction potion_data as [|[[n t] p] rest IH]; intros s Hgood.
  - reflexivity.
  - cbn [GameData.fill map GameData.potion_of HashTable.store_all].
    unfold Potion.create_empty, Potion.init.
    rewrite (Hgood n t p (or_introl eq_refl)).
    destruct (HashTable.setitem s n _) as [s' [u|e]]; [|reflexivity].
    apply IH. intros n' t' p' Hin. apply (Hgood n' t' p'). right. exact Hin.
Qed.

Lemma fill_bad (potion_data : list (str * str * F)) :
  forall s : table,
  HashTable.well_formed s -> HashTable.hash_key s = true ->
  HashTable.count s + Z.of_nat (List.length potion_data)
  <= HashTable.len_table s ->
  (exists n t p, In (n, t, p) potion_data /\ fle p zero = true) ->
  exists s',
    GameData.fill zero fle s potion_data = (s', Fail (Exn ValueError)).
Proof.
  induction potion_data as [|[[n t] p] rest IH];
    intros s Hwf Hkey Hroom (n' & t' & p' & Hin & Hbad).
  - destruct Hin.
  - cbn [GameData.fill]. unfold Potion.create_empty, Potion.init.
    destruct (fle p zero) eqn:Ep; [eauto|].
    destruct Hin as [E|Hin]; [congruence|].
    simpl List.length in Hroom.
    destruct (hash_defined Potion s n Hwf Hkey) as (h & Hh).
    destruct (setitem_spec Potion s n (Potion.mkPotion t n p zero) h Hwf
                ltac:(lia) Hh)
      as (s' & E & Hwf' & Hk' & Hsz' & _ & _ & Hsame & Hnew).
    rewrite E.
    assert (Hlen : HashTable.len_table s' = HashTable.len_table s).
    { destruct Hwf as (A & _), Hwf' as (B & _). congruence. }
    apply IH; auto; [congruence| |eauto 6].
    rewrite Hlen.
    destruct (classic_stored Potion s n) as [Hst|Hno].
    + rewrite (Hsame Hst). lia.
    + rewrite (Hnew Hno). lia.
Qed.

End GameDataFacts.

(** [set_total_potion_data] on a list that is not empty.  When no price
    is 0 or less it raises nothing and leaves a well-formed table with one
    slot for each entry; when the names are all different, the table is then
    full and every name gives back its potion, made with quantity 0.  When
    some price is 0 or less it raises the [ValueError] of the [Potion]
    constructor. *)
Theorem set_total_potion_data_fills (F : Type) (zero : F)
    (fle : F -> F -> bool) (potion_data : list (str * str * F)) :
  potion_data <> [] ->
  ((forall n t p, In (n, t, p) potion_data -> fle p zero = false) ->
   exists s',
     GameData.set_total_potion_data zero fle potion_data = (s', Done tt) /\
     HashTable.well_formed s' /\
     HashTable.len_table s' = Z.of_nat (List.length potion_data) /\
     (NoDup (map (fun entry => fst (fst entry)) potion_data) ->
      HashTable.count s' = HashTable.len_table s' /\
      forall n t p, In (n, t, p) potion_data ->
        exists s'',
          HashTable.getitem s' n
          = (s'', Done (Potion.mkPotion t n p zero)))) /\
  ((exists n t p, In (n, t, p) potion_data /\ fle p zero = true) ->
   exists s',
     GameData.set_total_potion_data zero fle potion_data
     = (s', Fail (Exn ValueError))).
Proof.
  intros Hne.
  assert (Hpos : 0 < Z.of_nat (List.length potion_data))
    by (destruct potion_data; [contradiction|simpl; lia]).
  destruct (init_spec (Potion.Potion F) (Z.of_nat (List.length potion_data))
              true (-1) Hpos) as (Hwf & Hcount & Hlen & _).
  simpl in Hlen. unfold GameData.set_total_potion_data. split.
  - intros Hgood. rewrite (fill_good F zero fle potion_data _ Hgood).
    assert (Hmap : map fst (map (GameData.potion_of zero) potion_data)
                   = map (fun entry => fst (fst entry)) potion_data).
    { rewrite map_map. apply map_ext. intros [[n t] p]. reflexivity. }
    assert (Hl : List.length (map (GameData.potion_of zero) potion_data)
                 = List.length potion_data) by apply length_map.
    destruct (store_all_init_spec (Potion.Potion F)
                (map (GameData.potion_of zero) potion_data))
      as (s' & E & Hwf' & Hfull).
    { destruct potion_data; [contradiction|discriminate]. }
    rewrite Hl in E. exists s'. split; [exact E|]. split; [exact Hwf'|].
    assert (Hlen' : HashTable.len_table s'
                    = Z.of_nat (List.length potion_data)).
    { destruct (store_all_spec (Potion.Potion F)
                  (map (GameData.potion_of zero) potion_data) _ Hwf eq_refl)
        as (s2 & E2 & _ & _ & Hl2 & _).
      - rewrite Hl. lia.
      - rewrite E in E2. injection E2 as <-. rewrite Hl2. exact Hlen. }
    split; [exact Hlen'|].
    intros Hdup. rewrite <- Hmap in Hdup.
    destruct (Hfull Hdup) as (Hcnt & Hget). split; [exact Hcnt|].
    intros n t p Hin. apply Hget.
    apply (in_map (GameData.potion_of zero)) in Hin. exact Hin.
  - intros Hbad. apply fill_bad; auto. lia.
Qed.

Lemma getitem_absent_witness :
  (HashTable.hash_key TableExamples.T0 = true \/
   TableExamples.str_of "Water" <> [] ->
   exists s',
     HashTable.getitem TableExamples.T0 (TableExamples.str_of "Water")
     = (s', Fail KeyError) /\
     HashTable.same_contents TableExamples.T0 s') /\
  (HashTable.hash_key TableExamples.T0 = false ->
   TableExamples.str_of "Water" = [] ->
   HashTable.getitem TableExamples.T0 (TableExamples.str_of "Water")
   = (TableExamples.T0, Fail IndexError)).
Proof.
  apply (getitem_absent Z TableExamples.T0 (TableExamples.str_of "Water")
           T0_well_formed).
  - vm_compute. reflexivity.
  - intros d H. vm_compute in H. intuition discriminate.
Defined.

Lemma setitem_stores_witness :
  exists s',
    HashTable.setitem TableExamples.T0 (TableExamples.str_of "Water") 3
    = (s', Done tt) /\
    HashTable.well_formed s' /\
    HashTable.len_table s' = HashTable.len_table TableExamples.T0 /\
    HashTable.stored (HashTable.table s') (TableExamples.str_of "Water") 3 /\
    (forall k d, k <> TableExamples.str_of "Water" ->
       (HashTable.stored (HashTable.table s') k d <->
        HashTable.stored (HashTable.table TableExamples.T0) k d)) /\
    ((exists d0, HashTable.stored (HashTable.table TableExamples.T0)
                   (TableExamples.str_of "Water") d0) ->
     HashTable.count s' = HashTable.count TableExamples.T0) /\
    ((forall d0, ~ HashTable.stored (HashTable.table TableExamples.T0)
                     (TableExamples.str_of "Water") d0) ->
     HashTable.count s' = HashTable.count TableExamples.T0 + 1).
Proof.
  apply (proj1 (setitem_stores Z TableExamples.T0
                  (TableExamples.str_of "Water") 3 T0_well_formed
                  eq_refl)).
  left. reflexivity.
Defined.

Lemma setitem_then_getitem_witness :
  exists s1,
    HashTable.setitem TableExamples.T0 (TableExamples.str_of "Water") 3
    = (s1, Done tt) /\
    (exists s2,
       HashTable.getitem s1 (TableExamples.str_of "Water") = (s2, Done 3)) /\
    (forall k d, k <> TableExamples.str_of "Water" ->
       HashTable.stored (HashTable.table TableExamples.T0) k d ->
       exists s2, HashTable.getitem s1 k = (s2, Done d)).
Proof.
  apply (setitem_then_getitem Z TableExamples.T0
           (TableExamples.str_of "Water") 3 T0_well_formed).
  - vm_compute. reflexivity.
  - left. reflexivity.
Defined.

Lemma full_table_refuses_witness :
  exists s',
    HashTable.setitem TableExamples.T6
      (TableExamples.str_of "Potion of Instant Health") 7
    = (s', Fail KeyError) /\
    HashTable.same_contents TableExamples.T6 s'.
Proof.
  apply (proj1 (full_table_refuses Z TableExamples.T6
                  (TableExamples.str_of "Potion of Instant Health") 7
                  T6_well_formed eq_refl)).
  exists 5. find_stored.
Defined.

Lemma built_one_slot_per_key_witness :
  let s := fst (HashTable.setitem TableExamples.T0
                  (TableExamples.str_of "Water") 3) in
  HashTable.count s = HashTable.occupied (HashTable.table s) /\
  (forall p q key d d',
      0 <= p < HashTable.len_table s -> 0 <= q < HashTable.len_table s ->
      HashTable.slot (HashTable.table s) p = Some (key, d) ->
      HashTable.slot (HashTable.table s) q = Some (key, d') -> p = q) /\
  (forall key d, HashTable.stored (HashTable.table s) key d ->
     exists s', HashTable.getitem s key = (s', Done d)).
Proof.
  apply (built_one_slot_per_key Z
           (fst (HashTable.setitem TableExamples.T0
                   (TableExamples.str_of "Water") 3))).
  apply HashTable.built_setitem. apply HashTable.built_init.
Defined.

Lemma set_total_potion_data_fills_witness :
  exists s',
    GameData.set_total_potion_data 0 Z.leb TableExamples.potion_data
    = (s', Done tt) /\
    HashTable.well_formed s' /\
    HashTable.len_table s'
    = Z.of_nat (List.length TableExamples.potion_data) /\
    (NoDup (map (fun entry => fst (fst entry)) TableExamples.potion_data) ->
     HashTable.count s' = HashTable.len_table s' /\
     forall n t p, In (n, t, p) TableExamples.potion_data ->
       exists s'',
         HashTable.getitem s' n = (s'', Done (Potion.mkPotion t n p 0))).
Proof.
  apply (proj1 (set_total_potion_data_fills Z 0 Z.leb
                  TableExamples.potion_data ltac:(discriminate))).
  intros n t p H.
  repeat (destruct H as [H|H]; [injection H as <- <- <-; reflexivity|]).
  destruct H.
Defined.

Lemma hashes_in_range_witness :
  (exists v,
     Potion.good_hash (TableExamples.str_of "Water") 6 = Done v /\
     0 <= v < 6) /\
  (TableExamples.str_of "Water" <> [] ->
   exists v,
     Potion.bad_hash (TableExamples.str_of "Water") 6 = Done v /\
     0 <= v < 6).
Proof.
  apply (proj1 (hashes_in_range (TableExamples.str_of "Water") 6)). lia.
Defined.

Lemma good_hash_polynomial_witness :
  Potion.good_hash (TableExamples.str_of "Water") 6
  = Done (fold_left (fun v c => v * Potion.HASH_BASE + c)
            (TableExamples.str_of "Water") 0 mod 6).
Proof.
  apply (good_hash_polynomial (TableExamples.str_of "Water") 6). lia.
Defined.

(** * The vendors' choice *)

Lemma randint_rank (k seed : Z) :
  1 <= k ->
  exists n seed', RandomGen.randint k seed = (Ok n, seed') /\ 1 <= n <= k.
Proof.
  intros Hk. unfold RandomGen.randint.
  destruct (Z.eqb_spec k 0) as [->|_]; [lia|].
  unfold RandomGen.next5. do 2 eexists. split; [reflexivity|].
  match goal with
  | |- 1 <= ?x mod k + 1 <= k =>
      pose proof (Z.mod_pos_bound x k ltac:(lia))
  end.
  lia.
Qed.

Section GameFacts.

Variable Potion : Type.
Variable buy_price : Potion -> K.

#[local] Abbreviation priced := (Game.priced buy_price).
#[local] Abbreviation choose_round := (Game.choose_round buy_price).
#[local] Abbreviation choose_rounds := (Game.choose_rounds buy_price).

Lemma subtree_entry (l : tree Potion) k v h lc rc r (t : tree Potion) :
  subtree (Node l k v h lc rc r) t -> In (k, v) (entries t).
Proof.
  induction t as [|tl IHl tk tv th tlc trc tr IHr]; intros Hsub.
  - destruct Hsub as [H|[]]. discriminate.
  - simpl. apply in_or_app. destruct Hsub as [H|[H|H]].
    + injection H as -> -> -> -> -> -> ->. simpl. auto.
    + left. apply IHl. exact H.
    + right. right. apply IHr. exact H.
Qed.

Lemma key_once (e : list (K * Potion)) (k : K) (a b : Potion) :
  increasing (map fst e) -> In (k, a) e -> In (k, b) e -> a = b.
Proof.
  intros Hs Ha Hb.
  apply in_split in Ha. destruct Ha as (l1 & l2 & ->).
  apply in_split in Hb. destruct Hb as (l1' & l2' & E).
  destruct (entries_split_unique Potion _ _ _ _ _ _ _ Hs E) as (_ & H & _).
  exact H.
Qed.

Lemma key_gone (e1 e2 : list (K * Potion)) (k : K) (a : Potion) :
  increasing (map fst (e1 ++ (k, a) :: e2)) ->
  ~ In k (map fst (e1 ++ e2)).
Proof.
  intros Hs. rewrite map_app in *. simpl in Hs.
  apply increasing_node in Hs. destruct Hs as (_ & _ & Hlo & Hhi).
  intros Hin. apply in_app_or in Hin. destruct Hin as [Hin|Hin].
  - specialize (Hlo k Hin). lia.
  - specialize (Hhi k Hin). lia.
Qed.

(** What a round does to a tree that holds at least one potion. *)
Lemma choose_round_spec (g : Game.Game Potion) :
  reachable (Game.inventory_tree g) -> priced (Game.inventory_tree g) ->
  1 <= length (Game.inventory_tree g) ->
  exists potion seed t' e1 e2,
    choose_round g
    = (Ok potion,
       Game.mkGame seed (mkTree t' (length (Game.inventory_tree g) - 1))) /\
    entries (root (Game.inventory_tree g))
    = e1 ++ (buy_price potion, potion) :: e2 /\
    entries t' = e1 ++ e2 /\
    reachable (mkTree t' (length (Game.inventory_tree g) - 1)).
Proof.
  destruct g as [seed0 T]. cbn [Game.inventory_tree Game.rand].
  intros Hr Hp Hlen.
  destruct (reachable_inv Potion T Hr) as (Ha & Hs & Hcount).
  destruct (randint_rank (length T) seed0 Hlen) as (n & seed & Ern & Hn).
  destruct (kth_largest_helper_nth Potion (root T) n Ha ltac:(lia))
    as (node & Ek & Hnode & _).
  destruct node as [|nl nk potion nh nlc nrc nr]; [discriminate|].
  pose proof (kth_largest_helper_subtree Potion _ _ _ Ek) as Hsub.
  apply subtree_entry in Hsub.
  pose proof (Hp nk potion Hsub) as Hprice.
  assert (Hin : In (buy_price potion) (inorder (root T))).
  { rewrite Hprice, <- entries_keys.
    change nk with (fst (nk, potion)). apply in_map. exact Hsub. }
  pose proof (reachable_any_inv Potion T (reachable_is_any Potion T Hr))
    as Hinv.
  destruct (delete_present_spec Potion T (buy_price potion) Hinv Hin)
    as (t' & e1 & v & e2 & Ed & He & He' & _).
  assert (v = potion) as ->.
  { apply (key_once (entries (root T)) (buy_price potion)).
    - rewrite entries_keys. exact Hs.
    - rewrite He. apply in_or_app. simpl. auto.
    - rewrite Hprice. exact Hsub. }
  exists potion, seed, t', e1, e2.
  split; [|split; [exact He|split; [exact He'|]]].
  - unfold Game.choose_round. cbn [Game.inventory_tree Game.rand].
    rewrite Ern. unfold kth_largest. rewrite Ek. rewrite Ed. reflexivity.
  - eapply reach_delete; [exact Hr|exact Ed].
Qed.

Lemma choose_rounds_spec (rounds : nat) (g : Game.Game Potion)
      (acc : list Potion) :
  reachable (Game.inventory_tree g) -> priced (Game.inventory_tree g) ->
  Z.of_nat rounds <= length (Game.inventory_tree g) ->
  exists ps g',
    choose_rounds rounds g acc = (Ok (acc ++ ps), g') /\
    List.length ps = rounds /\
    reachable (Game.inventory_tree g') /\ priced (Game.inventory_tree g') /\
    length (Game.inventory_tree g')
    = length (Game.inventory_tree g) - Z.of_nat rounds /\
    (forall p, In p ps ->
       In (buy_price p, p) (entries (root (Game.inventory_tree g)))) /\
    NoDup (map buy_price ps) /\
    (forall e, In e (entries (root (Game.inventory_tree g'))) <->
               In e (entries (root (Game.inventory_tree g))) /\
               ~ In (fst e) (map buy_price ps)).
Proof.
  revert g acc. induction rounds as [|rounds IH]; intros g acc Hr Hp Hn.
  - exists [], g. cbn [Game.choose_rounds]. rewrite app_nil_r.
    split; [reflexivity|]. split; [reflexivity|]. split; [exact Hr|].
    split; [exact Hp|]. split; [simpl; lia|]. split; [intros p []|].
    split; [constructor|]. intros e. simpl. tauto.
  - destruct (choose_round_spec g Hr Hp ltac:(lia))
      as (potion & seed & t' & e1 & e2 & Er & He & He' & Hr').
    set (g1 := Game.mkGame seed
                 (mkTree t' (length (Game.inventory_tree g) - 1))) in *.
    assert (Hs : increasing (map fst (entries (root (Game.inventory_tree g))))).
    { rewrite entries_keys.
      apply (reachable_inv Potion _ Hr). }
    assert (Hp1 : priced (Game.inventory_tree g1)).
    { intros k v Hin. apply Hp. simpl in Hin. rewrite He' in Hin.
      rewrite He. apply in_app_or in Hin. apply in_or_app. simpl. tauto. }
    destruct (IH g1 (acc ++ [potion]) Hr' Hp1)
      as (ps & g' & E & Hlen & Hrg & Hpg & Hl & Hin & Hnd & Hrem).
    { simpl. lia. }
    exists (potion :: ps), g'. cbn [Game.choose_rounds]. rewrite Er, E.
    rewrite <- app_assoc. simpl in Hl, Hin, Hrem. rewrite He' in Hin, Hrem.
    pose proof (key_gone e1 e2 (buy_price potion) potion) as Hgone.
    rewrite He in Hs. specialize (Hgone Hs).
    split; [reflexivity|]. split; [simpl; lia|].
    split; [exact Hrg|]. split; [exact Hpg|]. split; [lia|].
    split; [|split].
    + intros p [<-|Hpin].
      * rewrite He. apply in_or_app. simpl. auto.
      * specialize (Hin p Hpin). rewrite He. apply in_app_or in Hin.
        apply in_or_app. simpl. tauto.
    + simpl. constructor; [|exact Hnd].
      intros Hdup. apply in_map_iff in Hdup.
      destruct Hdup as (p & Hprice & Hpin). apply Hgone.
      rewrite <- Hprice. change (buy_price p) with (fst (buy_price p, p)).
      apply in_map. apply Hin. exact Hpin.
    + intros e. rewrite Hrem, He. simpl. split.
      * intros (Hine & Hnot). split.
        -- apply in_app_or in Hine. apply in_or_app. simpl. tauto.
        -- intros [Heq|Hin']; [|contradiction].
           apply Hgone. rewrite Heq. apply in_map. exact Hine.
      * intros (Hine & Hnot). split; [|tauto].
        apply in_app_or in Hine. apply in_or_app.
        destruct Hine as [H|[H|H]]; auto.
        exfalso. apply Hnot. left. rewrite <- H. reflexivity.
Qed.

Lemma choose_rounds_add (a b : nat) (g : Game.Game Potion)
      (acc : list Potion) :
  choose_rounds (a + b) g acc
  = match choose_rounds a g acc with
    | (Ok ps, g') => choose_rounds b g' ps
    | (Err e, g') => (Err e, g')
    end.
Proof.
  revert g acc. induction a as [|a IH]; intros g acc.
  - reflexivity.
  - cbn [Nat.add Game.choose_rounds].
    destruct (choose_round g) as [[potion|e] g1]; auto.
Qed.

(** With no more vendors than potions in the tree, built with every potion
    under its price, the loop of [choose_potions_for_vendors] raises
    nothing: it picks as many potions as there are vendors, each from the
    tree and no two of one price, and leaves in the tree exactly the potions
    not picked. *)
Theorem choose_potions_succeeds (num_vendors : Z) (g : Game.Game Potion) :
  reachable (Game.inventory_tree g) -> priced (Game.inventory_tree g) ->
  0 <= num_vendors <= length (Game.inventory_tree g) ->
  exists ps g',
    Game.choose_potions_for_vendors buy_price num_vendors g = (Ok ps, g') /\
    Z.of_nat (List.length ps) = num_vendors /\
    length (Game.inventory_tree g')
    = length (Game.inventory_tree g) - num_vendors /\
    (forall p, In p ps ->
       In (buy_price p, p) (entries (root (Game.inventory_tree g)))) /\
    NoDup (map buy_price ps) /\
    (forall e, In e (entries (root (Game.inventory_tree g'))) <->
               In e (entries (root (Game.inventory_tree g))) /\
               ~ In (fst e) (map buy_price ps)).
Proof.
  intros Hr Hp Hn. unfold Game.choose_potions_for_vendors.
  destruct (Z.ltb_spec num_vendors 0); [lia|].
  destruct (choose_rounds_spec (Z.to_nat num_vendors) g [] Hr Hp
              ltac:(lia))
    as (ps & g' & E & Hlen & _ & _ & Hl & Hin & Hnd & Hrem).
  exists ps, g'. rewrite E. simpl.
  repeat split; auto; try lia; apply Hrem; auto.
Qed.

(** With more vendors than potions the loop empties the tree and then
    raises the [ValueError] of [randint(0)]: the tree is left without a
    potion.  A negative number of vendors raises [ValueError] at once. *)
Theorem choose_potions_too_many (num_vendors : Z) (g : Game.Game Potion) :
  reachable (Game.inventory_tree g) -> priced (Game.inventory_tree g) ->
  (length (Game.inventory_tree g) < num_vendors ->
   exists g',
     Game.choose_potions_for_vendors buy_price num_vendors g
     = (Err ValueError, g') /\
     Game.inventory_tree g' = mkTree Nil 0) /\
  (num_vendors < 0 ->
   Game.choose_potions_for_vendors buy_price num_vendors g
   = (Err ValueError, g)).
Proof.
  intros Hr Hp. unfold Game.choose_potions_for_vendors. split; intros Hn.
  - destruct (reachable_inv Potion _ Hr) as (_ & _ & Hcount).
    pose proof (count_nonneg Potion (root (Game.inventory_tree g))) as H0.
    destruct (Z.ltb_spec num_vendors 0); [lia|].
    set (len := Z.to_nat (length (Game.inventory_tree g))).
    replace (Z.to_nat num_vendors)
      with (len + S (Z.to_nat num_vendors - len - 1))%nat
      by (unfold len; lia).
    rewrite choose_rounds_add.
    destruct (choose_rounds_spec len g [] Hr Hp ltac:(unfold len; lia))
      as (ps & g' & E & _ & Hr' & _ & Hl & _).
    rewrite E. simpl app. cbn [Game.choose_rounds].
    destruct g' as [seed T']. cbn [Game.inventory_tree] in *.
    destruct (reachable_inv Potion _ Hr') as (_ & _ & Hcount').
    assert (Hzero : length T' = 0) by (unfold len in Hl; lia).
    assert (Hnil : root T' = Nil)
      by (apply count_zero_nil; lia).
    unfold Game.choose_round. cbn [Game.inventory_tree Game.rand].
    rewrite Hzero. cbn. eexists. split; [reflexivity|].
    destruct T' as [rt n]. simpl in *. congruence.
  - destruct (Z.ltb_spec num_vendors 0); [reflexivity|lia].
Qed.

End GameFacts.

(** ** The vendors' choice at the tree of the specification *)

Lemma Tspec_priced : Game.priced (fun p : Z => p / 10) Examples.Tspec.
Proof.
  intros k v H. vm_compute in H.
  repeat (destruct H as [H|H]; [injection H as <- <-; reflexivity|]).
  destruct H.
Qed.

Lemma choose_potions_succeeds_witness :
  exists ps g',
    Game.choose_potions_for_vendors (fun p : Z => p / 10) 3
      (Game.mkGame 0 Examples.Tspec) = (Ok ps, g') /\
    Z.of_nat (List.length ps) = 3 /\
    length (Game.inventory_tree g') = length Examples.Tspec - 3 /\
    (forall p, In p ps -> In (p / 10, p) (entries (root Examples.Tspec))) /\
    NoDup (map (fun p : Z => p / 10) ps) /\
    (forall e, In e (entries (root (Game.inventory_tree g'))) <->
               In e (entries (root Examples.Tspec)) /\
               ~ In (fst e) (map (fun p : Z => p / 10) ps)).
Proof.
  apply (choose_potions_succeeds Z (fun p : Z => p / 10) 3
           (Game.mkGame 0 Examples.Tspec) Tspec_reachable Tspec_priced).
  vm_compute. split; discriminate.
Defined.

Lemma choose_potions_too_many_witness :
  exists g',
    Game.choose_potions_for_vendors (fun p : Z => p / 10) 6
      (Game.mkGame 0 Examples.Tspec) = (Err ValueError, g') /\
    Game.inventory_tree g' = mkTree Nil 0.
Proof.
  apply (proj1 (choose_potions_too_many Z (fun p : Z => p / 10) 6
                  (Game.mkGame 0 Examples.Tspec) Tspec_reachable
                  Tspec_priced)).
  vm_compute. reflexivity.
Defined.

(** * The sieve *)

Lemma range_list_in (start stop step i : Z) :
  0 < step ->
  (In i (Primes.range_list start stop step) <->
   exists n, 0 <= n /\ i = start + n * step /\ i < stop).
Proof.
  intros Hstep. unfold Primes.range_list. rewrite in_map_iff.
  set (q := (stop - start + step - 1) / step).
  assert (Hq : forall n, 0 <= n -> (n < q <-> start + n * step < stop)).
  { intros n Hn. unfold q. split.
    - intros Hlt.
      pose proof (Z.mul_div_le (stop - start + step - 1) step Hstep).
      nia.
    - intros Hlt.
      assert (n + 1 <= (stop - start + step - 1) / step); [|lia].
      apply Z.div_le_lower_bound; [lia|]. nia. }
  split.
  - intros (n & <- & Hin). apply in_seq in Hin. exists (Z.of_nat n).
    split; [lia|]. split; [reflexivity|]. apply Hq; lia.
  - intros (n & Hn & -> & Hlt). exists (Z.to_nat n).
    rewrite Z2Nat.id by lia. split; [reflexivity|].
    apply in_seq. apply Hq in Hlt; lia.
Qed.

Lemma flag_set (lst : list bool) (a j : Z) :
  0 <= a -> 0 <= j ->
  (Primes.flag (list_set lst (Z.to_nat a) false) j = true <->
   Primes.flag lst j = true /\ j <> a).
Proof.
  intros Ha Hj. unfold Primes.flag.
  destruct (Z.eq_dec j a) as [->|Hne].
  - split; [|tauto]. intros H. exfalso.
    destruct (Nat.lt_ge_cases (Z.to_nat a) (List.length lst)) as [Hlt|Hge].
    + rewrite list_set_nth_same in H by exact Hlt. discriminate.
    + rewrite nth_overflow in H; [discriminate|].
      rewrite list_set_length. exact Hge.
  - rewrite list_set_nth_other by lia. tauto.
Qed.

Lemma fold_set_flag (idxs : list Z) (lst : list bool) (j : Z) :
  (forall i, In i idxs -> 0 <= i) -> 0 <= j ->
  (Primes.flag
     (fold_left (fun l i => list_set l (Z.to_nat i) false) idxs lst) j = true
   <-> Primes.flag lst j = true /\ ~ In j idxs).
Proof.
  revert lst. induction idxs as [|a idxs IH]; intros lst Hpos Hj.
  - simpl. tauto.
  - cbn [fold_left]. rewrite IH by (auto; intros; apply Hpos; simpl; auto).
    rewrite flag_set by (auto; apply Hpos; simpl; auto).
    simpl. split.
    + intros ((H1 & H2) & H3). split; auto. intros [E|E]; auto.
    + intros (H1 & H2). repeat split; auto.
Qed.

Lemma fold_set_length (idxs : list Z) (lst : list bool) :
  List.length (fold_left (fun l i => list_set l (Z.to_nat i) false) idxs lst)
  = List.length lst.
Proof.
  revert lst. induction idxs as [|a idxs IH]; intros lst; simpl; auto.
  rewrite IH. apply list_set_length.
Qed.

Lemma cross_out_flag (lst : list bool) (p k j : Z) :
  2 <= p -> 0 <= j ->
  (Primes.flag (Primes.cross_out lst p k) j = true <->
   Primes.flag lst j = true /\ ~ (p * p <= j <= k /\ (p | j))).
Proof.
  intros Hp Hj. unfold Primes.cross_out. rewrite fold_set_flag; auto.
  - rewrite range_list_in by lia. split; intros (H1 & H2); split; auto.
    + intros (Hr & (c & Hc)). apply H2. exists (c - p).
      split; [nia|]. split; [nia|lia].
    + intros (n & Hn & -> & Hlt). apply H2. split; [nia|].
      exists (p + n). lia.
  - intros i Hi. apply range_list_in in Hi; [|lia].
    destruct Hi as (n & Hn & -> & _). nia.
Qed.

Section PrimesFacts.

Variable le_sqrt : Z -> Z -> bool.
Variable k : Z.

(** The float comparison agrees with the exact one at this [k]. *)
Hypothesis le_sqrt_exact : forall p, 2 <= p -> le_sqrt p k = (p * p <=? k).

Lemma sifted_start :
  0 <= k -> Primes.sifted k 2 (repeat true (Z.to_nat (k + 1))).
Proof.
  intros Hk. split.
  - rewrite repeat_length. lia.
  - intros i Hi. unfold Primes.flag. split.
    + intros _ (d & Hd & _). lia.
    + intros _. apply nth_repeat_lt. lia.
Qed.

Lemma sifted_step (p : Z) (lst : list bool) :
  2 <= p -> p * p <= k -> Primes.sifted k p lst ->
  Primes.sifted k (p + 1)
    (if Primes.flag lst p then Primes.cross_out lst p k else lst).
Proof.
  intros Hp Hpk (Hlen & Hflags).
  assert (Hpr : 2 <= p <= k) by nia.
  destruct (Primes.flag lst p) eqn:Ep.
  - split.
    + unfold Primes.cross_out. rewrite fold_set_length. exact Hlen.
    + intros i Hi. rewrite cross_out_flag by lia. rewrite (Hflags i Hi).
      split.
      * intros (H1 & H2) (d & Hd & Hdiv & Hsq).
        destruct (Z.eq_dec d p) as [->|Hne].
        -- apply H2. split; [lia|exact Hdiv].
        -- apply H1. exists d. split; [lia|auto].
      * intros H. split.
        -- intros (d & Hd & Hrest). apply H. exists d. split; [lia|auto].
        -- intros (Hr & Hdiv). apply H. exists p. split; [lia|].
           split; [exact Hdiv|lia].
  - split; [exact Hlen|].
    intros i Hi. rewrite (Hflags i Hi).
    assert (Hcomp : ~ ~ exists d, 2 <= d < p /\ (d | p) /\ d * d <= p).
    { destruct (Hflags p Hpr) as (_ & H). intros Hn.
      rewrite H in Ep; [discriminate|exact Hn]. }
    split.
    + intros H (d & Hd & Hdiv & Hsq).
      destruct (Z.eq_dec d p) as [->|Hne].
      * apply Hcomp. intros (d0 & Hd0 & Hdiv0 & Hsq0).
        apply H. exists d0. split; [lia|]. split.
        -- apply Z.divide_trans with p; assumption.
        -- nia.
      * apply H. exists d. split; [lia|auto].
    + intros H (d & Hd & Hrest). apply H. exists d. split; [lia|auto].
Qed.

Lemma sieve_runs (fuel : nat) (p : Z) (lst : list bool) :
  2 <= p <= k + 1 -> k + 3 - p <= Z.of_nat fuel ->
  Primes.sifted k p lst ->
  exists lst' p',
    Primes.sieve le_sqrt fuel k p lst = Some lst' /\
    2 <= p' /\ k < p' * p' /\ Primes.sifted k p' lst'.
Proof.
  revert p lst. induction fuel as [|fuel IH]; intros p lst Hp Hfuel Hs.
  - lia.
  - cbn [Primes.sieve]. rewrite le_sqrt_exact by lia.
    destruct (Z.leb_spec (p * p) k) as [Hle|Hgt].
    + apply IH.
      * nia.
      * lia.
      * apply sifted_step; auto; lia.
    + exists lst, p. split; [reflexivity|].
      split; [lia|]. split; [lia|exact Hs].
Qed.

End PrimesFacts.

Lemma prime_no_small_divisor (i : Z) :
  2 <= i ->
  (Z.prime i <-> ~ exists d, 2 <= d /\ (d | i) /\ d * d <= i).
Proof.
  intros Hi. split.
  - intros (_ & Hprime) (d & Hd & Hdiv & Hsq).
    apply (Hprime d); [nia|exact Hdiv].
  - intros Hno. split; [lia|]. intros n Hn (c & Hc).
    apply Hno. destruct (Z.le_gt_cases (n * n) i) as [Hle|Hgt].
    + exists n. split; [lia|]. split; [exists c; exact Hc|exact Hle].
    + exists c. split; [nia|]. split; [exists n; lia|nia].
Qed.

Lemma scan_last (f : Z -> bool) (c : nat) :
  let r := fold_left (fun index i => if f i then i else index)
             (map (fun n => 2 + Z.of_nat n * 1) (seq 0 c)) 0 in
  (r = 0 /\ forall n, (n < c)%nat -> f (2 + Z.of_nat n) = false) \/
  (exists n, (n < c)%nat /\ r = 2 + Z.of_nat n /\ f r = true /\
     forall n', (n < n' < c)%nat -> f (2 + Z.of_nat n') = false).
Proof.
  induction c as [|c IH]; cbv zeta.
  - left. split; [reflexivity|]. intros n Hn. lia.
  - rewrite seq_S, map_app, fold_left_app. cbn [map fold_left Nat.add].
    rewrite Z.mul_1_r.
    destruct (f (2 + Z.of_nat c)) eqn:Efc.
    + right. exists c. repeat split; auto. intros n' Hn'. lia.
    + cbv zeta in IH. destruct IH as [(Hr & Hall)|(n & Hn & Hr & Hf & Hafter)].
      * left. split; [exact Hr|]. intros n Hn.
        destruct (Nat.eq_dec n c) as [->|Hne]; [exact Efc|].
        apply Hall. lia.
      * right. exists n. repeat split; auto.
        intros n' Hn'. destruct (Nat.eq_dec n' c) as [->|Hne]; [exact Efc|].
        apply Hafter. lia.
Qed.

(** For [k] above 2, [largest_prime(k)] returns the largest prime strictly
    below [k], whenever the float comparison [p <= sqrt(k)] of the loop
    agrees with [p * p <= k]; the loop stops within [k + 1] rounds.  For
    [k] of 2 or less it raises [ValueError]. *)
Theorem largest_prime_correct (le_sqrt : Z -> Z -> bool) (k : Z) :
  (forall p, 2 <= p -> le_sqrt p k = (p * p <=? k)) ->
  (2 < k ->
   forall fuel, k + 1 <= Z.of_nat fuel ->
   exists p,
     Primes.largest_prime le_sqrt fuel k = Some (Done p) /\
     Z.prime p /\ p < k /\ forall q, Z.prime q -> q < k -> q <= p) /\
  (k <= 2 ->
   forall fuel,
     Primes.largest_prime le_sqrt fuel k = Some (Fail (Exn ValueError))).
Proof.
  intros Hsqrt. split.
  - intros Hk fuel Hfuel. unfold Primes.largest_prime.
    destruct (Z.leb_spec k 2); [lia|].
    destruct (sieve_runs le_sqrt k Hsqrt fuel 2
                (repeat true (Z.to_nat (k + 1))))
      as (lst & p' & E & Hp' & Hpk & (Hlen & Hflags)); try lia.
    { apply sifted_start. lia. }
    rewrite E.
    assert (Hprime : forall i, 2 <= i <= k ->
                       (Primes.flag lst i = true <-> Z.prime i)).
    { intros i Hi. rewrite (Hflags i Hi), prime_no_small_divisor by lia.
      split; intros Hno (d & Hd & Hdiv & Hsq); apply Hno; exists d.
      - split; [nia|auto].
      - split; [lia|auto]. }
    unfold Primes.scan, Primes.range_list. rewrite Hlen.
    replace ((k + 1 - 1 - 2 + 1 - 1) / 1) with (k - 2)
      by (rewrite Z.div_1_r; lia).
    destruct (scan_last (Primes.flag lst) (Z.to_nat (k - 2)))
      as [(_ & Hall)|(n & Hn & Hr & Hf & Hafter)].
    + exfalso. specialize (Hall 0%nat ltac:(lia)).
      assert (Primes.flag lst 2 = true)
        by (apply Hprime; [lia|apply Z.prime_2]).
      simpl in Hall. congruence.
    + eexists. split; [reflexivity|]. rewrite Hr in *.
      split; [apply Hprime; [lia|exact Hf]|]. split; [lia|].
      intros q Hq Hqk.
      assert (2 <= q) by (destruct Hq; lia).
      destruct (Z.le_gt_cases q (2 + Z.of_nat n)) as [Hle|Hgt]; auto.
      exfalso.
      specialize (Hafter (Z.to_nat (q - 2)) ltac:(lia)).
      replace (2 + Z.of_nat (Z.to_nat (q - 2))) with q in Hafter by lia.
      assert (Primes.flag lst q = true) by (apply Hprime; [lia|exact Hq]).
      congruence.
  - intros Hk fuel. unfold Primes.largest_prime.
    destruct (Z.leb_spec k 2); [reflexivity|lia].
Qed.

Lemma largest_prime_correct_witness :
  exists p,
    Primes.largest_prime (fun p k => p * p <=? k) 40 30 = Some (Done p) /\
    Z.prime p /\ p < 30 /\ forall q, Z.prime q -> q < 30 -> q <= p.
Proof.
  apply (proj1 (largest_prime_correct (fun p k => p * p <=? k) 30
                  (fun p _ => eq_refl))).
  - lia.
  - lia.
Defined.

(** * Properties of the merge sort *)

Lemma py_range_nil (start stop : Z) :
  stop <= start -> MergeSort.py_range start stop = [].
Proof.
  intros H. unfold MergeSort.py_range.
  replace (Z.to_nat (stop - start)) with 0%nat by lia. reflexivity.
Qed.

Lemma py_range_cons (start stop : Z) :
  start < stop ->
  MergeSort.py_range start stop = start :: MergeSort.py_range (start + 1) stop.
Proof.
  intros H. unfold MergeSort.py_range.
  replace (Z.to_nat (stop - start))
    with (S (Z.to_nat (stop - (start + 1)))) by lia.
  cbn [seq map]. f_equal; [lia|].
  rewrite <- seq_shift, map_map. apply map_ext. intros n. lia.
Qed.

Lemma py_index_app_mid {A : Type} (pre post : list A) (c : A) (i : Z) :
  i = Z.of_nat (List.length pre) ->
  py_index (pre ++ c :: post) i = Done c.
Proof.
  intros ->. unfold py_index.
  destruct (Z.ltb_spec (Z.of_nat (List.length pre)) 0) as [H|_]; [lia|].
  destruct (Z.ltb_spec (Z.of_nat (List.length pre)) 0) as [H|_]; [lia|].
  rewrite Nat2Z.id, nth_error_app2 by lia.
  rewrite Nat.sub_diag. reflexivity.
Qed.

Lemma py_store_app_mid {A : Type} (pre post : list A) (c v : A) (i : Z) :
  i = Z.of_nat (List.length pre) ->
  py_store (pre ++ c :: post) i v = Done (pre ++ v :: post).
Proof.
  intros ->. unfold py_store.
  destruct (Z.ltb_spec (Z.of_nat (List.length pre)) 0) as [H|_]; [lia|].
  destruct (Z.ltb_spec (Z.of_nat (List.length pre)) 0) as [H|_]; [lia|].
  destruct (Z.leb_spec (Z.of_nat (List.length (pre ++ c :: post)))
              (Z.of_nat (List.length pre))) as [H|_].
  { rewrite length_app in H. simpl in H. lia. }
  cbn [orb]. rewrite Nat2Z.id. f_equal.
  induction pre as [|b pre IH]; simpl; [reflexivity|].
  rewrite IH. reflexivity.
Qed.

Section MergeSortFacts.

Import MergeSort.

Variable F : Type.
Variable fle : F -> F -> bool.

#[local] Abbreviation item := (item F).
#[local] Abbreviation cell := (cell F).

Lemma reads_app (pre cs post : list cell) (i : Z) :
  i = Z.of_nat (List.length pre) -> reads (pre ++ cs ++ post) i cs.
Proof.
  intros -> n c Hn.
  destruct (nth_error_split cs n Hn) as (l1 & l2 & -> & Hlen).
  rewrite <- app_assoc, app_assoc. cbn [app].
  apply py_index_app_mid. rewrite length_app. lia.
Qed.

Lemma reads_head (array : list cell) (i : Z) (c : cell) (cs : list cell) :
  reads array i (c :: cs) -> py_index array i = Done c.
Proof.
  intros H. specialize (H 0%nat c eq_refl).
  replace (i + Z.of_nat 0) with i in H by lia. exact H.
Qed.

Lemma reads_tail (array : list cell) (i : Z) (c : cell) (cs : list cell) :
  reads array i (c :: cs) -> reads array (i + 1) cs.
Proof.
  intros H n d Hn. specialize (H (S n) d Hn).
  replace (i + 1 + Z.of_nat n) with (i + Z.of_nat (S n)) by lia. exact H.
Qed.

Lemma merge_nil_l (ys : list item) : merge fle [] ys = ys.
Proof. destruct ys; reflexivity. Qed.

Lemma merge_nil_r (xs : list item) : merge fle xs [] = xs.
Proof. destruct xs; reflexivity. Qed.

Lemma merge_perm (xs ys : list item) :
  Permutation (xs ++ ys) (merge fle xs ys).
Proof.
  revert ys. induction xs as [|x xs IHx]; intros ys.
  - rewrite merge_nil_l. apply Permutation_refl.
  - induction ys as [|y ys IHy].
    + rewrite merge_nil_r, app_nil_r. apply Permutation_refl.
    + cbn [merge]. destruct (fle (key x) (key y)).
      * cbn [app]. apply perm_skip. apply IHx.
      * apply Permutation_trans with (y :: (x :: xs) ++ ys).
        { apply Permutation_sym, Permutation_middle. }
        apply perm_skip. exact IHy.
Qed.

Hypothesis fle_total : forall a b, fle a b = false -> fle b a = true.
Hypothesis fle_trans :
  forall a b c, fle a b = true -> fle b c = true -> fle a c = true.

Lemma merge_sorted (xs ys : list item) :
  StronglySorted (key_le fle) xs -> StronglySorted (key_le fle) ys ->
  StronglySorted (key_le fle) (merge fle xs ys).
Proof.
  revert ys. induction xs as [|x xs IHx]; intros ys Hx Hy.
  - rewrite merge_nil_l. exact Hy.
  - induction ys as [|y ys IHy].
    + rewrite merge_nil_r. exact Hx.
    + apply StronglySorted_inv in Hx. destruct Hx as [Hxs Hxall].
      pose proof (StronglySorted_inv Hy) as [Hys Hyall].
      cbn [merge]. destruct (fle (key x) (key y)) eqn:E.
      * constructor; [apply IHx; assumption|].
        apply (Permutation_Forall (merge_perm xs (y :: ys))).
        apply Forall_app. split; [exact Hxall|].
        constructor; [exact E|].
        eapply Forall_impl; [|exact Hyall].
        intros z Hz. unfold key_le in *. eapply fle_trans; eassumption.
      * constructor; [apply IHy; assumption|].
        apply (Permutation_Forall (merge_perm (x :: xs) ys)).
        apply Forall_app. split; [|exact Hyall].
        apply fle_total in E. constructor; [exact E|].
        eapply Forall_impl; [|exact Hxall].
        intros z Hz. unfold key_le in *. eapply fle_trans; eassumption.
Qed.

Lemma merge_step_spec (array : list cell) (mid end_ : Z)
    (xs ys : list item) (ia ib k : Z) (T1 R : list cell) (c : cell) :
  reads array ia (map Some xs) -> reads array ib (map Some ys) ->
  mid = ia + Z.of_nat (List.length xs) - 1 ->
  end_ = ib + Z.of_nat (List.length ys) - 1 ->
  k = Z.of_nat (List.length T1) ->
  merge_step fle array mid end_ (ia, ib, T1 ++ c :: R) k =
  match xs, ys with
  | [], [] => merge_step fle array mid end_ (ia, ib, T1 ++ c :: R) k
  | [], y :: _ => Done (ia, ib + 1, (T1 ++ [Some y]) ++ R)
  | x :: _, [] => Done (ia + 1, ib, (T1 ++ [Some x]) ++ R)
  | x :: _, y :: _ =>
      if fle (key x) (key y) then Done (ia + 1, ib, (T1 ++ [Some x]) ++ R)
      else Done (ia, ib + 1, (T1 ++ [Some y]) ++ R)
  end.
Proof.
  intros Ha Hb Hmid Hend Hk.
  assert (Hstore : forall v,
            py_store (T1 ++ c :: R) k v = Done ((T1 ++ [v]) ++ R)).
  { intros v. rewrite py_store_app_mid by exact Hk.
    rewrite <- app_assoc. reflexivity. }
  destruct xs as [|x xs]; destruct ys as [|y ys]; [reflexivity| | |];
    unfold merge_step, copy_cell, compare_at; simpl List.length in *.
  - destruct (Z.ltb_spec mid ia) as [_|H]; [|lia].
    rewrite (reads_head array ib (Some y) (map Some ys) Hb), Hstore.
    reflexivity.
  - destruct (Z.ltb_spec mid ia) as [H|_]; [lia|].
    destruct (Z.ltb_spec end_ ib) as [_|H]; [|lia].
    rewrite (reads_head array ia (Some x) (map Some xs) Ha), Hstore.
    reflexivity.
  - destruct (Z.ltb_spec mid ia) as [H|_]; [lia|].
    destruct (Z.ltb_spec end_ ib) as [H|_]; [lia|].
    rewrite (reads_head array ia (Some x) (map Some xs) Ha).
    rewrite (reads_head array ib (Some y) (map Some ys) Hb).
    destruct (fle (key x) (key y)); rewrite Hstore; reflexivity.
Qed.

Lemma merge_loop_spec (array : list cell) (mid end_ : Z) :
  forall (T2 : list cell) (xs ys : list item) (ia ib k : Z)
         (T1 T3 : list cell),
  reads array ia (map Some xs) -> reads array ib (map Some ys) ->
  mid = ia + Z.of_nat (List.length xs) - 1 ->
  end_ = ib + Z.of_nat (List.length ys) - 1 ->
  List.length T2 = (List.length xs + List.length ys)%nat ->
  k = Z.of_nat (List.length T1) ->
  exists ia' ib',
    for_loop (merge_step fle array mid end_)
      (py_range k (k + Z.of_nat (List.length T2)))
      (ia, ib, T1 ++ T2 ++ T3)
    = Done (ia', ib', T1 ++ map Some (merge fle xs ys) ++ T3).
Proof.
  induction T2 as [|c T2 IH]; intros xs ys ia ib k T1 T3 Ha Hb Hmid Hend Hlen Hk.
  - destruct xs; [|simpl in Hlen; lia]. destruct ys; [|simpl in Hlen; lia].
    rewrite py_range_nil by (simpl; lia). exists ia, ib. reflexivity.
  - rewrite py_range_cons by (simpl List.length; lia).
    replace (k + Z.of_nat (List.length (c :: T2)))
      with (k + 1 + Z.of_nat (List.length T2)) by (simpl List.length; lia).
    cbn [for_loop app].
    rewrite (merge_step_spec array mid end_ xs ys ia ib k T1 (T2 ++ T3) c
               Ha Hb Hmid Hend Hk).
    assert (Hk' : forall v : cell,
              k + 1 = Z.of_nat (List.length (T1 ++ [v]))).
    { intros v. rewrite length_app. simpl. lia. }
    assert (Hnext_a : forall x xs', xs = x :: xs' ->
              exists ia' ib',
                for_loop (merge_step fle array mid end_)
                  (py_range (k + 1) (k + 1 + Z.of_nat (List.length T2)))
                  (ia + 1, ib, (T1 ++ [Some x]) ++ T2 ++ T3)
                = Done (ia', ib',
                        T1 ++ Some x :: map Some (merge fle xs' ys) ++ T3)).
    { intros x xs' ->.
      destruct (IH xs' ys (ia + 1) ib (k + 1) (T1 ++ [Some x]) T3
                  (reads_tail _ _ _ _ Ha) Hb
                  ltac:(simpl List.length in *; lia) Hend
                  ltac:(simpl in *; lia) (Hk' _))
        as (ia' & ib' & E).
      exists ia', ib'. rewrite E, <- app_assoc. reflexivity. }
    assert (Hnext_b : forall y ys', ys = y :: ys' ->
              exists ia' ib',
                for_loop (merge_step fle array mid end_)
                  (py_range (k + 1) (k + 1 + Z.of_nat (List.length T2)))
                  (ia, ib + 1, (T1 ++ [Some y]) ++ T2 ++ T3)
                = Done (ia', ib',
                        T1 ++ Some y :: map Some (merge fle xs ys') ++ T3)).
    { intros y ys' ->.
      destruct (IH xs ys' ia (ib + 1) (k + 1) (T1 ++ [Some y]) T3
                  Ha (reads_tail _ _ _ _ Hb) Hmid
                  ltac:(simpl List.length in *; lia)
                  ltac:(simpl in *; lia) (Hk' _))
        as (ia' & ib' & E).
      exists ia', ib'. rewrite E, <- app_assoc. reflexivity. }
    destruct xs as [|x xs]; destruct ys as [|y ys].
    + simpl in Hlen. lia.
    + rewrite merge_nil_l. rewrite <- (merge_nil_l ys).
      apply Hnext_b. reflexivity.
    + rewrite merge_nil_r. rewrite <- (merge_nil_r xs).
      apply Hnext_a. reflexivity.
    + cbn [merge]. destruct (fle (key x) (key y)).
      * apply (Hnext_a x xs eq_refl).
      * apply (Hnext_b y ys eq_refl).
Qed.

Lemma copy_loop_spec (tmp : list cell) :
  forall (M old : list cell) (k : Z) (pre post : list cell),
  reads tmp k M -> List.length old = List.length M ->
  k = Z.of_nat (List.length pre) ->
  for_loop (fun array i => copy_cell tmp array i i)
    (py_range k (k + Z.of_nat (List.length M))) (pre ++ old ++ post)
  = Done (pre ++ M ++ post).
Proof.
  induction M as [|c M IH]; intros old k pre post Hr Hlen Hk.
  - destruct old; [|simpl in Hlen; lia].
    rewrite py_range_nil by (simpl; lia). reflexivity.
  - destruct old as [|o old]; [simpl in Hlen; lia|].
    rewrite py_range_cons by (simpl List.length; lia).
    replace (k + Z.of_nat (List.length (c :: M)))
      with (k + 1 + Z.of_nat (List.length M)) by (simpl List.length; lia).
    cbn [for_loop app]. unfold copy_cell at 1.
    rewrite (reads_head tmp k c M Hr), py_store_app_mid by exact Hk.
    replace (pre ++ c :: old ++ post) with ((pre ++ [c]) ++ old ++ post)
      by (rewrite <- app_assoc; reflexivity).
    rewrite (IH old (k + 1) (pre ++ [c]) post).
    + rewrite <- app_assoc. reflexivity.
    + eapply reads_tail. exact Hr.
    + simpl in Hlen. lia.
    + rewrite length_app. simpl. lia.
Qed.

Lemma merge_array_spec (pre post tmp : list cell) (xs ys : list item)
    (start mid end_ : Z) :
  start = Z.of_nat (List.length pre) ->
  mid = start + Z.of_nat (List.length xs) - 1 ->
  end_ = mid + Z.of_nat (List.length ys) ->
  List.length tmp
  = List.length (pre ++ map Some xs ++ map Some ys ++ post) ->
  exists T1 T3,
    List.length T1 = List.length pre /\ List.length T3 = List.length post /\
    merge_array fle (pre ++ map Some xs ++ map Some ys ++ post)
      start mid end_ tmp
    = Done (T1 ++ map Some (merge fle xs ys) ++ T3).
Proof.
  intros Hstart Hmid Hend Hlen.
  rewrite !length_app, !length_map in Hlen.
  remember (List.length xs + List.length ys)%nat as n eqn:Hn.
  exists (firstn (List.length pre) tmp),
         (skipn n (skipn (List.length pre) tmp)).
  assert (H1 : List.length (firstn (List.length pre) tmp)
               = List.length pre).
  { rewrite length_firstn. lia. }
  assert (H2 : List.length (firstn n (skipn (List.length pre) tmp)) = n).
  { rewrite length_firstn, length_skipn. lia. }
  split; [exact H1|]. split.
  { rewrite !length_skipn. unfold MergeSort.cell in *. lia. }
  unfold merge_array.
  destruct (merge_loop_spec (pre ++ map Some xs ++ map Some ys ++ post)
              mid end_ (firstn n (skipn (List.length pre) tmp)) xs ys
              start (mid + 1) start (firstn (List.length pre) tmp)
              (skipn n (skipn (List.length pre) tmp)))
    as (ia' & ib' & E).
  - apply reads_app. exact Hstart.
  - rewrite (app_assoc pre). apply reads_app.
    rewrite length_app, length_map. lia.
  - lia.
  - lia.
  - rewrite H2. exact Hn.
  - rewrite H1. exact Hstart.
  - rewrite H2, !firstn_skipn in E.
    replace (end_ + 1) with (start + Z.of_nat n) by lia.
    rewrite E. reflexivity.
Qed.

Lemma merge_length (xs ys : list item) :
  List.length (merge fle xs ys) = (List.length xs + List.length ys)%nat.
Proof.
  rewrite <- (Permutation_length (merge_perm xs ys)). apply length_app.
Qed.

Lemma split_at (xs : list item) (m : nat) :
  (m <= List.length xs)%nat ->
  exists xl xr,
    xs = xl ++ xr /\ List.length xl = m /\
    List.length xr = (List.length xs - m)%nat.
Proof.
  intros H. exists (firstn m xs), (skipn m xs).
  rewrite firstn_skipn, length_firstn, length_skipn.
  repeat split; lia.
Qed.

Lemma merge_sort_aux_spec :
  forall (fuel : nat) (xs : list item) (pre post tmp : list cell)
         (start end_ : Z),
  xs <> [] -> (List.length xs <= fuel)%nat ->
  start = Z.of_nat (List.length pre) ->
  end_ = start + Z.of_nat (List.length xs) - 1 ->
  List.length tmp = List.length (pre ++ map Some xs ++ post) ->
  exists ys tmp',
    merge_sort_aux fle fuel (pre ++ map Some xs ++ post) start end_ tmp
    = Some (Done (pre ++ map Some ys ++ post, tmp')) /\
    List.length tmp' = List.length tmp /\
    Permutation xs ys /\ StronglySorted (key_le fle) ys.
Proof.
  induction fuel as [|fuel IH];
    intros xs pre post tmp start end_ Hne Hfuel Hstart Hend Hlen.
  - destruct xs; [congruence|simpl in Hfuel; lia].
  - cbn [merge_sort_aux]. destruct (Z.eqb_spec start end_) as [Heq|Hneq].
    + exists xs, tmp. split; [reflexivity|]. split; [reflexivity|].
      split; [apply Permutation_refl|].
      destruct xs as [|x [|x' xs]];
        [congruence| |simpl List.length in Hend; lia].
      constructor; constructor.
    + cbv zeta. remember ((start + end_) / 2) as mid eqn:Hmid.
      assert (Hbounds : start <= mid < end_).
      { assert (2 <= Z.of_nat (List.length xs)).
        { destruct xs as [|x [|x' xs]]; simpl List.length in *;
            [congruence|lia|lia]. }
        subst mid. Z.div_mod_to_equations. lia. }
      destruct (split_at xs (Z.to_nat (mid - start + 1)) ltac:(lia))
        as (xl & xr & -> & Hxl & Hxr).
      rewrite length_app in Hfuel, Hend, Hxr.
      rewrite map_app, <- app_assoc in Hlen |- *.
      destruct (IH xl pre (map Some xr ++ post) tmp start mid)
        as (yl & tmp1 & E1 & L1 & P1 & S1);
        [destruct xl; [simpl in Hxl; lia|congruence]
        |lia|exact Hstart|lia|exact Hlen|].
      rewrite E1. pose proof (Permutation_length P1) as Hyl.
      rewrite (app_assoc pre (map Some yl)).
      destruct (IH xr (pre ++ map Some yl) post tmp1 (mid + 1) end_)
        as (yr & tmp2 & E2 & L2 & P2 & S2);
        [destruct xr; [simpl List.length in *; lia|congruence]
        |lia
        |rewrite length_app, length_map; lia
        |lia
        |rewrite L1, Hlen, !length_app, !length_map; lia|].
      rewrite E2. pose proof (Permutation_length P2) as Hyr.
      rewrite <- (app_assoc pre (map Some yl)).
      destruct (merge_array_spec pre post tmp2 yl yr start mid end_)
        as (T1 & T3 & HT1 & HT3 & E3);
        [exact Hstart|lia|lia
        |rewrite L2, L1, Hlen, !length_app, !length_map; lia|].
      unfold MergeSort.cell in *. rewrite E3. unfold copy_back.
      replace (end_ + 1)
        with (start + Z.of_nat (List.length (map Some (merge fle yl yr))))
        by (rewrite length_map, merge_length; lia).
      rewrite (app_assoc (map Some yl)).
      rewrite copy_loop_spec.
      * exists (merge fle yl yr), (T1 ++ map Some (merge fle yl yr) ++ T3).
        split; [reflexivity|]. split.
        { rewrite Hlen, !length_app, !length_map, merge_length.
          unfold MergeSort.cell in *. lia. }
        split.
        { apply Permutation_trans with (yl ++ yr).
          - apply Permutation_app; assumption.
          - apply merge_perm. }
        apply merge_sorted; assumption.
      * apply reads_app. unfold MergeSort.cell in *. lia.
      * rewrite length_app, !length_map, merge_length. reflexivity.
      * exact Hstart.
Qed.

Lemma merge_sort_aux_empty_range (fuel : nat) :
  forall (array tmp : list cell) (start end_ : Z),
  end_ < start -> merge_sort_aux fle fuel array start end_ tmp = None.
Proof.
  induction fuel as [|fuel IH]; intros array tmp start end_ H.
  - reflexivity.
  - cbn [merge_sort_aux]. destruct (Z.eqb_spec start end_); [lia|].
    cbv zeta. rewrite IH; [reflexivity|].
    Z.div_mod_to_equations. lia.
Qed.

End MergeSortFacts.

(** [merge_sort] on a non-empty array of tuples returns the tuples in the
    order of their first components, a permutation of the input, when [<=]
    on the first components is total and transitive; the recursion is no
    deeper than the array is long. *)
Theorem merge_sort_sorts (F : Type) (fle : F -> F -> bool)
    (xs : list (MergeSort.item F)) (fuel : nat) :
  (forall a b, fle a b = false -> fle b a = true) ->
  (forall a b c, fle a b = true -> fle b c = true -> fle a c = true) ->
  xs <> [] -> (List.length xs <= fuel)%nat ->
  exists ys,
    MergeSort.merge_sort fle fuel (map Some xs) = Some (Done (map Some ys)) /\
    Permutation xs ys /\ StronglySorted (MergeSort.key_le fle) ys.
Proof.
  intros Htotal Htrans Hne Hfuel. unfold MergeSort.merge_sort. cbv zeta.
  destruct (merge_sort_aux_spec F fle Htotal Htrans fuel xs [] []
              (repeat None (List.length (map Some xs)))
              0 (Z.of_nat (List.length (map Some xs)) - 1))
    as (ys & tmp' & E & _ & Hperm & Hsorted); auto.
  - rewrite length_map. lia.
  - rewrite repeat_length, app_nil_r. reflexivity.
  - cbn [app] in E. rewrite !app_nil_r in E.
    unfold MergeSort.cell in *. rewrite E.
    exists ys. auto.
Qed.

Lemma merge_sort_nil (F : Type) (fle : F -> F -> bool)
    (fuel : nat) :
  MergeSort.merge_sort fle fuel [] = None.
Proof.
  unfold MergeSort.merge_sort. cbv zeta.
  rewrite merge_sort_aux_empty_range; [reflexivity|simpl; lia].
Qed.

(** [merge_sort] on the empty array never returns: [__merge_sort_aux]
    calls itself on the range from 0 to -1 again, at every depth. *)
Theorem merge_sort_empty_never_returns (F : Type) (fle : F -> F -> bool)
    (fuel : nat) :
  MergeSort.merge_sort fle fuel [] = None.
Proof.
  apply merge_sort_nil.
Qed.

Lemma merge_sort_sorts_witness :
  exists ys,
    MergeSort.merge_sort Z.leb 3
      (map Some [(3, [], 0); (1, [], 0); (2, [], 0)])
    = Some (Done (map Some ys)) /\
    Permutation [(3, [], 0); (1, [], 0); (2, [], 0)] ys /\
    StronglySorted (MergeSort.key_le Z.leb) ys.
Proof.
  apply (merge_sort_sorts Z Z.leb [(3, [], 0); (1, [], 0); (2, [], 0)] 3).
  - intros a b H. apply Z.leb_gt in H. apply Z.leb_le. lia.
  - intros a b c H1 H2. apply Z.leb_le in H1, H2. apply Z.leb_le. lia.
  - discriminate.
  - simpl. lia.
Defined.

(** * Properties of [solve_game] *)

Section GameSolveFacts.

Import GameSolve.

Variable F : Type.
Variable zero : F.
Variables fadd fsub fmul : F -> F -> F.
Variable fneg : F -> F.
Variable fdiv : F -> F -> result F.
Variables fle flt feq : F -> F -> bool.
Variable Potion : Type.
Variables buy_price quantity : Potion -> F.

#[local] Abbreviation table := (HashTable.LinearProbePotionTable Potion).

Lemma gather_nothing (potion_valuations : list (str * F)) :
  forall (s : table) (profits : list (MergeSort.item F)),
  HashTable.well_formed s ->
  nothing_to_buy zero fsub flt buy_price quantity s potion_valuations ->
  exists s',
    gather zero fsub fneg fdiv flt buy_price quantity s potion_valuations
      profits = (s', Done profits) /\
    HashTable.same_contents s s'.
Proof.
  induction potion_valuations as [|[name value] rest IH];
    intros s profits Hwf Hnone.
  - exists s. split; [reflexivity|apply same_contents_refl].
  - destruct (Hnone name value (or_introl eq_refl))
      as (potion & Hst & Htest).
    apply stored_slot in Hst. destruct Hst as (p & Hp & Hslot).
    destruct (getitem_slot Potion s name potion p Hwf Hp Hslot)
      as (s1 & E1 & Hc1).
    cbn [gather fst snd]. rewrite E1, Htest.
    destruct (IH s1 profits) as (s2 & E2 & Hc2).
    + eapply well_formed_same_contents; eassumption.
    + intros n v Hin. destruct (Hnone n v (or_intror Hin))
        as (q & Hq & Hqt).
      exists q. split; [|exact Hqt].
      destruct Hc1 as (_ & _ & _ & Ht). unfold HashTable.stored.
      rewrite Ht. exact Hq.
    + exists s2. split; [exact E2|].
      eapply same_contents_trans; eassumption.
Qed.

End GameSolveFacts.

(** When the potion table is well formed and no potion of a non-empty
    [potion_valuations] is worth buying (no profit, or none in stock),
    [solve_game] returns nothing: it hands the empty list of profits to
    [merge_sort], whose recursion does not end. *)
Theorem solve_game_nothing_to_buy (F : Type) (zero : F)
    (fadd fsub fmul : F -> F -> F) (fneg : F -> F)
    (fdiv : F -> F -> result F) (fle flt feq : F -> F -> bool)
    (Potion : Type) (buy_price quantity : Potion -> F)
    (s : HashTable.LinearProbePotionTable Potion)
    (potion_valuations : list (str * F)) (starting_money : list F)
    (fuel : nat) :
  HashTable.well_formed s -> potion_valuations <> [] ->
  GameSolve.nothing_to_buy zero fsub flt buy_price quantity s
    potion_valuations ->
  snd (GameSolve.solve_game zero fadd fsub fmul fneg fdiv fle flt feq
         buy_price quantity fuel s potion_valuations starting_money)
  = None.
Proof.
  intros Hwf Hne Hnone. unfold GameSolve.solve_game.
  destruct potion_valuations as [|v rest]; [congruence|].
  cbn [List.length Nat.eqb].
  destruct (gather_nothing F zero fsub fneg fdiv flt Potion buy_price
              quantity (v :: rest) s [] Hwf Hnone) as (s' & E & _).
  rewrite E. cbn [map].
  rewrite merge_sort_nil. reflexivity.
Qed.

Lemma solve_game_nothing_to_buy_witness :
  snd (GameSolve.solve_game 0 Z.add Z.sub Z.mul Z.opp
         (fun a b => if b =? 0 then Fail ZeroDivisionError else Done (a / b))
         Z.leb Z.ltb
         Z.eqb (fun price : Z => price) (fun _ : Z => 0) 5 TableExamples.T6
         [(TableExamples.str_of "Potion of Instant Health", 30)] [10])
  = None.
Proof.
  apply (solve_game_nothing_to_buy Z 0 Z.add Z.sub Z.mul Z.opp
           (fun a b => if b =? 0 then Fail ZeroDivisionError else Done (a / b))
           Z.leb Z.ltb Z.eqb Z (fun price => price) (fun _ => 0)
           TableExamples.T6
           [(TableExamples.str_of "Potion of Instant Health", 30)] [10] 5
           T6_well_formed).
  - discriminate.
  - intros name value [E|[]]. injection E as <- <-.
    exists 5. split; [find_stored|reflexivity].
Defined.
